(** * vcfsom: SOM (Self-Organizing Map) variant filtering

    A shallow embedding of [vcfsom.c] and the properties of its training
    and scoring pipeline.

    Conventions of the embedding.
    - A C [int] is a [Z]; signed overflow is undefined in C and the model
      covers the executions without it.
    - A C [double] is a rational [Q] (exact arithmetic); the places where
      the source stores the sentinel [HUGE_VAL] in a [double] use [xdouble],
      a rational or [HUGE_VAL].
    - A C array is a [list], a pointer into it is an offset ([Z]); reads
      are [rd], writes are [wr].
    - A NUL-terminated [char*] is the [string] of the characters before
      the NUL.
    - Functions of libc, libm and htslib ([random], [exp], [sscanf],
      [indel_ctx_type], ...) are parameters of the sections that use them. *)

From Stdlib Require Import ZArith QArith Qround List String Ascii Bool Lia Lqa.
From Stdlib Require Import Permutation Qabs.
Import ListNotations.

Local Open Scope Z_scope.

(* ------------------------------------------------------------------ *)
(** ** Arrays, loops and numeric conversions *)

Definition rd {A} (d : A) (l : list A) (i : Z) : A := nth (Z.to_nat i) l d.

Fixpoint wr_nat {A} (l : list A) (n : nat) (v : A) : list A :=
  match l, n with
  | [], _ => []
  | _ :: tl, O => v :: tl
  | x :: tl, S m => x :: wr_nat tl m v
  end.

(** A write through a pointer; outside the allocation C gives no meaning
    to it and the model leaves the array as it is. *)
Definition wr {A} (l : list A) (i : Z) (v : A) : list A :=
  if i <? 0 then l else wr_nat l (Z.to_nat i) v.

(** [for (i = i0; i < i0 + n; i++) s = body i s;] *)
Fixpoint loop {S} (n : nat) (i : Z) (body : Z -> S -> S) (s : S) : S :=
  match n with
  | O => s
  | S m => loop m (i + 1) body (body i s)
  end.

(** [for (i = 0; i < n; i++) ...] *)
Definition for_ {S} (n : Z) (body : Z -> S -> S) (s : S) : S :=
  loop (Z.to_nat n) 0 body s.

(** [(double) i] *)
Definition of_int (i : Z) : Q := inject_Z i.

(** [(int) x]: conversion of a double to int truncates toward zero. *)
Definition to_int (x : Q) : Z := Z.quot (Qnum x) (Zpos (Qden x)).

Definition Qltb (x y : Q) : bool := negb (Qle_bool y x).

(** A [double] variable that may hold the sentinel [HUGE_VAL]. *)
Inductive xdouble : Type :=
| Fin (q : Q)
| HUGE_VAL.

(** [x < y] for [x] finite. *)
Definition lt_x (x : Q) (y : xdouble) : bool :=
  match y with
  | Fin q => Qltb x q
  | HUGE_VAL => true
  end.

(** [x > y] where both may be the sentinel. *)
Definition xgt (x y : xdouble) : bool :=
  match x, y with
  | Fin a, Fin b => Qltb b a
  | Fin _, HUGE_VAL => false
  | HUGE_VAL, Fin _ => true
  | HUGE_VAL, HUGE_VAL => false
  end.

(** [x == HUGE_VAL] *)
Definition is_huge (x : xdouble) : bool :=
  match x with
  | Fin _ => false
  | HUGE_VAL => true
  end.

(** [x / y] for [y] finite and positive. *)
Definition xdiv (x : xdouble) (y : Q) : xdouble :=
  match x with
  | Fin q => Fin (q / y)
  | HUGE_VAL => HUGE_VAL
  end.

(** Equality of two values up to the representation of the rationals. *)
Definition xeq (x y : xdouble) : Prop :=
  match x, y with
  | Fin a, Fin b => a == b
  | HUGE_VAL, HUGE_VAL => True
  | _, _ => False
  end.

(* ------------------------------------------------------------------ *)
(** ** Mask strings *)

Definition NFIXED : Z := 5.
Definition MASK_GOOD : Z := 2.
Definition IS_GOOD (mask : Z) : bool := negb (Z.land mask MASK_GOOD =? 0).

Fixpoint parse_mask_from (str : string) (i mask : Z) : Z :=
  match str with
  | EmptyString => mask
  | String ch rest =>
      parse_mask_from rest (i + 1)
        (if Ascii.eqb ch "1" then Z.lor mask (Z.shiftl 1 i) else mask)
  end.

Definition parse_mask (str : string) : Z := parse_mask_from str 0 0.

(** The loop of [str_mask_set]; the test is [mask & i<<1], where [<<]
    binds tighter than [&]. *)
Fixpoint str_mask_set_from (str : string) (i mask : Z) : Z :=
  match str with
  | EmptyString => 0
  | String ch rest =>
      if Ascii.eqb ch "0" || Ascii.eqb ch "1" then
        if Ascii.eqb ch "1" && negb (Z.land mask (Z.shiftl i 1) =? 0)
        then 1
        else str_mask_set_from rest (i + 1) mask
      else 0
  end.

Definition str_mask_set (str : string) (mask : Z) : Z :=
  str_mask_set_from str 0 mask.

(** The MASK column of [annots_reader_next]:
    [args->mask = args->good_mask ? 1 + str_mask_set(t+1, args->good_mask) : 1]. *)
Definition reader_mask (good_mask : Z) (maskcol : string) : Z :=
  if good_mask =? 0 then 1 else 1 + str_mask_set maskcol good_mask.

(** The goodness rule in the words of the specification: some position of
    the leading run of binary digits carries a ['1'] and is selected by
    [good_mask], whose bit [i] stands for position [i] as [parse_mask]
    builds it. *)
Fixpoint selected_bit_set_from (str : string) (i mask : Z) : bool :=
  match str with
  | EmptyString => false
  | String ch rest =>
      if Ascii.eqb ch "0" || Ascii.eqb ch "1" then
        (Ascii.eqb ch "1" && Z.testbit mask i)
        || selected_bit_set_from rest (i + 1) mask
      else false
  end.

Definition selected_bit_set (str : string) (mask : Z) : bool :=
  selected_bit_set_from str 0 mask.

(* ------------------------------------------------------------------ *)
(** ** Fatal errors

    [error(...)] prints a message and exits, a failed [assert] aborts:
    a function that can reach one returns a [result]. *)

Inductive error_t : Type :=
| Err_filter_syntax        (* "Could not parse filter expression" *)
| Err_no_such_annotation   (* "No such annotation is available" *)
| Err_annot_unavailable    (* "The annotation ... is not available." *)
| Err_too_many_filters     (* "Uh, too many hard-filters" *)
| Err_truncated_line       (* "... is the line truncated?" *)
| Err_fixed_column         (* "Could not parse CHR", POS, MASK, REF, ALT *)
| Err_data_field           (* "Could not parse %d-th data field: [%s]" *)
| Err_assert               (* a failed assert() *)
| Err_fuel.                (* the bound of a modelled [while] was too small *)

Inductive result (A : Type) : Type :=
| Ok (a : A)
| Err (e : error_t).

Arguments Ok {A} a.
Arguments Err {A} e.

Definition bind {A B} (m : result A) (k : A -> result B) : result B :=
  match m with
  | Ok a => k a
  | Err e => Err e
  end.

Notation "x <- m ;; k" := (bind m (fun x => k))
  (at level 61, m at next level, right associativity).

(* ------------------------------------------------------------------ *)
(** ** Data model *)

Record som_t : Type := mk_som {
  nsom : Z;             (* number of maps *)
  nbin : Z;             (* number of bins *)
  kdim : Z;             (* dimension *)
  nt : Z;               (* total number of learning cycles *)
  t : list Z;           (* the current cycle, per map *)
  w : list Q;           (* weights *)
  c : list Q;           (* counts (sum of learning influence) *)
  learn : Q;
  th : Q
}.

Record dist_t : Type := mk_dist {
  d_ngood : Z;
  d_nall : Z;
  d_nmissing : Z;
  good_min : Q;
  good_max : Q;
  all_min : Q;
  all_max : Q;
  scale_min : Q;
  scale_max : Q
}.

Definition FLT_LE : Z := 2.
Definition FLT_LT : Z := 1.
Definition FLT_EQ : Z := 0.
Definition FLT_BT : Z := -1.
Definition FLT_BE : Z := -2.

Record filter_t : Type := mk_filter {
  f_type : Z;           (* one of the FLT_* keys *)
  f_value : Q;          (* threshold *)
  f_desc : string
}.

Record filters_t : Type := mk_filters {
  nfilt : list Z;               (* number of filters for each annotation *)
  f_nann : Z;
  ntot : Z;                     (* number of filters in total *)
  filt : list (list filter_t);  (* filters for each annotation *)
  flt_mask_desc : list string
}.

(** [htslib]'s variant types, as [main_vcfsom] sets [filt_type]. *)
Inductive variant_type : Type :=
| VCF_SNP
| VCF_INDEL.

(** The handle that [indel_ctx_init] returns for a reference file. *)
Inductive indel_ctx_t : Type :=
| IndelCtx (fa_ref_fname : string).

Record args_t : Type := mk_args {
  names : list string;          (* annotation names (0..nann-1) *)
  colnames : list string;       (* all columns' names *)
  col2names : list Z;           (* column number to i-th annot, -1 if unused *)
  ann2cols : list Z;            (* i-th annot to column *)
  nann : Z;
  nann_som : Z;
  ncols : Z;
  dists : option (list dist_t); (* indexed by column; NULL before init_dists *)
  a_ngood : Z;
  a_nall : Z;
  scale : Z;
  lo_pctl : Q;
  hi_pctl : Q;
  ignore : list Z;
  (* filled by annots_reader_next *)
  pos : Z;
  mask : Z;
  chr : string;
  ref : string;
  alt : string;
  vals : list Q;
  raw_vals : list Q;
  missing : list Z;
  nset : Z;
  nset_mask : Z;
  (* the model *)
  som : som_t;
  filt_learn : option filters_t; (* [nfilt] is NULL without -l *)
  nt_learn_frac : Q;
  filt_type : variant_type;
  indel_ctx : option indel_ctx_t;
  good_mask : Z;
  rand_seed : Z
}.

(** One line of the annotation table as the column loop of
    [annots_reader_next] takes it in: the five fixed columns, and for the
    data columns in file order what the loop reads at each of them, [None]
    for a missing value (the text [.] or a number that is not finite).
    What the loop reads at a column is scanned from the text of the line
    where the loop stands; [annots_reader_next_text] below follows the
    loop through the text. *)
Record line_t : Type := mk_line {
  l_chr : string;
  l_pos : Z;
  l_mask : string;
  l_ref : string;
  l_alt : string;
  l_fields : list (option Q)
}.

(* ------------------------------------------------------------------ *)
(** ** Scaling and the table reader *)

(** [scale_value]. Where [scale_min] and [scale_max] are both the value,
    the quotient is 0/0, not a number, and the [assert] fails. *)
Definition scale_value (dist : dist_t) (val : Q) : result Q :=
  if negb (Qltb val (scale_min dist)) && negb (Qltb (scale_max dist) val)
     && Qeq_bool (scale_max dist - scale_min dist) 0
  then Err Err_assert
  else
    let val :=
      if Qltb val (scale_min dist) then 0%Q
      else if Qltb (scale_max dist) val then 1%Q
      else ((val - scale_min dist) / (scale_max dist - scale_min dist))%Q in
    if Qle_bool 0 val && Qle_bool val 1 then Ok val else Err Err_assert.

Definition default_dist : dist_t := mk_dist 0 0 0 0 0 0 0 0 0.

Record reader_acc : Type := mk_racc {
  ra_vals : list Q;
  ra_raw : list Q;
  ra_missing : list Z;
  ra_nset : Z;
  ra_mask : Z
}.

(** The body of the column loop of [annots_reader_next] for column [icol]
    whose field is [fld] ([None] when the line ended before it). A number
    that is not finite is stored in [vals] before the column is marked
    missing; the model leaves [vals] as it was, and every caller skips the
    rows with a missing value. *)
Definition reader_column (args : args_t) (icol : Z) (fld : option (option Q))
    (a : reader_acc) : result reader_acc :=
  match fld with
  | None => Err Err_truncated_line
  | Some v =>
      if negb (rd 0 (ignore args) icol =? 0) then Ok a
      else
        let iann := rd 0 (col2names args) icol in
        match v with
        | None =>
            Ok (mk_racc (ra_vals a) (ra_raw a) (wr (ra_missing a) iann 1)
                  (ra_nset a) (ra_mask a))
        | Some x =>
            scaled <-
              (match dists args with
               | Some ds =>
                   if negb (scale args =? 0)
                   then scale_value (rd default_dist ds icol) x
                   else Ok x
               | None => Ok x
               end) ;;
            Ok (mk_racc (wr (ra_vals a) iann scaled) (wr (ra_raw a) iann x)
                  (wr (ra_missing a) iann 0)
                  (ra_nset a + 1) (Z.lor (ra_mask a) (Z.shiftl 1 iann)))
        end
  end.

Fixpoint reader_columns (args : args_t) (n : nat) (icol : Z)
    (flds : list (option Q)) (a : reader_acc) : result reader_acc :=
  match n with
  | O => Ok a
  | S m =>
      a' <- reader_column args icol (hd_error flds) a ;;
      reader_columns args m (icol + 1) (tl flds) a'
  end.

Definition set_row (args : args_t) (ln : line_t) (a : reader_acc) : args_t :=
  mk_args (names args) (colnames args) (col2names args) (ann2cols args)
    (nann args) (nann_som args) (ncols args) (dists args) (a_ngood args)
    (a_nall args) (scale args) (lo_pctl args) (hi_pctl args) (ignore args)
    (l_pos ln) (reader_mask (good_mask args) (l_mask ln)) (l_chr ln)
    (l_ref ln) (l_alt ln)
    (ra_vals a) (ra_raw a) (ra_missing a) (ra_nset a) (ra_mask a)
    (som args) (filt_learn args) (nt_learn_frac args) (filt_type args)
    (indel_ctx args) (good_mask args) (rand_seed args).

(** [annots_reader_next] on a line that was read: the fixed columns, then
    the data columns. The first three fixed columns are never ignored
    ([init_annots] clears [ignore] for them). *)
Definition annots_reader_next (args : args_t) (ln : line_t) : result args_t :=
  a <- reader_columns args (Z.to_nat (ncols args - NFIXED)) NFIXED (l_fields ln)
         (mk_racc (vals args) (raw_vals args) (missing args) 0 0) ;;
  Ok (set_row args ln a).

(* ------------------------------------------------------------------ *)
(** ** Filter expressions *)

Definition sizeof_uint64_t : Z := 8.

Record ff_state : Type := mk_ff {
  ff_failed : Z;
  ff_k : Z
}.

Definition set_bit (failed k : Z) : Z := Z.lor failed (Z.shiftl 1 k).

(** The [switch] of [failed_filters] for one filter of annotation [i]. *)
Definition failed_filters_case (vec : list Q) (i : Z) (f : filter_t)
    (st : ff_state) : ff_state :=
  let v := rd 0%Q vec i in
  let k := ff_k st in
  let failed := ff_failed st in
  let failed :=
    if f_type f =? FLT_BE then
      if Qltb v (f_value f) then set_bit failed k else failed
    else if f_type f =? FLT_BT then
      if Qle_bool v (f_value f) then set_bit failed k else failed
    else if f_type f =? FLT_EQ then
      if negb (Qeq_bool v (f_value f)) then set_bit failed k else failed
    else if f_type f =? FLT_LT then
      if Qle_bool (f_value f) v then set_bit failed k else failed
    else if f_type f =? FLT_LE then
      if Qltb (f_value f) v then set_bit failed k else failed
    else failed in
  mk_ff failed (k + 1).

Definition null_filter : filter_t := mk_filter 0 0 "".

Definition failed_filters (flt : filters_t) (vec : list Q) : Z :=
  ff_failed
    (for_ (f_nann flt)
       (fun i st =>
          if rd 0 (nfilt flt) i =? 0 then st
          else
            for_ (rd 0 (nfilt flt) i)
              (fun j st =>
                 failed_filters_case vec i
                   (rd null_filter (rd [] (filt flt) i) j) st)
              st)
       (mk_ff 0 0)).

Definition isspace (ch : ascii) : bool :=
  let n := Z.of_nat (nat_of_ascii ch) in
  (n =? 32) || ((9 <=? n) && (n <=? 13)).

Definition is_cmp_char (ch : ascii) : bool :=
  Ascii.eqb ch "<" || Ascii.eqb ch ">" || Ascii.eqb ch "=".

Fixpoint strip_spaces (str : string) : string :=
  match str with
  | EmptyString => EmptyString
  | String ch rest =>
      if isspace ch then strip_spaces rest else String ch (strip_spaces rest)
  end.

(** [while ( *e && p( *e) ) e++;] returns the text passed over and the rest. *)
Fixpoint span (p : ascii -> bool) (e : string) : string * string :=
  match e with
  | EmptyString => (EmptyString, EmptyString)
  | String ch rest =>
      if p ch then let (a, b) := span p rest in (String ch a, b)
      else (EmptyString, e)
  end.

(** The operator between [s] and [e]. *)
Definition cmp_type (op : string) : result Z :=
  if Z.of_nat (String.length op) =? 2 then
    if String.eqb op "==" then Ok FLT_EQ
    else if String.eqb op "<=" then Ok FLT_LE
    else if String.eqb op ">=" then Ok FLT_BE
    else Err Err_filter_syntax
  else if Z.of_nat (String.length op) =? 1 then
    if String.eqb op ">" then Ok FLT_BT
    else if String.eqb op "<" then Ok FLT_LT
    else if String.eqb op "=" then Ok FLT_EQ
    else Err Err_filter_syntax
  else Err Err_filter_syntax.

(** [for (i=NFIXED; i<args->ncols; i++)] looking for the column called
    [left] or [right]; the flag tells that it was [right]. *)
Fixpoint find_side (n : nat) (i : Z) (cols : list string) (left right : string)
    : option (Z * bool) :=
  match n with
  | O => None
  | S m =>
      if String.eqb (rd EmptyString cols i) left then Some (i, false)
      else if String.eqb (rd EmptyString cols i) right then Some (i, true)
      else find_side m (i + 1) cols left right
  end.

Fixpoint find_col (n : nat) (i : Z) (cols : list string) (annot : string)
    : option Z :=
  match n with
  | O => None
  | S m =>
      if String.eqb annot (rd EmptyString cols i) then Some i
      else find_col m (i + 1) cols annot
  end.

Definition set_annots (args : args_t) (names' : list string)
    (ignore' col2names' ann2cols' : list Z) (nann' : Z) : args_t :=
  mk_args names' (colnames args) col2names' ann2cols'
    nann' (nann_som args) (ncols args) (dists args) (a_ngood args)
    (a_nall args) (scale args) (lo_pctl args) (hi_pctl args) ignore'
    (pos args) (mask args) (chr args) (ref args) (alt args)
    (vals args) (raw_vals args) (missing args) (nset args) (nset_mask args)
    (som args) (filt_learn args) (nt_learn_frac args) (filt_type args)
    (indel_ctx args) (good_mask args) (rand_seed args).

Definition init_extra_annot (args : args_t) (annot : string) : result args_t :=
  match find_col (Z.to_nat (ncols args - NFIXED)) NFIXED (colnames args) annot with
  | None => Err Err_annot_unavailable
  | Some i =>
      Ok (set_annots args (names args ++ [annot])
            (wr (ignore args) i 0)
            (wr (col2names args) i (nann args))
            (wr (ann2cols args) (nann args) i)
            (nann args + 1))
  end.

Definition tab : string := String (ascii_of_nat 9) EmptyString.

Section Filters.

(** [sscanf(s, "%le", &value) == 1], with the value read. *)
Variable sscanf_le : string -> option Q.

(** One term [left op right] of [init_filters], from the operator on:
    [left] is the text between [s] and [e] when the operator was met,
    [e] the text from the operator on. Returns the text after the term. *)
Definition init_filters_term (scale : Z) (left e : string)
    (args : args_t) (filts : filters_t)
    : result (string * args_t * filters_t) :=
  let (op, e2) := span is_cmp_char e in
  match e2 with
  | EmptyString => Err Err_filter_syntax
  | String _ _ =>
      type <- cmp_type op ;;
      let (right, e3) := span (fun ch => negb (Ascii.eqb ch "&")) e2 in
      match find_side (Z.to_nat (ncols args - NFIXED)) NFIXED (colnames args)
              left right with
      | None => Err Err_no_such_annotation
      | Some (icol, swapped) =>
          let s := if swapped then left else right in
          let ann := if swapped then right else left in
          let type := if swapped then type * -1 else type in
          args_nann <-
            (if rd 0 (col2names args) icol =? -1
             then a <- init_extra_annot args ann ;; Ok (a, nann a)
             else Ok (args, f_nann filts)) ;;
          let (args, fnann) := (args_nann : args_t * Z) in
          let text := (left ++ op ++ right)%string in
          let desc := (rd EmptyString (colnames args) icol ++ tab ++ text)%string in
          let i := rd 0 (col2names args) icol in
          let nfilt' := wr (nfilt filts) i (rd 0 (nfilt filts) i + 1) in
          match sscanf_le s with
          | None => Err Err_filter_syntax
          | Some value =>
              value <-
                (if negb (scale =? 0) then
                   match dists args with
                   | Some ds =>
                       scale_value (rd default_dist ds (rd 0 (ann2cols args) i)) value
                   | None => Err Err_assert
                   end
                 else Ok value) ;;
              let flt := mk_filter type value desc in
              Ok (e3, args,
                  mk_filters nfilt' fnann (ntot filts + 1)
                    (wr (filt filts) i (rd [] (filt filts) i ++ [flt]))
                    (flt_mask_desc filts ++ [text]))
          end
      end
  end.

(** The scanning loop of [init_filters]: [tok] is the text between the
    pointers [s] and [e], [e] the text still to scan. Every iteration
    advances [e], so [fuel] above the length of [e] is never used up. *)
Fixpoint init_filters_loop (fuel : nat) (scale : Z) (tok e : string)
    (args : args_t) (filts : filters_t) : result (args_t * filters_t) :=
  match fuel with
  | O => Err Err_fuel
  | S fuel' =>
      match e with
      | EmptyString => Ok (args, filts)
      | String ch e1 =>
          if Ascii.eqb ch "&" then
            init_filters_loop fuel' scale EmptyString e1 args filts
          else if is_cmp_char ch then
            r <- init_filters_term scale tok e args filts ;;
            let '(e3, args', filts') := r in
            init_filters_loop fuel' scale EmptyString e3 args' filts'
          else
            init_filters_loop fuel' scale (tok ++ String ch EmptyString) e1
              args filts
      end
  end.

(** [init_filters]: the expression is copied without its blanks into
    [args->str] and scanned there. When no character is copied (an
    expression of blanks only) the source scans what [args->str] held
    before the call; the model is for the expressions that hold a
    character that is not a blank. *)
Definition init_filters (args : args_t) (str : string) (scale : Z)
    : result (args_t * filters_t) :=
  let n := Z.to_nat (ncols args - NFIXED) in
  let filts := mk_filters (repeat 0 n) (nann args) 0 (repeat [] n) [] in
  let stripped := strip_spaces str in
  r <- init_filters_loop (S (String.length stripped)) scale EmptyString
         stripped args filts ;;
  let '(args', filts') := r in
  if sizeof_uint64_t - 1 <? ntot filts' then Err Err_too_many_filters
  else Ok (args', filts').

End Filters.

(* ------------------------------------------------------------------ *)
(** ** Percentiles of a column ([create_dists]) *)

Record stats_t : Type := mk_stats {
  s_ngood : Z;
  s_nall : Z;
  s_nmissing : Z;
  s_good_min : Q;
  s_good_max : Q;
  s_all_min : Q;
  s_all_max : Q;
  s_file : list (Q * Z)     (* the lines of the scratch file, as read back *)
}.

(** The body of the first pass for one annotation of one row that the
    reader returned: [raw] is [raw_vals[i]], or [None] when the reader
    marked the value as missing, [mask] is the row's mask. The line of the
    scratch file is written with ["%le\t%d"]; [le_text x] is the number
    that the text written for [x] is read back as. *)
Definition stats_step (le_text : Q -> Q) (st : stats_t) (raw : option Q)
    (mask : Z) : stats_t :=
  match raw with
  | None =>
      mk_stats (s_ngood st) (s_nall st) (s_nmissing st + 1) (s_good_min st)
        (s_good_max st) (s_all_min st) (s_all_max st) (s_file st)
  | Some x =>
      let good := IS_GOOD mask in
      let gmin := if good && (s_ngood st =? 0) then x else s_good_min st in
      let gmax := if good && (s_ngood st =? 0) then x else s_good_max st in
      let gmin := if good && Qltb x gmin then x else gmin in
      let gmax := if good && Qltb gmax x then x else gmax in
      let ngood := if good then s_ngood st + 1 else s_ngood st in
      let amin := if s_nall st =? 0 then x else s_all_min st in
      let amax := if s_nall st =? 0 then x else s_all_max st in
      let amin := if Qltb x amin then x else amin in
      let amax := if Qltb amax x then x else amax in
      mk_stats ngood (s_nall st + 1) (s_nmissing st) gmin gmax amin amax
        (s_file st ++ [(le_text x, if good then 1 else 0)])
  end.

Record pctl_t : Type := mk_pctl {
  p_count : Z;
  p_scale_min : xdouble;
  p_scale_max : xdouble;
  p_val : Q                 (* the value last read *)
}.

(** The body of the [while ( fscanf(...)==2 )] loop. *)
Definition pctl_step (lo hi : Q) (nall : Z) (st : pctl_t) (val : Q) : pctl_t :=
  let count := p_count st + 1 in
  let pct := (100 * of_int count / of_int nall)%Q in
  let smin :=
    if is_huge (p_scale_min st) || Qltb pct lo then Fin val
    else p_scale_min st in
  let smax :=
    if is_huge (p_scale_max st) && Qltb hi pct then Fin val
    else p_scale_max st in
  mk_pctl count smin smax val.

(** The percentile scan over the sorted values; [val0] is the content of
    the local [val] before the first read. *)
Definition percentiles (lo hi : Q) (nall : Z) (val0 : Q) (sorted : list Q)
    : xdouble * xdouble :=
  let st := fold_left (pctl_step lo hi nall) sorted
              (mk_pctl 0 HUGE_VAL HUGE_VAL val0) in
  (p_scale_min st,
   if is_huge (p_scale_max st) then Fin (p_val st) else p_scale_max st).

Section CreateDists.

(** The external [sort -k1,1g] on the lines of a scratch file. *)
Variable sort_k1g : list (Q * Z) -> list (Q * Z).

(** [printf] and [scanf] with ["%le"]: the number that the text written
    for a number is read back as. *)
Variable le_text : Q -> Q.

(** [create_dists] for one annotation: the entries are, for every row
    that the reader returned, the raw value it gave for the annotation
    ([None] when it marked the value as missing) and the mask of the row. *)
Definition create_dists_column (lo hi val0 : Q) (entries : list (option Q * Z))
    : stats_t * (xdouble * xdouble) :=
  let st := fold_left (fun st e => stats_step le_text st (fst e) (snd e))
              entries (mk_stats 0 0 0 0 0 0 0 []) in
  (st, percentiles lo hi (s_nall st) val0 (map fst (sort_k1g (s_file st)))).

End CreateDists.

(** The percentile rule in the words of the specification: the first
    value, counting from [k], at which [100*k/nall] satisfies [p]. *)
Fixpoint first_value_at (p : Q -> bool) (nall : Z) (k : Z) (sorted : list Q)
    : option Q :=
  match sorted with
  | [] => None
  | v :: rest =>
      if p (100 * of_int k / of_int nall)%Q then Some v
      else first_value_at p nall (k + 1) rest
  end.

Definition spec_scale_min (lo : Q) (nall : Z) (sorted : list Q) : option Q :=
  first_value_at (fun pct => Qle_bool lo pct) nall 1 sorted.

Definition spec_scale_max (hi : Q) (nall : Z) (sorted : list Q) : option Q :=
  match first_value_at (fun pct => Qltb hi pct) nall 1 sorted with
  | Some v => Some v
  | None => last (map Some sorted) None
  end.

(* ------------------------------------------------------------------ *)
(** ** Variant class *)

Definition char0 (s : string) : ascii :=
  match s with
  | EmptyString => zero
  | String ch _ => ch
  end.

Section VariantClass.

(** [htslib]: the index of a base. *)
Variable bcf_acgt2int : ascii -> Z.

(** The indel context collaborator: returns [ndel] and stores [nrep] and
    [nlen]; the triple is (ndel, nrep, nlen). *)
Variable indel_ctx_type :
  indel_ctx_t -> string -> Z -> string -> string -> Z * Z * Z.

Definition determine_variant_class (args : args_t) : Z :=
  match filt_type args with
  | VCF_SNP =>
      if Z.abs (bcf_acgt2int (char0 (ref args))
                - bcf_acgt2int (char0 (alt args))) =? 2
      then 1 else 0
  | VCF_INDEL =>
      match indel_ctx args with
      | None => 2
      | Some ctx =>
          let '(ndel, nrep, nlen) :=
            indel_ctx_type ctx (chr args) (pos args) (ref args) (alt args) in
          if (nlen <=? 1) || (nrep <=? 1) then 2
          else if negb (Z.rem (Z.abs ndel) nlen =? 0) then 0
          else 1
      end
  end.

End VariantClass.

(* ------------------------------------------------------------------ *)
(** ** The self-organizing map *)

(** [glibc]'s bound of [random()]. *)
Definition RAND_MAX : Z := 2147483647.

(** The state of the process-wide generator: the seed last given to
    [srandom] and the number of calls of [random] since. *)
Record rng_t : Type := mk_rng {
  rng_seed : Z;
  rng_calls : nat
}.

Definition srandom (seed : Z) : rng_t := mk_rng seed 0.

Definition set_som_wc (som : som_t) (t' : list Z) (w' c' : list Q) : som_t :=
  mk_som (nsom som) (nbin som) (kdim som) (nt som) t' w' c'
    (learn som) (th som).

Definition set_som_nt (som : som_t) (nt' : Z) : som_t :=
  mk_som (nsom som) (nbin som) (kdim som) nt' (t som) (w som) (c som)
    (learn som) (th som).

(** [for (k=0; k<kdim; k++) dist += (vec[k] - ptr[k]) * (vec[k] - ptr[k]);] *)
Definition sq_dist (kdim : Z) (vec wgt : list Q) (ptr : Z) : Q :=
  for_ kdim
    (fun k dist =>
       (dist + (rd 0 vec k - rd 0 wgt (ptr + k))
               * (rd 0 vec k - rd 0 wgt (ptr + k)))%Q)
    0%Q.

Record bmu_t : Type := mk_bmu {
  b_ptr : Z;
  b_min_dist : xdouble;
  b_imin : Z;
  b_jmin : Z
}.

(** The search for the best matching unit in the map at [ptr]. *)
Definition find_bmu (som : som_t) (vec : list Q) (ptr : Z) : bmu_t :=
  for_ (nbin som)
    (fun i st =>
       for_ (nbin som)
         (fun j st =>
            let dist := sq_dist (kdim som) vec (w som) (b_ptr st) in
            if lt_x dist (b_min_dist st)
            then mk_bmu (b_ptr st + kdim som) (Fin dist) i j
            else mk_bmu (b_ptr st + kdim som) (b_min_dist st)
                   (b_imin st) (b_jmin st))
         st)
    (mk_bmu ptr HUGE_VAL 0 0).

Record upd_t : Type := mk_upd {
  u_w : list Q;
  u_c : list Q;
  u_ptr : Z;
  u_cnt : Z
}.

(** [for (k=0; k<kdim; k++) ptr[k] += influence * (vec[k] - ptr[k]);] *)
Definition move_weights (kdim : Z) (vec : list Q) (influence : Q) (ptr : Z)
    (wgt : list Q) : list Q :=
  for_ kdim
    (fun k wgt =>
       wr wgt (ptr + k)
         (rd 0 wgt (ptr + k)
          + influence * (rd 0 vec k - rd 0 wgt (ptr + k)))%Q)
    wgt.

Section Som.

(** [libm]'s exponential. *)
Variable exp : Q -> Q.

(** [libc]'s generator: the value of the [n]-th call of [random()] after
    [srandom(seed)]. *)
Variable random_seq : Z -> nat -> Z.

Definition random (g : rng_t) : Z * rng_t :=
  (random_seq (rng_seed g) (rng_calls g),
   mk_rng (rng_seed g) (S (rng_calls g))).

(** [exp(-dist*dist*0.5/radius) * learning_rate] *)
Definition influence_of (dist radius learning_rate : Q) : Q :=
  (exp (- dist * dist * (1 # 2) / radius) * learning_rate)%Q.

(** The body of the update loops of [som_train] at grid position (i, j). *)
Definition update_cell (kdim : Z) (vec : list Q) (imin jmin : Z)
    (radius learning_rate : Q) (i j : Z) (st : upd_t) : upd_t :=
  let dist := of_int ((i - imin) * (i - imin) + (j - jmin) * (j - jmin)) in
  if Qle_bool dist radius then
    let influence := influence_of dist radius learning_rate in
    mk_upd (move_weights kdim vec influence (u_ptr st) (u_w st))
      (wr (u_c st) (u_cnt st) (rd 0 (u_c st) (u_cnt st) + influence)%Q)
      (u_ptr st + kdim) (u_cnt st + 1)
  else mk_upd (u_w st) (u_c st) (u_ptr st + kdim) (u_cnt st + 1).

(** The map that a training step selects. *)
Definition select_map (som : som_t) (g : rng_t) : Z * rng_t :=
  if nsom som =? 1 then (0, g)
  else
    let (r, g') := random g in
    (to_int (of_int (nsom som) * of_int r / of_int RAND_MAX), g').

(** The clock-dependent parameters of a step, [radius] (already squared)
    and [learning_rate], for the map [jsom]. *)
Definition step_radius (som : som_t) (jsom : Z) : Q :=
  let tt := of_int (rd 0 (t som) jsom * nsom som) in
  let radius := (of_int (nbin som) * exp (- tt / of_int (nt som)))%Q in
  (radius * radius)%Q.

Definition step_rate (som : som_t) (jsom : Z) : Q :=
  let tt := of_int (rd 0 (t som) jsom * nsom som) in
  (learn som * exp (- tt / of_int (nt som)))%Q.

(** [som_train] once the map [jsom] is selected. *)
Definition som_train_map (som : som_t) (vec : list Q) (jsom : Z) : som_t :=
  (* find the best matching unit *)
  let ptr := jsom * nbin som * nbin som * kdim som in
  let cnt := jsom * nbin som * nbin som in
  let b := find_bmu som vec ptr in
  let radius := step_radius som jsom in
  let learning_rate := step_rate som jsom in
  let t' := wr (t som) jsom (rd 0 (t som) jsom + 1) in
  (* update the weights: ptr = som->w *)
  let u :=
    for_ (nbin som)
      (fun i st =>
         for_ (nbin som)
           (fun j st =>
              update_cell (kdim som) vec (b_imin b) (b_jmin b)
                radius learning_rate i j st)
           st)
      (mk_upd (w som) (c som) 0 cnt) in
  set_som_wc som t' (u_w u) (u_c u).

Definition som_train (som : som_t) (vec : list Q) (g : rng_t)
    : result (som_t * rng_t) :=
  let (jsom, g') := select_map som g in
  if jsom <? nsom som then Ok (som_train_map som vec jsom, g')
  else Err Err_assert.

Record cd_t : Type := mk_cd {
  cd_cnt : Z;
  cd_ptr : Z;
  cd_min_dist : xdouble
}.

(** The two inner loops of [som_calc_dist] over one map. *)
Definition calc_dist_map (som : som_t) (vec : list Q) (cnt ptr : Z) : cd_t :=
  for_ (nbin som)
    (fun i st =>
       for_ (nbin som)
         (fun j st =>
            let min_dist :=
              if Qle_bool (th som) (rd 0%Q (c som) (cd_cnt st)) then
                let dist := sq_dist (kdim som) vec (w som) (cd_ptr st) in
                if lt_x dist (cd_min_dist st) then Fin dist
                else cd_min_dist st
              else cd_min_dist st in
            mk_cd (cd_cnt st + 1) (cd_ptr st + kdim som) min_dist)
         st)
    (mk_cd cnt ptr HUGE_VAL).

Definition som_calc_dist (som : som_t) (vec : list Q) : xdouble :=
  cd_min_dist
    (for_ (nsom som)
       (fun js st =>
          let m := calc_dist_map som vec (cd_cnt st) (cd_ptr st) in
          mk_cd (cd_cnt m) (cd_ptr m)
            (if xgt (cd_min_dist st) (cd_min_dist m) then cd_min_dist m
             else cd_min_dist st))
       (mk_cd 0 0 HUGE_VAL)).

(** [som_norm] on the count array; [som->c[i]] is read for the maximum
    and [c[i]], the count of map [j], is stored. *)
Definition som_norm_map (n2 : Z) (j : Z) (cs : list Q) : list Q :=
  let base := j * n2 in
  let max :=
    for_ n2
      (fun i max =>
         if Qltb max (rd 0%Q cs i) then rd 0%Q cs (base + i) else max)
      0%Q in
  if negb (Qeq_bool max 0) then
    for_ n2 (fun i cs => wr cs (base + i) (rd 0 cs (base + i) / max)%Q) cs
  else cs.

Definition som_norm (som : som_t) : som_t :=
  let n2 := nbin som * nbin som in
  set_som_wc som (t som) (w som)
    (for_ (nsom som) (fun j cs => som_norm_map n2 j cs) (c som)).

Definition som_init1 (args : args_t) (kdim : Z) (template : som_t) : som_t :=
  let n2 := nbin template * nbin template * nsom template in
  mk_som (nsom template) (nbin template) kdim
    (if (nt template =? 0) || (a_ngood args <? nt template)
     then a_ngood args else nt template)
    (repeat 0 (Z.to_nat (nsom template)))
    (repeat 0%Q (Z.to_nat (kdim * n2)))
    (repeat 0%Q (Z.to_nat n2))
    (learn template) (th template).

Definition som_init_rand (som : som_t) (seed : Z) (g : rng_t) : som_t * rng_t :=
  let g := if 0 <=? seed then srandom seed else g in
  let n3 := nbin som * nbin som * kdim som * nsom som in
  let (w', g') :=
    for_ n3
      (fun i (st : list Q * rng_t) =>
         let (r, g') := random (snd st) in
         (wr (fst st) i (of_int r / of_int RAND_MAX)%Q, g'))
      (w som, g) in
  (set_som_wc som (t som) w' (c som), g').

End Som.

(* ------------------------------------------------------------------ *)
(** ** Training ([som_init]) and scoring ([eval_filters]) *)

Record res_t : Type := mk_res {
  r_args : args_t;
  r_fixed : list Q;         (* good_vals_fixed *)
  r_learn : list Q;         (* good_vals_learn *)
  r_nfixed : Z;             (* ngood_vals_fixed *)
  r_nlearn : Z;             (* ngood_vals_learn *)
  r_rng : rng_t
}.

(** [for (j=0; j<nann_som; j++) buf[i*nann_som + j] = vals[j];] *)
Definition store_vector (nann_som : Z) (vals : list Q) (i : Z) (buf : list Q)
    : list Q :=
  for_ nann_som (fun j buf => wr buf (i * nann_som + j) (rd 0%Q vals j)) buf.

Record site_t : Type := mk_site {
  st_score : xdouble;
  st_class : Z;
  st_good : Z;
  st_chr : string;
  st_pos : Z
}.

Record scored_t : Type := mk_scored {
  sc_args : args_t;
  sc_sites : list site_t;   (* the records written to the sites file *)
  sc_ngood : Z;
  sc_nall : Z
}.

Section Pipeline.

Variable exp : Q -> Q.
Variable random_seq : Z -> nat -> Z.
Variable bcf_acgt2int : ascii -> Z.
Variable indel_ctx_type :
  indel_ctx_t -> string -> Z -> string -> string -> Z * Z * Z.

(** The slot of a reservoir of capacity [cap] holding [n] vectors that the
    next vector goes to, the new [n] and the generator:
    [if ( n < cap ) { i = n; n++; } else i = (double)(cap-1)*random()/RAND_MAX;] *)
Definition pick_slot (n cap : Z) (g : rng_t) : Z * Z * rng_t :=
  if n <? cap then (n, n + 1, g)
  else
    let (r, g') := random random_seq g in
    (to_int (of_int (cap - 1) * of_int r / of_int RAND_MAX), n, g').

(** The reservoir capacities of [som_init]:
    [int ngood_fixed_max = good_som->nt * (1-args->nt_learn_frac);] and
    [int ngood_learn_max = good_som->nt * args->nt_learn_frac;]. The code
    truncates the product of doubles, the model the exact product: the
    two can differ by one where the rounded product falls on the other
    side of an integer (100 * 0.29 is below 29 as a double). *)
Definition ngood_fixed_max (good_som : som_t) (args : args_t) : Z :=
  to_int (of_int (nt good_som) * (1 - nt_learn_frac args)).

Definition ngood_learn_max (good_som : som_t) (args : args_t) : Z :=
  to_int (of_int (nt good_som) * nt_learn_frac args).

(** The body of the sampling loop of [som_init] for a row already read
    into [r_args st]. *)
Definition sample_row (fixed_max learn_max : Z) (st : res_t) : res_t :=
  let args := r_args st in
  if negb (nset args =? nann args) then st
  else if negb (IS_GOOD (mask args)) then
    match filt_learn args with
    | None => st
    | Some flt =>
        if learn_max =? 0 then st
        else if negb (failed_filters flt (vals args) =? 0) then st
        else
          let '(i, n, g) := pick_slot (r_nlearn st) learn_max (r_rng st) in
          mk_res args (r_fixed st)
            (store_vector (nann_som args) (vals args) i (r_learn st))
            (r_nfixed st) n g
    end
  else
    if fixed_max =? 0 then st
    else
      let '(i, n, g) := pick_slot (r_nfixed st) fixed_max (r_rng st) in
      mk_res args
        (store_vector (nann_som args) (vals args) i (r_fixed st))
        (r_learn st) n (r_nlearn st) g.

Definition set_res_args (st : res_t) (args : args_t) : res_t :=
  mk_res args (r_fixed st) (r_learn st) (r_nfixed st) (r_nlearn st) (r_rng st).

(** [while ( annots_reader_next(args) ) ...] over the rows of the table. *)
Fixpoint sample_rows (fixed_max learn_max : Z) (rows : list line_t)
    (st : res_t) : result res_t :=
  match rows with
  | [] => Ok st
  | ln :: rest =>
      args <- annots_reader_next (r_args st) ln ;;
      sample_rows fixed_max learn_max rest
        (sample_row fixed_max learn_max (set_res_args st args))
  end.

(** [for (i=0; i<n; i++) som_train(good_som, &buf[i*nann_som]);] *)
Fixpoint train_all (n : nat) (i : Z) (nann_som : Z) (buf : list Q)
    (som : som_t) (g : rng_t) : result (som_t * rng_t) :=
  match n with
  | O => Ok (som, g)
  | S m =>
      r <- som_train exp random_seq som
             (skipn (Z.to_nat (i * nann_som)) buf) g ;;
      train_all m (i + 1) nann_som buf (fst r) (snd r)
  end.

(** [som_init]: returns the reader state, the trained map and the
    generator. [g0] is the generator before the call. *)
Definition som_init (args : args_t) (rows : list line_t) (g0 : rng_t)
    : result (args_t * som_t * rng_t) :=
  let good_som := som_init1 args (nann_som args) (som args) in
  let (good_som, g) := som_init_rand random_seq good_som (rand_seed args) g0 in
  let fixed_max := ngood_fixed_max good_som args in
  let learn_max := ngood_learn_max good_som args in
  let g := srandom (rand_seed args) in
  st <- sample_rows fixed_max learn_max rows
          (mk_res args
             (repeat 0%Q (Z.to_nat (fixed_max * nann_som args)))
             (repeat 0%Q (Z.to_nat (learn_max * nann_som args)))
             0 0 g) ;;
  let good_som :=
    if r_nlearn st + r_nfixed st <? nt good_som
    then set_som_nt good_som (r_nlearn st + r_nfixed st) else good_som in
  r <- train_all (Z.to_nat (r_nfixed st)) 0 (nann_som args) (r_fixed st)
         good_som (r_rng st) ;;
  r <- train_all (Z.to_nat (r_nlearn st)) 0 (nann_som args) (r_learn st)
         (fst r) (snd r) ;;
  Ok (r_args st, som_norm (fst r), snd r).

(** The score that [eval_filters] prints for the row read into [args]:
    [dist/max_dist] with [max_dist = good_som->kdim]. *)
Definition site_score (good_som : som_t) (args : args_t) : xdouble :=
  let max_dist := of_int (kdim good_som) in
  let dist := som_calc_dist good_som (vals args) in
  xdiv dist max_dist.

(** The body of the scoring loop of [eval_filters] for a row already read. *)
Definition score_row (good_som : som_t) (st : scored_t) : scored_t :=
  let args := sc_args st in
  if negb (nset args =? nann args) then st
  else
    let score := site_score good_som args in
    let class := determine_variant_class bcf_acgt2int indel_ctx_type args in
    let good := if IS_GOOD (mask args) then 1 else 0 in
    mk_scored args
      (sc_sites st ++ [mk_site score class good (chr args) (pos args)])
      (sc_ngood st + good) (sc_nall st + 1).

Fixpoint score_rows (good_som : som_t) (rows : list line_t) (st : scored_t)
    : result scored_t :=
  match rows with
  | [] => Ok st
  | ln :: rest =>
      args <- annots_reader_next (sc_args st) ln ;;
      score_rows good_som rest
        (score_row good_som
           (mk_scored args (sc_sites st) (sc_ngood st) (sc_nall st)))
  end.

End Pipeline.

(* ------------------------------------------------------------------ *)
(** ** What the percentile scan computes *)

Section PercentileSpec.

Variables (lo hi : Q) (nall : Z).

(** [100.*count/nall] *)
Definition pct (k : Z) : Q := (100 * of_int k / of_int nall)%Q.

(** [scale_min] is the value at the last count that is 1 or whose
    percentage is below [lo]. *)
Definition is_scale_min (vs : list Q) (smin : xdouble) : Prop :=
  exists k,
    1 <= k <= Z.of_nat (List.length vs)
    /\ smin = Fin (rd 0%Q vs (k - 1))
    /\ (k = 1 \/ Qltb (pct k) lo = true)
    /\ forall k', k < k' <= Z.of_nat (List.length vs) -> Qltb (pct k') lo = false.

(** No count up to [n] has a percentage above [hi]. *)
Definition none_above (n : Z) : Prop :=
  forall k', 1 <= k' <= n -> Qltb hi (pct k') = false.

(** [smax] is the value at the first count whose percentage is above [hi]. *)
Definition is_first_above (vs : list Q) (smax : xdouble) : Prop :=
  exists k,
    1 <= k <= Z.of_nat (List.length vs)
    /\ smax = Fin (rd 0%Q vs (k - 1))
    /\ Qltb hi (pct k) = true
    /\ none_above (k - 1).

Definition scan_invariant (vs : list Q) (x : Q) (st : pctl_t) : Prop :=
  p_count st = Z.of_nat (List.length vs)
  /\ p_val st = x
  /\ is_scale_min vs (p_scale_min st)
  /\ ((p_scale_max st = HUGE_VAL /\ none_above (Z.of_nat (List.length vs)))
      \/ is_first_above vs (p_scale_max st)).

End PercentileSpec.

(* ------------------------------------------------------------------ *)
(** ** The nearest activated prototype *)

(** [r <= x] for a distance [r] that may be [HUGE_VAL]. *)
Definition xle (r : xdouble) (x : Q) : Prop :=
  match r with
  | Fin a => (a <= x)%Q
  | HUGE_VAL => False
  end.

Section NearestSpec.

Variables (som : som_t) (vec : list Q).

(** The cells of all maps are numbered in storage order: cell [q] has the
    count [c[q]] and the prototype at [w + q*kdim]. *)
Definition activated (q : Z) : Prop :=
  Qle_bool (th som) (rd 0%Q (c som) q) = true.

Definition cell_dist (q : Z) : Q :=
  sq_dist (kdim som) vec (w som) (q * kdim som).

(** [r] is the least squared distance from [vec] to the prototype of an
    activated cell among the cells [a <= q < b], and [HUGE_VAL] when no
    cell there is activated. *)
Definition is_nearest (a b : Z) (r : xdouble) : Prop :=
  (forall q, a <= q < b -> activated q -> xle r (cell_dist q))
  /\ match r with
     | Fin x => exists q, a <= q < b /\ activated q /\ x = cell_dist q
     | HUGE_VAL => True
     end.

End NearestSpec.

(* ------------------------------------------------------------------ *)
(** ** The quantities of a training step *)

Section TrainStep.

Variable exp : Q -> Q.
Variables (som : som_t) (vec : list Q) (jsom : Z).

(** The squared grid distance of the position (i, j) to the best matching
    unit that the step found in the map [jsom]. *)
Definition grid_dist (i j : Z) : Q :=
  let b := find_bmu som vec (jsom * nbin som * nbin som * kdim som) in
  of_int ((i - b_imin b) * (i - b_imin b) + (j - b_jmin b) * (j - b_jmin b)).

Definition in_radius (i j : Z) : bool :=
  Qle_bool (grid_dist i j) (step_radius exp som jsom).

Definition influence_at (i j : Z) : Q :=
  influence_of exp (grid_dist i j) (step_radius exp som jsom)
    (step_rate exp som jsom).

(** The weight that the update loop leaves at offset [k] of the [p]-th
    prototype of the weight array, [p = i*nbin + j], and the count that it
    leaves at the [p]-th count from [cnt]. *)
Definition trained_weight (i j k : Z) : Q :=
  let old := rd 0%Q (w som) ((i * nbin som + j) * kdim som + k) in
  if in_radius i j
  then (old + influence_at i j * (rd 0%Q vec k - old))%Q
  else old.

Definition trained_count (cnt i j : Z) : Q :=
  let old := rd 0%Q (c som) (cnt + (i * nbin som + j)) in
  if in_radius i j then (old + influence_at i j)%Q else old.

(** The state of the update loops of the step after [p] grid positions:
    the pointers, the part of the arrays not reached yet and the part
    already updated. *)
Definition update_invariant (p : Z) (st : upd_t) : Prop :=
  let cnt := jsom * nbin som * nbin som in
  u_ptr st = p * kdim som
  /\ u_cnt st = cnt + p
  /\ List.length (u_w st) = List.length (w som)
  /\ List.length (u_c st) = List.length (c som)
  /\ (forall idx, p * kdim som <= idx ->
        rd 0%Q (u_w st) idx = rd 0%Q (w som) idx)
  /\ (forall idx, 0 <= idx -> idx < cnt \/ cnt + p <= idx ->
        rd 0%Q (u_c st) idx = rd 0%Q (c som) idx)
  /\ (forall i j k,
        0 <= i -> 0 <= j < nbin som -> i * nbin som + j < p ->
        0 <= k < kdim som ->
        rd 0%Q (u_w st) ((i * nbin som + j) * kdim som + k)
        = trained_weight i j k)
  /\ (forall i j,
        0 <= i -> 0 <= j < nbin som -> i * nbin som + j < p ->
        rd 0%Q (u_c st) (cnt + (i * nbin som + j)) = trained_count cnt i j).

End TrainStep.

(* ------------------------------------------------------------------ *)
(** ** The slot drawn from a full reservoir *)

(** The integer part of [(cap-1) * r / RAND_MAX] for the next value [r]
    of the generator [g]. *)
Definition drawn_slot (random_seq : Z -> nat -> Z) (cap : Z) (g : rng_t) : Z :=
  Z.quot ((cap - 1) * random_seq (rng_seed g) (rng_calls g)) RAND_MAX.

(* ------------------------------------------------------------------ *)
(** ** Stand-ins for the library functions and test data *)

Definition digit_of (ch : ascii) : option Z :=
  let n := Z.of_nat (nat_of_ascii ch) in
  if (48 <=? n) && (n <=? 57) then Some (n - 48) else None.

(** Reads the digits at the head of [s]: the number read, the number of
    digits and the rest. *)
Fixpoint scan_digits (s : string) (acc : Z) (n : nat) : Z * nat * string :=
  match s with
  | EmptyString => (acc, n, s)
  | String ch rest =>
      match digit_of ch with
      | Some d => scan_digits rest (10 * acc + d) (S n)
      | None => (acc, n, s)
      end
  end.

(** [sscanf "%le"] on the decimal literals [digits] and [digits.digits]. *)
Definition scan_decimal (s : string) : option Q :=
  let '(ip, n, rest) := scan_digits s 0 0 in
  match n with
  | O => None
  | S _ =>
      match rest with
      | String "." frac =>
          let '(fp, m, _) := scan_digits frac 0 0 in
          Some (inject_Z ip + inject_Z fp / inject_Z (10 ^ Z.of_nat m))%Q
      | _ => Some (inject_Z ip)
      end
  end.

(** [htslib]'s [bcf_acgt2int]. *)
Definition acgt2int (ch : ascii) : Z :=
  let n := Z.of_nat (nat_of_ascii ch) in
  let n := if 96 <? n then n - 32 else n in
  if n =? 65 then 0 else if n =? 67 then 1
  else if n =? 71 then 2 else if n =? 84 then 3 else -1.

(** A map with the defaults of [main_vcfsom], without weights. *)
Definition som_default : som_t :=
  mk_som 1 20 0 0 [] [] [] (1 # 10) (2 # 10).

(** The reader state after [init_annots] on a table with the single
    annotation column QUAL, all annotations requested. *)
Definition args_qual : args_t :=
  mk_args ["QUAL"%string]
    ["CHROM"; "POS"; "MASK"; "REF"; "ALT"; "QUAL"]%string
    [-1; -1; -1; -1; -1; 0] [5; 0; 0; 0; 0; 0] 1 1 6
    None 0 0 1 (1 # 10) (999 # 10) [0; 0; 0; 0; 0; 0]
    0 0 EmptyString EmptyString EmptyString
    [0%Q; 0%Q; 0%Q; 0%Q; 0%Q; 0%Q] [0%Q; 0%Q; 0%Q; 0%Q; 0%Q; 0%Q]
    [0; 0; 0; 0; 0; 0] 0 0
    som_default None 0 VCF_SNP None (parse_mask "010") 1.

(** The same reader positioned on an indel record, with a reference. *)
Definition args_indel : args_t :=
  mk_args (names args_qual) (colnames args_qual) (col2names args_qual)
    (ann2cols args_qual) 1 1 6 None 0 0 1 (1 # 10) (999 # 10)
    (ignore args_qual) 100 1 "1" "AT" "AC"
    (vals args_qual) (raw_vals args_qual) (missing args_qual) 1 1
    som_default None 0 VCF_INDEL (Some (IndelCtx "ref.fa")) (parse_mask "010") 1.

(** A collaborator that reports the context (ndel, nrep, nlen). *)
Definition ctx_const (ndel nrep nlen : Z)
    : indel_ctx_t -> string -> Z -> string -> string -> Z * Z * Z :=
  fun _ _ _ _ _ => (ndel, nrep, nlen).

(** The class of an indel in the words of the specification. *)
Definition spec_indel_class (ndel nrep nlen : Z) : Z :=
  if (ndel =? 0) || (nlen <=? 1) || (nrep <=? 1) then 2
  else if Z.abs ndel mod nlen =? 0 then 1
  else 0.

Definition expr_7_terms : string :=
  "QUAL>1 & QUAL>2 & QUAL>3 & QUAL>4 & QUAL>5 & QUAL>6 & QUAL>7".

Definition expr_8_terms : string :=
  "QUAL>1 & QUAL>2 & QUAL>3 & QUAL>4 & QUAL>5 & QUAL>6 & QUAL>7 & QUAL>8".

(** A sorted column of the 1500 values 1, 2, ..., 1500. *)
Definition column_1_to_1500 : list Q :=
  map (fun n => of_int (Z.of_nat n)) (seq 1 1500).

(** Two maps of 2 x 2 cells with one weight per cell, as they may be after
    training: the counts of the first map are 2 1 0 0, those of the second
    1 3 0 0. *)
Definition som_two_maps : som_t :=
  mk_som 2 2 1 8 [4; 4]
    [0%Q; 0%Q; 0%Q; 0%Q; 1%Q; 0%Q; 0%Q; 0%Q]
    [2%Q; 1%Q; 0%Q; 0%Q; 1%Q; 3%Q; 0%Q; 0%Q]
    (1 # 10) (2 # 10).

(** One map of 2 x 2 cells over two annotations; only the first cell,
    whose prototype is (0, 0), is populated. *)
Definition som_one_cell : som_t :=
  mk_som 1 2 2 4 [4]
    [0%Q; 0%Q; 1%Q; 1%Q; 1%Q; 1%Q; 1%Q; 1%Q]
    [1%Q; 0%Q; 0%Q; 0%Q]
    (1 # 10) (2 # 10).

(** The reader state after [init_annots] on a table with the annotation
    columns QUAL and MQ, without scaling. *)
Definition args_two : args_t :=
  mk_args ["QUAL"; "MQ"]%string
    ["CHROM"; "POS"; "MASK"; "REF"; "ALT"; "QUAL"; "MQ"]%string
    [-1; -1; -1; -1; -1; 0; 1] [5; 6; 0; 0; 0; 0; 0] 2 2 7
    None 0 0 0 (1 # 10) (999 # 10) [0; 0; 0; 0; 0; 0; 0]
    0 0 EmptyString EmptyString EmptyString
    [0%Q; 0%Q; 0%Q; 0%Q; 0%Q; 0%Q; 0%Q] [0%Q; 0%Q; 0%Q; 0%Q; 0%Q; 0%Q; 0%Q]
    [0; 0; 0; 0; 0; 0; 0] 0 0
    som_default None 0 VCF_SNP None (parse_mask "010") 1.

(** A transition at 1:100 of the good set with QUAL = 1 and MQ = 1. *)
Definition line_1_1 : line_t :=
  mk_line "1" 100 "010" "A" "G" [Some 1%Q; Some 1%Q].

Definition scored_start (args : args_t) : scored_t := mk_scored args [] 0 0.


(** The reader state after [line_1_1] was read. *)
Definition args_two_read : args_t :=
  match annots_reader_next args_two line_1_1 with
  | Ok a => a
  | Err _ => args_two
  end.

(** A rational stand-in for [exp] on the arguments [q <= 0] that the
    training step gives it: 1 at 0, positive, increasing. *)
Definition exp_stub (q : Q) : Q := (1 / (1 - q))%Q.

(** A generator whose every value is [r]. *)
Definition random_const (r : Z) : Z -> nat -> Z := fun _ _ => r.

(** Two maps of 2 x 2 cells with one weight per cell before any training
    step: the prototypes of the first map are all 0, the first prototype of
    the second map is 1. *)
Definition som_fresh_two : som_t :=
  mk_som 2 2 1 8 [0; 0]
    [0%Q; 0%Q; 0%Q; 0%Q; 1%Q; 0%Q; 0%Q; 0%Q]
    [0%Q; 0%Q; 0%Q; 0%Q; 0%Q; 0%Q; 0%Q; 0%Q]
    (1 # 10) (2 # 10).

(** Two rows of the good set with QUAL = 5 and QUAL = 7. *)
Definition line_qual_5 : line_t := mk_line "1" 100 "010" "A" "G" [Some 5%Q].
Definition line_qual_7 : line_t := mk_line "1" 200 "010" "A" "G" [Some 7%Q].

(** The state of the sampling loop on entry, for reservoirs of the
    capacities [fixed_max] and [learn_max]. *)
Definition res_start (args : args_t) (fixed_max learn_max : Z) (g : rng_t)
    : res_t :=
  mk_res args
    (repeat 0%Q (Z.to_nat (fixed_max * nann_som args)))
    (repeat 0%Q (Z.to_nat (learn_max * nann_som args)))
    0 0 g.

(** The state of the sampling loop with a full fixed reservoir of three
    slots holding 5, 6 and 7, positioned on a good row with QUAL = 9. *)
Definition res_full_3 : res_t :=
  mk_res
    (match annots_reader_next args_qual
             (mk_line "1" 300 "010" "A" "G" [Some 9%Q]) with
     | Ok a => a
     | Err _ => args_qual
     end)
    [5%Q; 6%Q; 7%Q] [] 3 0 (srandom 1).

(** [args_qual] after [init_dists] found 10 good sites, with the option
    [-n 100,0.3]. *)
Definition args_budget : args_t :=
  mk_args (names args_qual) (colnames args_qual) (col2names args_qual)
    (ann2cols args_qual) 1 1 6 None 10 50 1 (1 # 10) (999 # 10)
    (ignore args_qual) 0 0 EmptyString EmptyString EmptyString
    (vals args_qual) (raw_vals args_qual) (missing args_qual) 0 0
    (mk_som 1 2 0 100 [] [] [] (1 # 10) (2 # 10)) None (3 # 10) VCF_SNP None
    (parse_mask "010") 1.

(* ------------------------------------------------------------------ *)
(** ** Mask strings: the leading run of binary digits *)

(** The number of characters ['0'] or ['1'] at the head of [str], the part
    of the MASK column that [str_mask_set] looks at. *)
Fixpoint binary_run (str : string) : nat :=
  match str with
  | EmptyString => O
  | String ch rest =>
      if Ascii.eqb ch "0" || Ascii.eqb ch "1" then S (binary_run rest) else O
  end.

(** The character at position [j] is ['1']. *)
Definition is_one_at (str : string) (j : nat) : bool :=
  match String.get j str with
  | Some ch => Ascii.eqb ch "1"
  | None => false
  end.

(* ------------------------------------------------------------------ *)
(** ** The state of the reservoirs *)

(** The counters of the two reservoirs are within the capacities and the
    buffers have the lengths [lf] and [ll]. *)
Definition within_capacity (fixed_max learn_max : Z) (lf ll : nat)
    (st : res_t) : Prop :=
  0 <= r_nfixed st <= fixed_max
  /\ 0 <= r_nlearn st <= learn_max
  /\ List.length (r_fixed st) = lf
  /\ List.length (r_learn st) = ll.

(* ------------------------------------------------------------------ *)
(** ** The predicates of a filter set in the order of their bits *)

(** [0, 1, ..., n-1] *)
Definition zrange (n : Z) : list Z := map Z.of_nat (seq 0 (Z.to_nat n)).

(** The predicate [f] on annotation [i] fails on [vec]: the comparison of
    its operator does not hold. *)
Definition filter_fails (vec : list Q) (i : Z) (f : filter_t) : bool :=
  let v := rd 0%Q vec i in
  if f_type f =? FLT_BE then Qltb v (f_value f)
  else if f_type f =? FLT_BT then Qle_bool v (f_value f)
  else if f_type f =? FLT_EQ then negb (Qeq_bool v (f_value f))
  else if f_type f =? FLT_LT then Qle_bool (f_value f) v
  else if f_type f =? FLT_LE then Qltb (f_value f) v
  else false.

(** The predicates of the annotations [0 .. nann-1], each with its
    annotation, annotation by annotation. *)
Definition flat_filters (flt : filters_t) : list (Z * filter_t) :=
  flat_map
    (fun i =>
       map (fun j => (i, rd null_filter (rd [] (filt flt) i) j))
         (zrange (rd 0 (nfilt flt) i)))
    (zrange (f_nann flt)).

(** The predicate numbered [k] fails on [vec]. *)
Definition kth_fails (flt : filters_t) (vec : list Q) (k : nat) : bool :=
  match nth_error (flat_filters flt) k with
  | Some (i, f) => filter_fails vec i f
  | None => false
  end.

(** The filter set of the expression [QUAL>=5 & MQ<30] on the table of
    [args_two]. *)
Definition flt_qual_mq : filters_t :=
  match init_filters scan_decimal args_two "QUAL>=5 & MQ<30" 0 with
  | Ok (_, flt) => flt
  | Err _ => mk_filters [] 0 0 [] []
  end.

(* ------------------------------------------------------------------ *)
(** ** Text without a comparison *)

(** No character of [str] is [<], [>] or [=]. *)
Fixpoint no_cmp_char (str : string) : bool :=
  match str with
  | EmptyString => true
  | String ch rest => negb (is_cmp_char ch) && no_cmp_char rest
  end.

(** The filter set that [init_filters] starts from. *)
Definition no_filters (args : args_t) : filters_t :=
  mk_filters (repeat 0 (Z.to_nat (ncols args - NFIXED))) (nann args) 0
    (repeat [] (Z.to_nat (ncols args - NFIXED))) [].

(* ------------------------------------------------------------------ *)
(** ** Lists of names and the columns of the table ([init_annots]) *)

(** The loop of [split_list]: [cur] is the text between [p] and [t]. *)
Fixpoint split_list_from (str : string) (delim : ascii) (cur : string)
    : list string :=
  match str with
  | EmptyString => [cur]
  | String ch rest =>
      if Ascii.eqb ch delim
      then cur :: split_list_from rest delim EmptyString
      else split_list_from rest delim (cur ++ String ch EmptyString)
  end.

(** [split_list(str, delim, &n)]: the items, [n] being their number. *)
Definition split_list (str : string) (delim : ascii) : list string :=
  split_list_from str delim EmptyString.

(** The number of characters [delim] in [str]. *)
Fixpoint count_char (delim : ascii) (str : string) : nat :=
  match str with
  | EmptyString => O
  | String ch rest =>
      if Ascii.eqb ch delim then S (count_char delim rest)
      else count_char delim rest
  end.

(** [str] holds the character [delim]. *)
Definition has_char (delim : ascii) (str : string) : bool :=
  negb (Nat.eqb (count_char delim str) 0).

Inductive annots_error : Type :=
| Ann_missing_header                 (* "Missing header line" *)
| Ann_version_mismatch               (* "Version mismatch?" *)
| Ann_too_many_columns               (* "Fixme: Too many columns" *)
| Ann_assert                         (* assert( *p ) on a column without ']' *)
| Ann_duplicate_column (name : string)  (* "duplicate column names" *)
| Ann_not_in_file (name : string)    (* "The requested annotation ... not in" *)
| Ann_given_twice (name : string).   (* "... given multiple times?" *)

Definition header_prefix : string :=
  ("# [1]CHROM" ++ tab ++ "[2]POS" ++ tab ++ "[3]MASK" ++ tab ++ "[4]REF"
   ++ tab ++ "[5]ALT")%string.

(** [while ( *p && *p!=']' ) p++; assert( *p ); strdup(p+1)] *)
Fixpoint after_bracket (s : string) : option string :=
  match s with
  | EmptyString => None
  | String ch rest =>
      if Ascii.eqb ch "]" then Some rest else after_bracket rest
  end.

Fixpoint normalize_names (cols : list string) : option (list string) :=
  match cols with
  | [] => Some []
  | x :: rest =>
      match after_bracket x with
      | None => None
      | Some name =>
          match normalize_names rest with
          | None => None
          | Some names => Some (name :: names)
          end
      end
  end.

(** The check that the column names are unique: the name of the first
    column [i] that equals a column [j < i]; [seen] holds the columns
    before [rest]. *)
Fixpoint first_duplicate (seen rest : list string) : option string :=
  match rest with
  | [] => None
  | x :: tl =>
      if existsb (String.eqb x) seen then Some x
      else first_duplicate (seen ++ [x]) tl
  end.

Record colmap_t : Type := mk_colmap {
  cm_col2names : list Z;
  cm_ann2cols : list Z;
  cm_ignore : list Z
}.

(** The loop over the requested annotations: [i] is the index of the head
    of [requested]. *)
Fixpoint map_requested (ncols : Z) (cols : list string)
    (requested : list string) (i : Z) (m : colmap_t)
    : annots_error + colmap_t :=
  match requested with
  | [] => inr m
  | name :: rest =>
      match find_col (Z.to_nat (ncols - NFIXED)) NFIXED cols name with
      | None => inl (Ann_not_in_file name)
      | Some j =>
          if negb (rd 0 (cm_col2names m) j =? -1)
          then inl (Ann_given_twice name)
          else
            map_requested ncols cols rest (i + 1)
              (mk_colmap (wr (cm_col2names m) j i)
                 (wr (cm_ann2cols m) i j)
                 (wr (cm_ignore m) j 0))
      end
  end.

(** The loop over all data columns when no annotation was requested. *)
Definition map_all (ncols : Z) (cols : list string)
    (st : list string * colmap_t) : list string * colmap_t :=
  loop (Z.to_nat (ncols - NFIXED)) NFIXED
    (fun i st =>
       let m := snd st in
       (wr (fst st) (i - NFIXED) (rd EmptyString cols i),
        mk_colmap (wr (cm_col2names m) i (i - NFIXED))
          (wr (cm_ann2cols m) (i - NFIXED) i)
          (wr (cm_ignore m) i 0)))
    st.

Definition set_columns (args : args_t) (names' cols : list string)
    (m : colmap_t) (nann' ncols' : Z) : args_t :=
  let n := Z.to_nat ncols' in
  mk_args names' cols (cm_col2names m) (cm_ann2cols m)
    nann' nann' ncols' (dists args) (a_ngood args)
    (a_nall args) (scale args) (lo_pctl args) (hi_pctl args) (cm_ignore m)
    (pos args) (mask args) (chr args) (ref args) (alt args)
    (repeat 0%Q n) (repeat 0%Q n) (repeat 0 n) (nset args) (nset_mask args)
    (som args) (filt_learn args) (nt_learn_frac args) (filt_type args)
    (indel_ctx args) (good_mask args) (rand_seed args).

(** [init_annots] on the header line of the table, up to the call of
    [init_dists]; [annot_str] is the list given with [-a], if any. The
    arrays that the source allocates without a value hold zeros. *)
Definition init_annots (args : args_t) (header : string)
    (annot_str : option string) : annots_error + args_t :=
  if negb (Ascii.eqb (char0 header) "#") then inl Ann_missing_header
  else if negb (String.prefix header_prefix header)
  then inl Ann_version_mismatch
  else
    let raw := split_list header (ascii_of_nat 9) in
    let ncols' := Z.of_nat (List.length raw) in
    if 8 * 4 - 1 <=? ncols' then inl Ann_too_many_columns
    else
      match normalize_names raw with
      | None => inl Ann_assert
      | Some cols =>
          match first_duplicate [] cols with
          | Some name => inl (Ann_duplicate_column name)
          | None =>
              let n := Z.to_nat ncols' in
              let m0 :=
                mk_colmap (repeat (-1) n) (repeat 0 n)
                  (for_ NFIXED (fun i ign => wr ign i 0) (repeat 1 n)) in
              match annot_str with
              | None =>
                  let nann' := ncols' - NFIXED in
                  let (names', m) :=
                    map_all ncols' cols
                      (repeat EmptyString (Z.to_nat nann'), m0) in
                  inr (set_columns args names' cols m nann' ncols')
              | Some str =>
                  let requested := split_list str "," in
                  match map_requested ncols' cols requested 0 m0 with
                  | inl e => inl e
                  | inr m =>
                      inr (set_columns args requested cols m
                             (Z.of_nat (List.length requested)) ncols')
                  end
              end
          end
      end.

(** The header of the table of [args_two]. *)
Definition header_two : string :=
  (header_prefix ++ tab ++ "[6]QUAL" ++ tab ++ "[7]MQ" ++ tab ++ "[8]DP")%string.

(** The number of columns that no annotation is mapped to. *)
Definition free_columns (c2n : list Z) : Z :=
  Z.of_nat (count_occ Z.eq_dec c2n (-1)).

(** The two maps between the annotations and the columns of the table are
    inverse to each other: annotation [i] is read from the data column
    [a2c[i]], which bears its name, is not ignored and maps back to [i];
    a column maps to no annotation ([-1]) or to the one that is read from
    it; a data column that maps to none is ignored, the fixed columns map
    to none and are not ignored; and [nann] columns are taken. *)
Definition mapped (ncols' nann' : Z) (cols names' : list string)
    (c2n a2c ign : list Z) : Prop :=
  Z.of_nat (List.length c2n) = ncols' /\
  Z.of_nat (List.length a2c) = ncols' /\
  Z.of_nat (List.length ign) = ncols' /\
  0 <= nann' /\
  (forall i, 0 <= i < nann' ->
     NFIXED <= rd 0 a2c i < ncols' /\
     rd EmptyString cols (rd 0 a2c i) = rd EmptyString names' i /\
     rd 0 c2n (rd 0 a2c i) = i /\
     rd 0 ign (rd 0 a2c i) = 0) /\
  (forall j, 0 <= j < ncols' ->
     rd 0 c2n j = -1 \/
     (0 <= rd 0 c2n j < nann' /\ rd 0 a2c (rd 0 c2n j) = j)) /\
  (forall j, NFIXED <= j < ncols' -> rd 0 c2n j = -1 -> rd 0 ign j = 1) /\
  (forall j, 0 <= j < NFIXED -> rd 0 c2n j = -1 /\ rd 0 ign j = 0) /\
  nann' + free_columns c2n = ncols'.

Definition columns_mapped (a : args_t) : Prop :=
  mapped (ncols a) (nann a) (colnames a) (names a)
    (col2names a) (ann2cols a) (ignore a).

(** The number of the bits [0 .. n-1] that are set in [mask]. *)
Definition count_bits (mask : Z) (n : Z) : Z :=
  Z.of_nat (List.length (filter (Z.testbit mask) (zrange n))).

(** What a row holds for annotation [i] once the line with the data fields
    [flds] was read: a field that is a finite number is stored raw and
    scaled and sets the bit [i] of the mask; a field that is [.] or not
    finite marks the annotation as missing. *)
Definition row_entry (args : args_t) (flds : list (option Q)) (i : Z)
    (vals' raw' : list Q) (missing' : list Z) (mask' : Z) : Prop :=
  match nth_error flds (Z.to_nat (rd 0 (ann2cols args) i - NFIXED)) with
  | Some (Some x) =>
      rd 0 missing' i = 0 /\ rd 0%Q raw' i = x /\ Z.testbit mask' i = true /\
      (scale args = 0 \/ dists args = None -> rd 0%Q vals' i = x) /\
      (scale args <> 0 -> dists args <> None ->
       (0 <= rd 0%Q vals' i <= 1)%Q)
  | Some None => rd 0 missing' i = 1 /\ Z.testbit mask' i = false
  | None => False
  end.

(** The reader after [init_annots] on the header [header_two] with the
    annotations MQ and QUAL requested, in this order. *)
Definition args_mq_qual : args_t :=
  match init_annots args_qual header_two (Some "MQ,QUAL"%string) with
  | inr a => a
  | inl _ => args_qual
  end.

(** A line with QUAL = 5, MQ = 40 and DP = 3. *)
Definition line_mq_40 : line_t :=
  mk_line "1" 100 "010" "A" "G" [Some 5%Q; Some 40%Q; Some 3%Q].

(** The reader is ready to read rows: the column maps are inverse to each
    other and [names] holds the [nann] names. *)
Definition reader_ready (a : args_t) : Prop :=
  columns_mapped a /\ Z.of_nat (List.length (names a)) = nann a.

(** The reader [a'] has the annotations of [a], in the same places, and
    possibly more after them. *)
Definition annots_kept (a a' : args_t) : Prop :=
  nann_som a' = nann_som a /\ nann a <= nann a' /\
  forall i, 0 <= i < nann a ->
    rd EmptyString (names a') i = rd EmptyString (names a) i /\
    rd 0 (ann2cols a') i = rd 0 (ann2cols a) i.

(** The state of the column loop of [annots_reader_next] before the
    column [icol]: the arrays have kept their lengths, the annotations of
    the columns before [icol] are read, the bits of the others are clear,
    and [nset] counts the bits that are set. *)
Definition row_upto (args : args_t) (flds : list (option Q)) (icol : Z)
    (a : reader_acc) : Prop :=
  List.length (ra_vals a) = List.length (vals args) /\
  List.length (ra_raw a) = List.length (raw_vals args) /\
  List.length (ra_missing a) = List.length (missing args) /\
  (forall i, 0 <= i < nann args -> rd 0 (ann2cols args) i < icol ->
     row_entry args flds i (ra_vals a) (ra_raw a) (ra_missing a) (ra_mask a)) /\
  (forall i, 0 <= i < nann args -> icol <= rd 0 (ann2cols args) i ->
     Z.testbit (ra_mask a) i = false) /\
  ra_nset a = count_bits (ra_mask a) (nann args).

(** What the comparison written [op] says of the numbers [a] and [b], in
    this order. *)
Definition cmp_holds (op : string) (a b : Q) : bool :=
  if String.eqb op "<" then Qltb a b
  else if String.eqb op "<=" then Qle_bool a b
  else if String.eqb op ">" then Qltb b a
  else if String.eqb op ">=" then Qle_bool b a
  else Qeq_bool a b.

(* ------------------------------------------------------------------ *)
(** ** The statistics of a column in words *)

(** The raw values that the reader gave for an annotation, without the
    rows in which it marked the value as missing, each with the mask of
    its row, in the order of the table. *)
Definition present (entries : list (option Q * Z)) : list (Q * Z) :=
  flat_map
    (fun e => match fst e with Some x => [(x, snd e)] | None => [] end)
    entries.

(** The present values of the rows of the good set. *)
Definition present_good (entries : list (option Q * Z)) : list (Q * Z) :=
  filter (fun p => IS_GOOD (snd p)) (present entries).

(** [lo] and [hi] are values of [l] that bound every value of [l]. *)
Definition is_min_max (l : list (Q * Z)) (lo hi : Q) : Prop :=
  (forall p, In p l -> (lo <= fst p <= hi)%Q) /\
  (l <> [] -> In lo (map fst l) /\ In hi (map fst l)).

(** The values of [vs] do not decrease. *)
Definition ascending (vs : list Q) : Prop :=
  forall i j, 0 <= i -> i <= j -> j < Z.of_nat (List.length vs) ->
    (rd 0%Q vs i <= rd 0%Q vs j)%Q.

(** A column of three rows: 1 in a good row, a missing value, 3 in a row
    that is not good. *)
Definition column_three : list (option Q * Z) :=
  [(Some 1%Q, 2); (None, 2); (Some 3%Q, 1)].

(** The sum of the clocks of the maps. *)
Definition sum_Z (l : list Z) : Z := fold_right Z.add 0 l.

(** A table of four complete rows of the good set for the reader
    [args_budget]. *)
Definition rows_budget : list line_t :=
  [line_qual_5; line_qual_7; line_qual_5; line_qual_7].

(* ------------------------------------------------------------------ *)
(** ** The evaluation loop of [eval_filters] *)

(** The quotient of two counts as a [double]: finite, infinite ([n/0]) or
    not a number ([0/0]). *)
Inductive metric_t : Type :=
| M_fin (q : Q)
| M_inf
| M_nan.

(** [(double)a/b] for counts [a] and [b] that are not negative. *)
Definition ratio (a b : Z) : metric_t :=
  if b =? 0 then (if a =? 0 then M_nan else M_inf)
  else M_fin (of_int a / of_int b).

(** [prev_metric==-1] *)
Definition is_unset (prev : metric_t) : bool :=
  match prev with
  | M_fin p => Qeq_bool p (-1)
  | _ => false
  end.

(** [(double)nall_read/nall < 0.1] for [nall_read >= 1]. For counts that
    fit an [int] the quotient is away from 1/10 by at least [1/(10*nall)]
    unless it is 1/10, so the doubles compare as the exact numbers do; a
    quotient by 0 is infinite or not a number and not below. *)
Definition below_tenth (nall_read nall : Z) : bool :=
  if nall =? 0 then false
  else Qltb (of_int nall_read / of_int nall) (1 # 10).

(** A line that [ks_getline] reads from the pipe, as the loop parses it:
    whether the line starts with [#], [atof] of the line, and [strtol] at
    the first and at the second tab of [args->str] once the line is
    appended to it. A line behind which [args->str] has no two tabs is a
    fatal error and is not a line of the model; an empty line ends the
    loop like the end of the file. The classes that the scoring loop
    writes are 0, 1 and 2, and the header of the file reads as class 0
    and mask 0. *)
Record sorted_line : Type := mk_sline {
  sl_hash : bool;
  sl_dist : xdouble;
  sl_class : Z;
  sl_mask : Z
}.

(** A line of the table that the evaluation writes. *)
Record eval_row : Type := mk_erow {
  o_metric : metric_t;
  o_nall : Z;
  o_sens : Q;
  o_novel : metric_t;
  o_dist : xdouble
}.

Record eval_t : Type := mk_eval {
  ev_ngood_read : Z;
  ev_nall_read : Z;
  ev_nclass : list Z;
  ev_nclass_novel : list Z;
  ev_prev : metric_t;
  ev_out : list eval_row
}.

(** The segregating metric of the counts [nclass]. *)
Definition class_metric (ft : variant_type) (nclass : list Z) : metric_t :=
  match ft with
  | VCF_SNP => ratio (rd 0 nclass 1) (rd 0 nclass 0)
  | _ => ratio (rd 0 nclass 1) (rd 0 nclass 1 + rd 0 nclass 0)
  end.

(** Every two neighbours of [l] are related by [R]. *)
Fixpoint adjacent {A} (R : A -> A -> Prop) (l : list A) : Prop :=
  match l with
  | a :: tl =>
      match tl with
      | b :: _ => R a b /\ adjacent R tl
      | [] => True
      end
  | [] => True
  end.

Section Evaluation.

(** [fabs(prev_metric - metric) > metric_th] with [metric_th = 0.005], as
    the comparison of the two doubles decides it. The doubles are the
    quotients of counts rounded, so the test is a function of the
    quotients; it is not the comparison of the exact difference with
    5/1000 (1 and 199/200 pass it). *)
Variable differs : metric_t -> metric_t -> bool.

(** The body of the [while ( ks_getline(fp, &args->str) )] loop for the
    line [ln]. [ks_getline] appends to [args->str], which the loop empties
    after each line but which holds the command of the pipe when the loop
    is entered: the first line is parsed behind that command. The command
    starts with [gunzip], so the first line is never skipped as a comment
    and its score is read as 0; its class and mask are read at the tabs of
    the command followed by the line. [first] tells that [ln] is the first
    line. *)
Definition eval_step (ft : variant_type) (ngood nall : Z) (first : bool)
    (st : eval_t) (ln : sorted_line) : eval_t :=
  if negb first && sl_hash ln then st
  else
    let dist := if first then Fin 0 else sl_dist ln in
    let class := sl_class ln in
    let nall_read := ev_nall_read st + 1 in
    let nclass := wr (ev_nclass st) class (rd 0 (ev_nclass st) class + 1) in
    let good := negb (Z.land (sl_mask ln) 1 =? 0) in
    let ngood_read :=
      if good then ev_ngood_read st + 1 else ev_ngood_read st in
    let nclass_novel :=
      if good then ev_nclass_novel st
      else if negb (ngood =? 0)
      then wr (ev_nclass_novel st) class
             (rd 0 (ev_nclass_novel st) class + 1)
      else ev_nclass_novel st in
    if below_tenth nall_read nall
    then mk_eval ngood_read nall_read nclass nclass_novel
           (ev_prev st) (ev_out st)
    else
      let metric := class_metric ft nclass in
      if is_unset (ev_prev st) || differs (ev_prev st) metric then
        let metric_novel :=
          if rd 0 nclass_novel 0 =? 0 then M_fin 0
          else class_metric ft nclass_novel in
        let sens :=
          if negb (ngood =? 0)
          then (100 * of_int ngood_read / of_int ngood)%Q else 0%Q in
        mk_eval ngood_read nall_read nclass nclass_novel metric
          (ev_out st ++ [mk_erow metric nall_read sens metric_novel dist])
      else
        mk_eval ngood_read nall_read nclass nclass_novel
          (ev_prev st) (ev_out st).

(** The evaluation loop over the lines of the sorted sites; [ngood] and
    [nall] are the counts of the scoring loop. *)
Definition eval_rows (ft : variant_type) (ngood nall : Z)
    (lines : list sorted_line) : eval_t :=
  let st0 := mk_eval 0 0 [0; 0; 0] [0; 0; 0] (M_fin (-1)) [] in
  match lines with
  | [] => st0
  | ln :: rest =>
      fold_left (eval_step ft ngood nall false) rest
        (eval_step ft ngood nall true st0 ln)
  end.

(** The state of the evaluation loop after some lines, for the count
    [nall] of the scored sites: the rows written so far came at growing
    numbers of lines read, none before a tenth of the sites, each after
    the test of the metrics held, and [prev_metric] is the metric of the
    last row. *)
Definition eval_invariant (nall : Z) (st : eval_t) : Prop :=
  0 <= ev_nall_read st /\
  (forall i, 0 <= rd 0 (ev_nclass st) i) /\
  Forall (fun r => 1 <= o_nall r <= ev_nall_read st /\
                   below_tenth (o_nall r) nall = false) (ev_out st) /\
  adjacent (fun a b => o_nall a < o_nall b) (ev_out st) /\
  adjacent (fun a b => differs (o_metric a) (o_metric b) = true)
    (ev_out st) /\
  match ev_out st with
  | [] => ev_prev st = M_fin (-1) /\
          (ev_nall_read st = 0 \/
           below_tenth (ev_nall_read st) nall = true)
  | r :: rest =>
      ev_prev st = o_metric (last rest r) /\ is_unset (ev_prev st) = false
  end.

End Evaluation.

(** The lines that the loop counts: the first line, and of the others
    those that do not start with [#]. *)
Definition counted_lines (lines : list sorted_line) : list sorted_line :=
  match lines with
  | [] => []
  | ln :: rest => ln :: filter (fun l => negb (sl_hash l)) rest
  end.

(** The header of the sites file, which the sort puts first, and four
    sites: three transitions and a transversion. *)
Definition sites_four : list sorted_line :=
  [mk_sline true (Fin 0) 0 0;
   mk_sline false (Fin 0) 1 1;
   mk_sline false (Fin (1 # 10)) 0 1;
   mk_sline false (Fin (2 # 10)) 1 0;
   mk_sline false (Fin (3 # 10)) 1 1].

(** The test of the metrics on exact quotients, for examples. *)
Definition differs_exact (prev metric : metric_t) : bool :=
  match prev, metric with
  | M_fin p, M_fin q => Qltb (5 # 1000) (Qabs (p - q))
  | M_fin _, M_inf => true
  | M_inf, M_fin _ => true
  | _, _ => false
  end.

(* ------------------------------------------------------------------ *)
(** ** The configured budget *)



(* ------------------------------------------------------------------ *)
(** ** The table reader on the text of a line

    A pointer into the line is the text from the pointer to the end of
    the line. *)

Definition tab_char : ascii := ascii_of_nat 9.
Definition newline_char : ascii := ascii_of_nat 10.

(** [column_next(start, delim)]: the pointer to the first [delim] from
    [start] on, or to the end of the text. *)
Fixpoint column_next (start : string) (delim : ascii) : string :=
  match start with
  | EmptyString => EmptyString
  | String ch rest =>
      if Ascii.eqb ch delim then start else column_next rest delim
  end.

(** The text at [start] once [*t = 0] is written at
    [t = column_next(start, delim)]. *)
Fixpoint column_text (start : string) (delim : ascii) : string :=
  match start with
  | EmptyString => EmptyString
  | String ch rest =>
      if Ascii.eqb ch delim then EmptyString
      else String ch (column_text rest delim)
  end.

(** [t+1], for a pointer that is not at the end of the text. *)
Definition next_char (t : string) : string :=
  match t with
  | EmptyString => EmptyString
  | String _ rest => rest
  end.

(** [!*t] *)
Definition at_end (t : string) : bool :=
  match t with
  | EmptyString => true
  | String _ _ => false
  end.

(** [t[0]=='.' && (t[1]=='\t' || t[1]=='\n' || !t[1])] *)
Definition field_is_missing (t : string) : bool :=
  match t with
  | EmptyString => false
  | String c0 rest =>
      Ascii.eqb c0 "." &&
      match rest with
      | EmptyString => true
      | String c1 _ => Ascii.eqb c1 tab_char || Ascii.eqb c1 newline_char
      end
  end.

Section ReaderText.

(** [strtol(t, NULL, 10)] *)
Variable strtol : string -> Z.

(** [sscanf(t, "%le", &x)]: [None] when nothing is converted, [Some None]
    for a number that is not finite, else the number. *)
Variable sscanf_le : string -> option (option Q).

(** What the column loop reads with [t] at the text of a column that is
    not ignored: [None] is the fatal error of a field that does not
    parse, [Some None] a missing value. *)
Definition field_read (t : string) : option (option Q) :=
  if field_is_missing t then Some None else sscanf_le t.

(** The body of the column loop of [annots_reader_next] for the column
    [icol], with the pointer [t] as the loop has it on entry. The loop
    steps over one character before it looks at a column. *)
Definition reader_column_text (args : args_t) (icol : Z)
    (st : string * reader_acc) : result (string * reader_acc) :=
  let (t, a) := st in
  if at_end t then Err Err_truncated_line
  else if negb (rd 0 (ignore args) icol =? 0)
  then Ok (column_next (next_char t) tab_char, a)
  else
    let t := next_char t in
    if field_is_missing t then
      a' <- reader_column args icol (Some None) a ;;
      Ok (next_char t, a')
    else
      match sscanf_le t with
      | None => Err Err_data_field
      | Some v =>
          a' <- reader_column args icol (Some v) a ;;
          Ok (column_next t tab_char, a')
      end.

Fixpoint reader_columns_text (args : args_t) (n : nat) (icol : Z)
    (st : string * reader_acc) : result (string * reader_acc) :=
  match n with
  | O => Ok st
  | S m =>
      st' <- reader_column_text args icol st ;;
      reader_columns_text args m (icol + 1) st'
  end.

(** [annots_reader_next] on the text [line] of a line that
    [hts_getline] has read. After the ALT column the pointer is moved to
    the first character of the first data column, where the loop, which
    expects it on the tab before a column, takes it up. *)
Definition annots_reader_next_text (args : args_t) (line : string)
    : result args_t :=
  (* CHR *)
  let t := column_next line tab_char in
  if at_end t then Err Err_fixed_column else
  let chr' :=
    if rd 0 (ignore args) 0 =? 0 then column_text line tab_char
    else chr args in
  (* POS *)
  let t := next_char t in
  let pos' := if rd 0 (ignore args) 1 =? 0 then strtol t else pos args in
  let t := column_next t tab_char in
  if at_end t then Err Err_fixed_column else
  (* MASK *)
  let mask' :=
    if rd 0 (ignore args) 2 =? 0
    then reader_mask (good_mask args) (next_char t)
    else mask args in
  let t := column_next (next_char t) tab_char in
  if at_end t then Err Err_fixed_column else
  (* REF *)
  let ref' := column_text (next_char t) tab_char in
  let t := column_next (next_char t) tab_char in
  if at_end t then Err Err_fixed_column else
  (* ALT *)
  let alt' := column_text (next_char t) tab_char in
  let t := column_next (next_char t) tab_char in
  if at_end t then Err Err_fixed_column else
  let t := next_char t in
  st <- reader_columns_text args (Z.to_nat (ncols args - NFIXED)) NFIXED
          (t, mk_racc (vals args) (raw_vals args) (missing args) 0 0) ;;
  let a := snd st in
  Ok (mk_args (names args) (colnames args) (col2names args) (ann2cols args)
        (nann args) (nann_som args) (ncols args) (dists args) (a_ngood args)
        (a_nall args) (scale args) (lo_pctl args) (hi_pctl args) (ignore args)
        pos' mask' chr' ref' alt'
        (ra_vals a) (ra_raw a) (ra_missing a) (ra_nset a) (ra_mask a)
        (som args) (filt_learn args) (nt_learn_frac args) (filt_type args)
        (indel_ctx args) (good_mask args) (rand_seed args)).

(** The pointer of the column loop on entry to the data column number
    [j] (from 0) of a line whose data columns hold the texts [fs]: the
    first character of the first column, the tab before any other, and
    the end of the line when the columns are used up. *)
Definition column_ptr (fs : list string) (j : nat) : string :=
  match j with
  | O => String.concat tab fs
  | S _ =>
      if (j <? List.length fs)%nat
      then String tab_char (String.concat tab (skipn j fs))
      else EmptyString
  end.

(** The text that the loop reads the data column [j] from: the first
    column from its second character on, any other from its first. *)
Definition column_read_from (fs : list string) (j : nat) : string :=
  next_char (column_ptr fs j).

(** The data columns of a line as the loop reads them. *)
Definition fields_read (fs : list string) : list (option Q) :=
  map (fun j => match field_read (column_read_from fs j) with
                | Some v => v
                | None => None
                end)
    (seq 0 (List.length fs)).

End ReaderText.

(** The text of a line with the fixed columns [chr], [pos], [mask],
    [ref], [alt] and the data columns [fs]. *)
Definition line_text (chr pos mask ref alt : string) (fs : list string)
    : string :=
  (chr ++ tab ++ pos ++ tab ++ mask ++ tab ++ ref ++ tab ++ alt ++ tab
   ++ String.concat tab fs)%string.

(** The text of a column: it holds no tab and no newline. *)
Fixpoint column_chars (s : string) : bool :=
  match s with
  | EmptyString => true
  | String ch rest =>
      negb (Ascii.eqb ch tab_char) && negb (Ascii.eqb ch newline_char)
      && column_chars rest
  end.

(** The text after a column: the end of the line, or a tab and more. *)
Definition ends_column (rest : string) : Prop :=
  rest = EmptyString \/ exists r, rest = String tab_char r.

(** Stand-ins: [strtol] on a run of digits, and [sscanf "%le"], which
    skips white space, on decimal literals. *)
Definition strtol_digits (s : string) : Z := fst (fst (scan_digits s 0 0)).

Fixpoint skip_space (s : string) : string :=
  match s with
  | EmptyString => EmptyString
  | String ch rest => if isspace ch then skip_space rest else s
  end.

Definition scan_le_decimal (s : string) : option (option Q) :=
  option_map Some (scan_decimal (skip_space s)).

(** Lines of the table of [args_mq_qual], with the columns QUAL, MQ and
    DP. *)
Definition fields_15_40_3 : list string := ["15"; "40"; "3"]%string.
Definition fields_5_40_3 : list string := ["5"; "40"; "3"]%string.

(* ================================================================== *)
(** * Properties *)

(* ------------------------------------------------------------------ *)
(** ** Arrays and loops *)

Lemma loop_invariant {St} (P : Z -> St -> Prop) (body : Z -> St -> St) :
  forall n i s,
    P i s ->
    (forall k s', i <= k < i + Z.of_nat n -> P k s' -> P (k + 1) (body k s')) ->
    P (i + Z.of_nat n) (loop n i body s).
Proof.
  induction n as [|n IH]; intros i s Hs Hstep.
  - simpl. now rewrite Z.add_0_r.
  - cbn [loop]. replace (i + Z.of_nat (S n)) with ((i + 1) + Z.of_nat n) by lia.
    apply IH.
    + apply Hstep; [lia | exact Hs].
    + intros k s' Hk. apply Hstep. lia.
Qed.

Lemma for_invariant {St} (P : Z -> St -> Prop) (body : Z -> St -> St) n s :
  0 <= n ->
  P 0 s ->
  (forall k s', 0 <= k < n -> P k s' -> P (k + 1) (body k s')) ->
  P n (for_ n body s).
Proof.
  intros Hn Hs Hstep. unfold for_.
  replace n with (0 + Z.of_nat (Z.to_nat n)) at 1 by lia.
  apply loop_invariant; [exact Hs|].
  intros k s' Hk. apply Hstep. lia.
Qed.

Lemma wr_nat_length {A} (l : list A) n v : List.length (wr_nat l n v) = List.length l.
Proof.
  revert n; induction l as [|x l IH]; intros [|n]; simpl; auto.
Qed.

Lemma wr_length {A} (l : list A) i v : List.length (wr l i v) = List.length l.
Proof.
  unfold wr. destruct (i <? 0); [reflexivity | apply wr_nat_length].
Qed.

Lemma nth_wr_nat_same {A} (d : A) l n v :
  (n < List.length l)%nat -> nth n (wr_nat l n v) d = v.
Proof.
  revert n; induction l as [|x l IH]; intros [|n] H; simpl in *;
    try lia; auto. apply IH. lia.
Qed.

Lemma nth_wr_nat_other {A} (d : A) l n m v :
  n <> m -> nth m (wr_nat l n v) d = nth m l d.
Proof.
  revert n m; induction l as [|x l IH]; intros [|n] [|m] H; simpl;
    try congruence; auto.
Qed.

Lemma rd_wr_same {A} (d : A) l i v :
  0 <= i < Z.of_nat (List.length l) -> rd d (wr l i v) i = v.
Proof.
  intros H. unfold rd, wr. destruct (i <? 0) eqn:E; [lia|].
  apply nth_wr_nat_same. lia.
Qed.

Lemma rd_wr_other {A} (d : A) l i j v :
  0 <= j -> i <> j -> rd d (wr l i v) j = rd d l j.
Proof.
  intros Hj H. unfold rd, wr. destruct (i <? 0) eqn:E; [reflexivity|].
  apply nth_wr_nat_other. lia.
Qed.

(* ------------------------------------------------------------------ *)
(** ** Goodness of a row *)

Lemma land_1_shifted i : Z.land 1 (Z.shiftl i 1) = 0.
Proof.
  rewrite Z.land_comm, Z.shiftl_mul_pow2 by lia.
  change 1 with (Z.ones 1) at 2. rewrite Z.land_ones by lia.
  change (2 ^ 1) with 2. now rewrite Z.mod_mul by lia.
Qed.

Lemma str_mask_set_from_bit0 str : forall i, str_mask_set_from str i 1 = 0.
Proof.
  induction str as [|ch rest IH]; intros i; cbn [str_mask_set_from];
    [reflexivity|].
  rewrite land_1_shifted, Z.eqb_refl. cbn [negb]. rewrite andb_false_r.
  destruct (_ || _); auto.
Qed.

(** C2 (defect of the code). A row is to be good exactly when a position
    selected by [good_mask] carries a ['1']. [str_mask_set] tests
    [mask & i<<1] where [parse_mask] stores position [i] as [1<<i]:
    with the good mask ["100"], which selects position 0, no row is ever
    good, not even the row whose mask is ["100"]; and with the good mask
    ["00010"] the row ["00001"], whose only set position is not selected,
    is good. *)
Theorem str_mask_set_tests_shifted_index :
  (forall maskcol, reader_mask (parse_mask "100") maskcol = 1)
  /\ selected_bit_set "100" (parse_mask "100") = true
  /\ reader_mask (parse_mask "00010") "00001" = 2
  /\ selected_bit_set "00001" (parse_mask "00010") = false.
Proof.
  repeat split; try reflexivity.
  intros maskcol. change (parse_mask "100") with 1.
  unfold reader_mask, str_mask_set. cbn [Z.eqb].
  now rewrite str_mask_set_from_bit0.
Qed.

(* ------------------------------------------------------------------ *)
(** ** The limit on the number of filters *)

Lemma init_filters_at_most_7 sscanf_le args str scale args' filts :
  init_filters sscanf_le args str scale = Ok (args', filts) ->
  ntot filts <= 7.
Proof.
  unfold init_filters.
  destruct (init_filters_loop _ _ _ _ _ _ _) as [[a f]|e]; cbn [bind];
    [|discriminate].
  destruct (sizeof_uint64_t - 1 <? ntot f) eqn:E; [discriminate|].
  intros H. injection H as _ Hf. subst f.
  apply Z.ltb_ge in E. exact E.
Qed.

Lemma span_rest_length p e a b :
  span p e = (a, b) -> (String.length b <= String.length e)%nat.
Proof.
  revert a b. induction e as [|ch e IH]; intros a b H; cbn [span] in H.
  - injection H as _ <-. auto.
  - destruct (p ch).
    + destruct (span p e) as [a' b'] eqn:E. injection H as _ <-.
      specialize (IH a' b' eq_refl). cbn [String.length]. lia.
    + injection H as _ <-. auto.
Qed.

Ltac break_match_hyp H :=
  match type of H with
  | context [match ?x with _ => _ end] => destruct x eqn:?
  end.

Lemma init_filters_term_advances sscanf_le scale left ch e1 args filts e3 a f :
  is_cmp_char ch = true ->
  init_filters_term sscanf_le scale left (String ch e1) args filts
  = Ok (e3, a, f) ->
  (String.length e3 <= String.length e1)%nat.
Proof.
  intros Hch H. unfold init_filters_term in H. cbn [span] in H.
  rewrite Hch in H. destruct (span is_cmp_char e1) as [op e2] eqn:Hop.
  apply span_rest_length in Hop.
  destruct e2 as [|ch2 e2]; [discriminate|].
  destruct (span (fun ch0 => negb (Ascii.eqb ch0 "&")) (String ch2 e2))
    as [right e3'] eqn:Hright.
  apply span_rest_length in Hright.
  assert (e3 = e3'); [|subst e3'; lia].
  unfold bind in H. repeat break_match_hyp H; try discriminate.
  all: congruence.
Qed.

Lemma bind_no_fuel {A B} (m : result A) (k : A -> result B) :
  m <> Err Err_fuel -> (forall a, k a <> Err Err_fuel) ->
  bind m k <> Err Err_fuel.
Proof.
  intros Hm Hk. destruct m as [a|e]; cbn [bind]; [apply Hk|].
  intros H. apply Hm. injection H as ->. reflexivity.
Qed.

Lemma scale_value_no_fuel dist val : scale_value dist val <> Err Err_fuel.
Proof.
  unfold scale_value. destruct (_ && _ && _); [discriminate|].
  destruct (_ && _); discriminate.
Qed.

Lemma init_extra_annot_no_fuel args annot :
  init_extra_annot args annot <> Err Err_fuel.
Proof.
  unfold init_extra_annot. destruct (find_col _ _ _ _); discriminate.
Qed.

Lemma cmp_type_no_fuel op : cmp_type op <> Err Err_fuel.
Proof.
  unfold cmp_type.
  repeat match goal with
         | |- context [if ?b then _ else _] => destruct b
         end; discriminate.
Qed.

Lemma init_filters_term_no_fuel sscanf_le scale left e args filts :
  init_filters_term sscanf_le scale left e args filts <> Err Err_fuel.
Proof.
  unfold init_filters_term.
  destruct (span is_cmp_char e) as [op e2].
  destruct e2 as [|ch2 e2]; [discriminate|].
  apply bind_no_fuel; [apply cmp_type_no_fuel|]. intros type.
  destruct (span _ (String ch2 e2)) as [right e3].
  destruct (find_side _ _ _ _ _) as [[icol swapped]|]; [|discriminate].
  apply bind_no_fuel.
  - destruct (_ =? -1); [|discriminate].
    apply bind_no_fuel; [apply init_extra_annot_no_fuel | discriminate].
  - intros [args' fnann]. destruct (sscanf_le _) as [value|]; [|discriminate].
    apply bind_no_fuel; [|discriminate].
    destruct (negb _); [|discriminate].
    destruct (dists args'); [apply scale_value_no_fuel | discriminate].
Qed.

Lemma init_filters_loop_no_fuel sscanf_le scale :
  forall fuel tok e args filts,
    (String.length e < fuel)%nat ->
    init_filters_loop sscanf_le fuel scale tok e args filts <> Err Err_fuel.
Proof.
  induction fuel as [|fuel IH]; intros tok e args filts Hlen; [lia|].
  cbn [init_filters_loop]. destruct e as [|ch e1]; [discriminate|].
  cbn [String.length] in Hlen.
  destruct (Ascii.eqb ch "&"); [apply IH; lia|].
  destruct (is_cmp_char ch) eqn:Hch; [|apply IH; lia].
  destruct (init_filters_term sscanf_le scale tok (String ch e1) args filts)
    as [[[e3 a] f]|err] eqn:Hterm; cbn [bind].
  - apply init_filters_term_advances in Hterm; [|exact Hch]. apply IH. lia.
  - intros H. injection H as ->. now apply init_filters_term_no_fuel in Hterm.
Qed.

(** The bound given to the scanning loop of [init_filters] is never used
    up: the function returns the filters or one of the errors of the
    source. *)
Lemma init_filters_fuel_suffices sscanf_le args str scale :
  init_filters sscanf_le args str scale <> Err Err_fuel.
Proof.
  unfold init_filters.
  match goal with
  | |- context [init_filters_loop ?s ?n ?sc ?tok ?e ?a ?f] =>
      pose proof (init_filters_loop_no_fuel s sc n tok e a f) as Hloop;
      destruct (init_filters_loop s n sc tok e a f) as [[a' f']|err]
  end; cbn [bind].
  - destruct (_ <? _); discriminate.
  - intros H. injection H as ->. apply Hloop; [lia | reflexivity].
Qed.

(** C3 (defect of the code). An expression of at most 63 predicates is to
    parse. [init_filters] compares [ntot] with [sizeof(uint64_t)-1], the
    number of bytes less one: 7 predicates parse, and the 8 predicates of
    [expr_8_terms] are refused as too many. *)
Theorem init_filters_refuses_8_terms :
  (exists args' filts,
      init_filters scan_decimal args_qual expr_7_terms 0 = Ok (args', filts)
      /\ ntot filts = 7)
  /\ init_filters scan_decimal args_qual expr_8_terms 0
     = Err Err_too_many_filters.
Proof.
  split.
  - eexists; eexists; split; [vm_compute; reflexivity | reflexivity].
  - vm_compute. reflexivity.
Qed.

(* ------------------------------------------------------------------ *)
(** ** The class of an indel *)

Section VariantClassProperties.

Variable bcf_acgt2int : ascii -> Z.
Variable indel_ctx_type :
  indel_ctx_t -> string -> Z -> string -> string -> Z * Z * Z.

(** C4 (as amended). For an indel whose context is (ndel, nrep, nlen):
    the class is 2 when [nlen <= 1] or [nrep <= 1]; otherwise it is 1 when
    [|ndel| mod nlen = 0], which includes [ndel = 0], and 0 when not. *)
Theorem determine_variant_class_indel args ctx ndel nrep nlen :
  filt_type args = VCF_INDEL ->
  indel_ctx args = Some ctx ->
  indel_ctx_type ctx (chr args) (pos args) (ref args) (alt args)
  = (ndel, nrep, nlen) ->
  determine_variant_class bcf_acgt2int indel_ctx_type args
  = if (nlen <=? 1) || (nrep <=? 1) then 2
    else if Z.abs ndel mod nlen =? 0 then 1 else 0.
Proof.
  intros Ht Hc Hi. unfold determine_variant_class.
  rewrite Ht, Hc, Hi.
  destruct ((nlen <=? 1) || (nrep <=? 1)) eqn:E; [reflexivity|].
  apply orb_false_iff in E. destruct E as [E _]. apply Z.leb_gt in E.
  rewrite Z.rem_mod_nonneg by lia.
  destruct (Z.abs ndel mod nlen =? 0); reflexivity.
Qed.

End VariantClassProperties.

Lemma determine_variant_class_indel_witness :
  determine_variant_class acgt2int (ctx_const (-4) 3 2) args_indel = 1.
Proof.
  rewrite (determine_variant_class_indel acgt2int (ctx_const (-4) 3 2)
             args_indel (IndelCtx "ref.fa") (-4) 3 2);
    reflexivity.
Defined.

(** C4 as stated fails where [ndel = 0] in a repeat: the class is 1, and
    the specification's rule gives 2. *)
Lemma determine_variant_class_ndel_0 :
  determine_variant_class acgt2int (ctx_const 0 2 2) args_indel = 1
  /\ determine_variant_class acgt2int (ctx_const 0 2 2) args_indel
     <> spec_indel_class 0 2 2.
Proof.
  split; [reflexivity | discriminate].
Qed.

(* ------------------------------------------------------------------ *)
(** ** Percentiles *)

Lemma rd_app_l {A} (d : A) l l' i :
  0 <= i < Z.of_nat (List.length l) -> rd d (l ++ l') i = rd d l i.
Proof.
  intros H. unfold rd. apply app_nth1. lia.
Qed.

Lemma rd_app_last {A} (d : A) l x :
  rd d (l ++ [x]) (Z.of_nat (List.length l)) = x.
Proof.
  unfold rd. rewrite Nat2Z.id, app_nth2, Nat.sub_diag by lia. reflexivity.
Qed.

Section Percentiles.

Variables (lo hi : Q) (nall : Z).

Lemma is_scale_min_keep l x smin :
  is_scale_min lo nall l smin ->
  Qltb (pct nall (Z.of_nat (List.length l) + 1)) lo = false ->
  is_scale_min lo nall (l ++ [x]) smin.
Proof.
  intros (k & Hk & Hs & Hlo & Hafter) Hx.
  exists k. rewrite length_app, Nat2Z.inj_add. cbn [List.length Z.of_nat Pos.of_succ_nat].
  repeat split; try lia.
  - rewrite rd_app_l by lia. exact Hs.
  - exact Hlo.
  - intros k' Hk'.
    destruct (Z.eq_dec k' (Z.of_nat (List.length l) + 1)) as [->|Hne];
      [exact Hx | apply Hafter; lia].
Qed.

Lemma is_scale_min_last l x :
  l = [] \/ Qltb (pct nall (Z.of_nat (List.length l) + 1)) lo = true ->
  is_scale_min lo nall (l ++ [x]) (Fin x).
Proof.
  intros H. exists (Z.of_nat (List.length l) + 1).
  rewrite length_app, Nat2Z.inj_add. cbn [List.length Z.of_nat Pos.of_succ_nat].
  repeat split; try lia.
  - replace (Z.of_nat (List.length l) + 1 - 1) with (Z.of_nat (List.length l))
      by lia.
    now rewrite rd_app_last.
  - destruct H as [->|H]; [left; reflexivity | right; exact H].
Qed.

Lemma is_first_above_keep l x smax :
  is_first_above hi nall l smax -> is_first_above hi nall (l ++ [x]) smax.
Proof.
  intros (k & Hk & Hs & Hhi & Hbefore).
  exists k. rewrite length_app, Nat2Z.inj_add.
  repeat split; try lia; auto.
  rewrite rd_app_l by lia. exact Hs.
Qed.

Lemma is_first_above_last l x :
  none_above hi nall (Z.of_nat (List.length l)) ->
  Qltb hi (pct nall (Z.of_nat (List.length l) + 1)) = true ->
  is_first_above hi nall (l ++ [x]) (Fin x).
Proof.
  intros Hnone Hx. exists (Z.of_nat (List.length l) + 1).
  rewrite length_app, Nat2Z.inj_add. cbn [List.length Z.of_nat Pos.of_succ_nat].
  replace (Z.of_nat (List.length l) + 1 - 1) with (Z.of_nat (List.length l))
    by lia.
  repeat split; try lia; auto.
  now rewrite rd_app_last.
Qed.

Lemma none_above_next n :
  none_above hi nall n -> Qltb hi (pct nall (n + 1)) = false -> none_above hi nall (n + 1).
Proof.
  intros Hnone Hx k' Hk'.
  destruct (Z.eq_dec k' (n + 1)) as [->|Hne]; [exact Hx | apply Hnone; lia].
Qed.

Lemma pctl_scan_invariant val0 :
  forall l x,
    scan_invariant lo hi nall (l ++ [x]) x
      (fold_left (pctl_step lo hi nall) (l ++ [x])
         (mk_pctl 0 HUGE_VAL HUGE_VAL val0)).
Proof.
  induction l as [|y l IH] using rev_ind; intros x.
  - cbn [app fold_left]. unfold scan_invariant, pctl_step.
    cbn [p_count p_val p_scale_min p_scale_max is_huge orb andb List.length].
    repeat split.
    + apply (is_scale_min_last [] x). now left.
    + change (0 + 1) with 1. fold (pct nall 1).
      destruct (Qltb hi (pct nall 1)) eqn:E.
      * right. apply (is_first_above_last [] x); [|exact E].
        intros k' Hk'. cbn in Hk'. lia.
      * left. split; [reflexivity|].
        intros k' Hk'. cbn in Hk'. now replace k' with 1 by lia.
  - rewrite fold_left_app. cbn [fold_left].
    destruct (IH y) as (Hc & Hv & Hmin & Hmax).
    set (st := fold_left _ (l ++ [y]) _) in *.
    unfold scan_invariant, pctl_step.
    cbn [p_count p_val p_scale_min p_scale_max].
    rewrite Hc. fold (pct nall (Z.of_nat (List.length (l ++ [y])) + 1)).
    repeat split.
    + rewrite (length_app (l ++ [y])), Nat2Z.inj_add. reflexivity.
    + assert (is_huge (p_scale_min st) = false) as ->.
      { destruct Hmin as (k & _ & -> & _). reflexivity. }
      cbn [orb].
      destruct (Qltb (pct nall (Z.of_nat (List.length (l ++ [y])) + 1)) lo) eqn:E.
      * apply is_scale_min_last. now right.
      * now apply is_scale_min_keep.
    + destruct Hmax as [[Hh Hnone]|Hfirst].
      * rewrite Hh. cbn [is_huge andb].
        destruct (Qltb hi (pct nall (Z.of_nat (List.length (l ++ [y])) + 1))) eqn:E.
        -- right. now apply is_first_above_last.
        -- left. split; [reflexivity|].
           rewrite (length_app (l ++ [y])), Nat2Z.inj_add.
           now apply none_above_next.
      * assert (is_huge (p_scale_max st) = false) as ->.
        { destruct Hfirst as (k & _ & -> & _). reflexivity. }
        cbn [andb]. right. now apply is_first_above_keep.
Qed.

(** C5 (as amended). For a column whose sorted values are [v :: rest],
    scanned with the counter [k] from 1: [scale_min] is the value at the
    last [k] that is 1 or has [100*k/nall < lo_pctl] - the last value
    still below the low percentile, the first value when there is none;
    [scale_max] is the value at the first [k] with [100*k/nall > hi_pctl],
    and the last value when no [k] has it. *)
Theorem percentiles_scan val0 v rest :
  let vs := v :: rest in
  is_scale_min lo nall vs (fst (percentiles lo hi nall val0 vs))
  /\ (is_first_above hi nall vs (snd (percentiles lo hi nall val0 vs))
      \/ (none_above hi nall (Z.of_nat (List.length vs))
          /\ snd (percentiles lo hi nall val0 vs) = Fin (last vs 0%Q))).
Proof.
  intros vs.
  destruct (exists_last (l := vs)) as (l & x & Hl); [discriminate|].
  unfold percentiles. rewrite Hl.
  destruct (pctl_scan_invariant val0 l x) as (Hc & Hv & Hmin & Hmax).
  cbn [fst snd]. split; [exact Hmin|].
  destruct Hmax as [[Hh Hnone]|Hfirst].
  - right. split; [exact Hnone|].
    rewrite Hh, Hv, last_last. reflexivity.
  - left. assert (is_huge (p_scale_max
      (fold_left (pctl_step lo hi nall) (l ++ [x])
         (mk_pctl 0 HUGE_VAL HUGE_VAL val0))) = false) as ->.
    { destruct Hfirst as (k & _ & -> & _). reflexivity. }
    exact Hfirst.
Qed.

End Percentiles.

(** C5 as stated fails on the sorted column 1, 2, ..., 1500 with the
    percentiles of [main_vcfsom]: [100*1/1500 < 0.1], so [scale_min] is the
    value 1, and the first value at which [100*k/nall >= 0.1] is 2. *)
Lemma percentiles_scale_min_is_not_first_at_least :
  fst (percentiles (lo_pctl args_qual) (hi_pctl args_qual) 1500 0
         column_1_to_1500) = Fin 1
  /\ spec_scale_min (lo_pctl args_qual) 1500 column_1_to_1500 = Some 2%Q
  /\ ~ (1 == 2)%Q.
Proof.
  split; [vm_compute; reflexivity|].
  split; [vm_compute; reflexivity|].
  intros H. discriminate H.
Qed.

(* ------------------------------------------------------------------ *)
(** ** Normalization of the counts *)

(** C6 (defect of the code). Every map is to be divided by its own
    maximum. [som_norm] looks for the maximum with [max < som->c[i]], the
    counts of the first map, and stores [c[i]], the count of the current
    map: on [som_two_maps] the second map, whose maximum is 3, is divided
    by 1 and keeps the count 3. *)
Theorem som_norm_divides_by_wrong_maximum :
  map Qred (c (som_norm som_two_maps))
  = [1; 1 # 2; 0; 0; 1; 3; 0; 0]%Q
  /\ ~ (rd 0%Q (c (som_norm som_two_maps)) 5 <= 1)%Q.
Proof.
  split; [vm_compute; reflexivity|].
  vm_compute. intros H. apply H. reflexivity.
Qed.

(* ------------------------------------------------------------------ *)
(** ** Nested loops and comparisons *)

Lemma for2_invariant {St} (P : Z -> St -> Prop) (body : Z -> Z -> St -> St)
    n m s :
  0 <= n -> 0 <= m ->
  P 0 s ->
  (forall i j s', 0 <= i < n -> 0 <= j < m ->
     P (i * m + j) s' -> P (i * m + j + 1) (body i j s')) ->
  P (n * m) (for_ n (fun i st => for_ m (fun j st => body i j st) st) s).
Proof.
  intros Hn Hm Hs Hstep.
  apply (for_invariant (fun i st => P (i * m) st)); [exact Hn | exact Hs |].
  intros i s' Hi Hs'.
  replace ((i + 1) * m) with (i * m + m) by lia.
  apply (for_invariant (fun j st => P (i * m + j) st)); [exact Hm | |].
  - now rewrite Z.add_0_r.
  - intros j s'' Hj Hs''. rewrite Z.add_assoc. now apply Hstep.
Qed.

Lemma Qltb_lt x y : Qltb x y = true <-> (x < y)%Q.
Proof.
  unfold Qltb. rewrite negb_true_iff. split; intros H.
  - apply Qnot_le_lt. intros Hle. apply Qle_bool_iff in Hle. congruence.
  - destruct (Qle_bool y x) eqn:E; [|reflexivity].
    apply Qle_bool_iff in E. lra.
Qed.

Lemma Qltb_ge x y : Qltb x y = false <-> (y <= x)%Q.
Proof.
  unfold Qltb. rewrite negb_false_iff. apply Qle_bool_iff.
Qed.

(* ------------------------------------------------------------------ *)
(** ** The score of a site *)

Section Nearest.

Variables (som : som_t) (vec : list Q).

Lemma is_nearest_empty a : is_nearest som vec a a HUGE_VAL.
Proof.
  split; [intros q Hq; lia | exact I].
Qed.

Lemma is_nearest_skip a b r :
  a <= b -> ~ activated som b -> is_nearest som vec a b r -> is_nearest som vec a (b + 1) r.
Proof.
  intros Hab Hb [Hle Hex]. split.
  - intros q Hq Hact. destruct (Z.eq_dec q b) as [->|Hne];
      [contradiction | apply Hle; [lia | exact Hact]].
  - destruct r as [x|]; [|exact I].
    destruct Hex as (q & Hq & Hact & Hx). exists q. repeat split; auto; lia.
Qed.

Lemma is_nearest_take a b r :
  a <= b -> activated som b -> is_nearest som vec a b r ->
  is_nearest som vec a (b + 1)
    (if lt_x (cell_dist som vec b) r then Fin (cell_dist som vec b) else r).
Proof.
  intros Hab Hb [Hle Hex].
  destruct (lt_x (cell_dist som vec b) r) eqn:E.
  - split.
    + intros q Hq Hact. destruct (Z.eq_dec q b) as [->|Hne].
      * cbn. lra.
      * assert (Hr : xle r (cell_dist som vec q)) by (apply Hle; [lia | exact Hact]).
        destruct r as [x|]; [|contradiction].
        cbn in E, Hr |- *. apply Qltb_lt in E. lra.
    + exists b. repeat split; auto; lia.
  - destruct r as [x|]; [|discriminate]. cbn in E. apply Qltb_ge in E. split.
    + intros q Hq Hact. destruct (Z.eq_dec q b) as [->|Hne];
        [exact E | apply Hle; [lia | exact Hact]].
    + destruct Hex as (q & Hq & Hact & Hx). exists q. repeat split; auto; lia.
Qed.

Lemma is_nearest_join a b d r m :
  a <= b <= d -> is_nearest som vec a b r -> is_nearest som vec b d m ->
  is_nearest som vec a d (if xgt r m then m else r).
Proof.
  intros Habd [Hler Hexr] [Hlem Hexm].
  assert (Hcase : forall q, a <= q < d -> a <= q < b \/ b <= q < d)
    by (intros; lia).
  destruct r as [x|], m as [y|]; cbn [xgt].
  - destruct (Qltb y x) eqn:E.
    + apply Qltb_lt in E. split.
      * intros q Hq Hact. destruct (Hcase q Hq) as [H1|H2].
        -- specialize (Hler q H1 Hact). cbn in Hler |- *. lra.
        -- exact (Hlem q H2 Hact).
      * destruct Hexm as (q & Hq & Hact & Hy). exists q.
        repeat split; auto; lia.
    + apply Qltb_ge in E. split.
      * intros q Hq Hact. destruct (Hcase q Hq) as [H1|H2].
        -- exact (Hler q H1 Hact).
        -- specialize (Hlem q H2 Hact). cbn in Hlem |- *. lra.
      * destruct Hexr as (q & Hq & Hact & Hx). exists q.
        repeat split; auto; lia.
  - split.
    + intros q Hq Hact. destruct (Hcase q Hq) as [H1|H2].
      * exact (Hler q H1 Hact).
      * destruct (Hlem q H2 Hact).
    + destruct Hexr as (q & Hq & Hact & Hx). exists q.
      repeat split; auto; lia.
  - split.
    + intros q Hq Hact. destruct (Hcase q Hq) as [H1|H2].
      * destruct (Hler q H1 Hact).
      * exact (Hlem q H2 Hact).
    + destruct Hexm as (q & Hq & Hact & Hy). exists q.
      repeat split; auto; lia.
  - split; [|exact I].
    intros q Hq Hact. destruct (Hcase q Hq) as [H1|H2].
    + destruct (Hler q H1 Hact).
    + destruct (Hlem q H2 Hact).
Qed.

Lemma calc_dist_map_nearest a :
  0 <= nbin som ->
  let m := calc_dist_map som vec a (a * kdim som) in
  let b := a + nbin som * nbin som in
  cd_cnt m = b /\ cd_ptr m = b * kdim som /\ is_nearest som vec a b (cd_min_dist m).
Proof.
  intros Hn m b. subst m b. unfold calc_dist_map.
  apply (for2_invariant
           (fun p st =>
              cd_cnt st = a + p /\ cd_ptr st = (a + p) * kdim som
              /\ is_nearest som vec a (a + p) (cd_min_dist st)));
    [exact Hn | exact Hn | |].
  - cbn [cd_cnt cd_ptr cd_min_dist]. rewrite Z.add_0_r.
    split; [reflexivity|]. split; [reflexivity|]. apply is_nearest_empty.
  - intros i j st Hi Hj (Hc & Hp & Hnear).
    cbn [cd_cnt cd_ptr cd_min_dist]. rewrite Hc, Hp.
    assert (Hpos : 0 <= i * nbin som + j) by nia.
    split; [lia|]. split; [lia|].
    rewrite Z.add_assoc.
    destruct (Qle_bool (th som) (rd 0%Q (c som) (a + (i * nbin som + j))))
      eqn:E.
    + apply (is_nearest_take a (a + (i * nbin som + j))); [lia | exact E | exact Hnear].
    + apply is_nearest_skip; [lia | | exact Hnear].
      unfold activated. congruence.
Qed.

Lemma som_calc_dist_nearest :
  0 <= nsom som -> 0 <= nbin som ->
  is_nearest som vec 0 (nsom som * (nbin som * nbin som)) (som_calc_dist som vec).
Proof.
  intros Hs Hn. unfold som_calc_dist.
  set (n2 := nbin som * nbin som).
  assert (Hn2 : 0 <= n2) by (subst n2; nia).
  apply (for_invariant
           (fun js st =>
              cd_cnt st = js * n2 /\ cd_ptr st = js * n2 * kdim som
              /\ is_nearest som vec 0 (js * n2) (cd_min_dist st)));
    [exact Hs | |].
  - cbn [cd_cnt cd_ptr cd_min_dist].
    split; [reflexivity|]. split; [reflexivity|]. apply is_nearest_empty.
  - intros js st Hjs (Hc & Hp & Hnear).
    rewrite Hc, Hp.
    destruct (calc_dist_map_nearest (js * n2) Hn) as (Hc' & Hp' & Hnear').
    cbn [cd_cnt cd_ptr cd_min_dist]. fold n2 in Hc', Hp', Hnear'.
    replace ((js + 1) * n2) with (js * n2 + n2) by lia.
    split; [exact Hc'|]. split; [exact Hp'|].
    apply (is_nearest_join 0 (js * n2)); [nia | exact Hnear | exact Hnear'].
Qed.

End Nearest.

Section Score.

Variable bcf_acgt2int : ascii -> Z.
Variable indel_ctx_type :
  indel_ctx_t -> string -> Z -> string -> string -> Z * Z * Z.

(** C1 (as amended). For every row with all model annotations present,
    the scoring loop writes one record whose score is the value of the
    minimum-distance query divided by the number of model annotations
    [kdim]; the value of the query is the least squared Euclidean distance
    from the row's vector to the prototype of a cell whose count is at
    least the activation threshold, over the cells of all maps (and
    [HUGE_VAL] when there is no such cell). *)
Theorem score_row_emits_distance_over_kdim good_som st :
  nset (sc_args st) = nann (sc_args st) ->
  0 <= nsom good_som ->
  0 <= nbin good_som ->
  1 <= kdim good_som ->
  let vec := vals (sc_args st) in
  exists site,
    sc_sites (score_row bcf_acgt2int indel_ctx_type good_som st)
    = sc_sites st ++ [site]
    /\ st_score site
       = xdiv (som_calc_dist good_som vec) (of_int (kdim good_som))
    /\ is_nearest good_som vec 0
         (nsom good_som * (nbin good_som * nbin good_som))
         (som_calc_dist good_som vec).
Proof.
  intros Hset Hs Hn _ vec. unfold score_row. rewrite Hset, Z.eqb_refl.
  cbn [negb sc_sites]. eexists. split; [reflexivity|].
  split; [reflexivity|].
  now apply som_calc_dist_nearest.
Qed.

End Score.

Lemma score_row_emits_distance_over_kdim_witness :
  exists site,
    sc_sites (score_row acgt2int (ctx_const 0 0 0) som_one_cell
                (scored_start args_two_read))
    = [site]
    /\ st_score site
       = xdiv (som_calc_dist som_one_cell (vals args_two_read))
           (of_int (kdim som_one_cell))
    /\ is_nearest som_one_cell (vals args_two_read) 0
         (nsom som_one_cell * (nbin som_one_cell * nbin som_one_cell))
         (som_calc_dist som_one_cell (vals args_two_read)).
Proof.
  apply (score_row_emits_distance_over_kdim acgt2int (ctx_const 0 0 0)
           som_one_cell (scored_start args_two_read));
    [reflexivity | cbn; lia | cbn; lia | cbn; lia].
Defined.

(** C1 as stated fails on the row [line_1_1] and the map [som_one_cell]:
    the nearest activated prototype is at squared distance 2, and the score
    written is 2/2 = 1. *)
Lemma emitted_score_is_rescaled :
  exists st site,
    score_rows acgt2int (ctx_const 0 0 0) som_one_cell [line_1_1]
      (scored_start args_two) = Ok st
    /\ sc_sites st = [site]
    /\ xeq (st_score site) (Fin 1)
    /\ xeq (som_calc_dist som_one_cell (vals (sc_args st))) (Fin 2)
    /\ ~ xeq (st_score site)
           (som_calc_dist som_one_cell (vals (sc_args st))).
Proof.
  eexists. eexists. split; [vm_compute; reflexivity|].
  split; [reflexivity|].
  split; [reflexivity|]. split; [reflexivity|].
  cbn. intros H. discriminate H.
Qed.

(* ------------------------------------------------------------------ *)
(** ** A training step *)

Lemma cell_index_inj n i j i' j' :
  0 <= j < n -> 0 <= j' < n -> i * n + j = i' * n + j' -> i = i' /\ j = j'.
Proof.
  intros Hj Hj' H.
  assert (i = i') by nia. subst i'. split; [reflexivity | lia].
Qed.

Lemma move_weights_spec kd vec infl ptr wgt :
  0 <= kd -> 0 <= ptr -> ptr + kd <= Z.of_nat (List.length wgt) ->
  List.length (move_weights kd vec infl ptr wgt) = List.length wgt
  /\ forall idx, 0 <= idx ->
       rd 0%Q (move_weights kd vec infl ptr wgt) idx
       = if (ptr <=? idx) && (idx <? ptr + kd)
         then (rd 0%Q wgt idx
               + infl * (rd 0%Q vec (idx - ptr) - rd 0%Q wgt idx))%Q
         else rd 0%Q wgt idx.
Proof.
  intros Hkd Hptr Hlen. unfold move_weights.
  apply (for_invariant
           (fun k cur =>
              List.length cur = List.length wgt
              /\ forall idx, 0 <= idx ->
                   rd 0%Q cur idx
                   = if (ptr <=? idx) && (idx <? ptr + k)
                     then (rd 0%Q wgt idx
                           + infl * (rd 0%Q vec (idx - ptr) - rd 0%Q wgt idx))%Q
                     else rd 0%Q wgt idx)); [exact Hkd | |].
  - split; [reflexivity|]. intros idx Hidx.
    destruct (ptr <=? idx) eqn:E1, (idx <? ptr + 0) eqn:E2; try reflexivity.
    apply Z.leb_le in E1. apply Z.ltb_lt in E2. lia.
  - intros k cur Hk [Hl Hcur]. split; [now rewrite wr_length|].
    intros idx Hidx.
    destruct (Z.eq_dec idx (ptr + k)) as [->|Hne].
    + rewrite rd_wr_same by lia. rewrite (Hcur (ptr + k)) by lia.
      replace (ptr + k - ptr) with k by lia.
      replace (ptr <=? ptr + k) with true by (symmetry; apply Z.leb_le; lia).
      replace (ptr + k <? ptr + k) with false
        by (symmetry; apply Z.ltb_ge; lia).
      replace (ptr + k <? ptr + (k + 1)) with true
        by (symmetry; apply Z.ltb_lt; lia).
      reflexivity.
    + rewrite rd_wr_other by lia. rewrite (Hcur idx Hidx).
      replace (idx <? ptr + (k + 1)) with (idx <? ptr + k); [reflexivity|].
      destruct (idx <? ptr + k) eqn:E.
      * apply Z.ltb_lt in E. symmetry. apply Z.ltb_lt. lia.
      * apply Z.ltb_ge in E. symmetry. apply Z.ltb_ge. lia.
Qed.

Section TrainStepProperties.

Variable exp : Q -> Q.
Variables (som : som_t) (vec : list Q) (jsom : Z).

Hypothesis nbin_nonneg : 0 <= nbin som.
Hypothesis kdim_nonneg : 0 <= kdim som.
Hypothesis jsom_nonneg : 0 <= jsom.
Hypothesis w_allocated :
  nbin som * nbin som * kdim som <= Z.of_nat (List.length (w som)).
Hypothesis c_allocated :
  (jsom + 1) * (nbin som * nbin som) <= Z.of_nat (List.length (c som)).

Local Abbreviation n := (nbin som).
Local Abbreviation kd := (kdim som).
Local Abbreviation cnt0 := (jsom * nbin som * nbin som).

Lemma update_cell_invariant i j st :
  0 <= i < n -> 0 <= j < n ->
  update_invariant exp som vec jsom (i * n + j) st ->
  update_invariant exp som vec jsom (i * n + j + 1)
    (update_cell exp (kdim som) vec
       (b_imin (find_bmu som vec (jsom * n * n * kd)))
       (b_jmin (find_bmu som vec (jsom * n * n * kd)))
       (step_radius exp som jsom) (step_rate exp som jsom) i j st).
Proof.
  intros Hi Hj (Hp & Hc & Hlw & Hlc & Hw_rest & Hc_rest & Hw_done & Hc_done).
  set (p := i * n + j) in *.
  assert (Hp0 : 0 <= p) by (subst p; nia).
  assert (Hpn : p + 1 <= n * n) by (subst p; nia).
  assert (Hpk : 0 <= p * kd /\ (p + 1) * kd <= n * n * kd).
  { split; [apply Z.mul_nonneg_nonneg; lia|].
    apply Z.mul_le_mono_nonneg_r; lia. }
  assert (Hcnt : 0 <= cnt0) by nia.
  unfold update_invariant, update_cell.
  fold (grid_dist som vec jsom i j). fold (in_radius exp som vec jsom i j).
  fold (influence_at exp som vec jsom i j).
  destruct (in_radius exp som vec jsom i j) eqn:Hin;
    cbn [u_w u_c u_ptr u_cnt]; rewrite Hp, Hc.
  - destruct (move_weights_spec kd vec (influence_at exp som vec jsom i j)
                (p * kd) (u_w st)) as [Hml Hm]; [lia | lia | lia |].
    split; [lia|]. split; [lia|]. split; [congruence|].
    split; [now rewrite wr_length|].
    split; [|split; [|split]].
    + intros idx Hidx. rewrite Hm by lia.
      replace (idx <? p * kd + kd) with false
        by (symmetry; apply Z.ltb_ge; lia).
      rewrite andb_false_r. apply Hw_rest. lia.
    + intros idx Hidx Hout. rewrite rd_wr_other by lia.
      apply Hc_rest; [exact Hidx | lia].
    + intros i' j' k Hi' Hj' Hlt Hk.
      assert (Hidx : 0 <= (i' * n + j') * kd + k) by nia.
      rewrite Hm by exact Hidx.
      destruct (Z.eq_dec (i' * n + j') p) as [Heq|Hne].
      * destruct (cell_index_inj n i' j' i j Hj' Hj Heq) as [-> ->].
        fold p.
        replace (p * kd <=? p * kd + k) with true
          by (symmetry; apply Z.leb_le; lia).
        replace (p * kd + k <? p * kd + kd) with true
          by (symmetry; apply Z.ltb_lt; lia).
        cbn [andb]. rewrite Hw_rest by lia.
        replace (p * kd + k - p * kd) with k by lia.
        unfold trained_weight. fold p. now rewrite Hin.
      * replace (p * kd <=? (i' * n + j') * kd + k) with false
          by (symmetry; apply Z.leb_gt; nia).
        cbn [andb]. apply Hw_done; auto. lia.
    + intros i' j' Hi' Hj' Hlt.
      destruct (Z.eq_dec (i' * n + j') p) as [Heq|Hne].
      * destruct (cell_index_inj n i' j' i j Hj' Hj Heq) as [-> ->].
        fold p. rewrite rd_wr_same by lia.
        rewrite Hc_rest by lia.
        unfold trained_count. fold p. now rewrite Hin.
      * rewrite rd_wr_other by nia. apply Hc_done; auto. lia.
  - split; [lia|]. split; [lia|]. split; [exact Hlw|]. split; [exact Hlc|].
    split; [|split; [|split]].
    + intros idx Hidx. apply Hw_rest. lia.
    + intros idx Hidx Hout. apply Hc_rest; [exact Hidx | lia].
    + intros i' j' k Hi' Hj' Hlt Hk.
      destruct (Z.eq_dec (i' * n + j') p) as [Heq|Hne].
      * destruct (cell_index_inj n i' j' i j Hj' Hj Heq) as [-> ->].
        fold p. rewrite Hw_rest by lia.
        unfold trained_weight. fold p. now rewrite Hin.
      * apply Hw_done; auto. lia.
    + intros i' j' Hi' Hj' Hlt.
      destruct (Z.eq_dec (i' * n + j') p) as [Heq|Hne].
      * destruct (cell_index_inj n i' j' i j Hj' Hj Heq) as [-> ->].
        fold p. rewrite Hc_rest by lia.
        unfold trained_count. fold p. now rewrite Hin.
      * apply Hc_done; auto. lia.
Qed.

Lemma som_train_map_spec :
  let som' := som_train_map exp som vec jsom in
  (forall i j k, 0 <= i < n -> 0 <= j < n -> 0 <= k < kd ->
     rd 0%Q (w som') ((i * n + j) * kd + k)
     = trained_weight exp som vec jsom i j k)
  /\ (forall i j, 0 <= i < n -> 0 <= j < n ->
        rd 0%Q (c som') (cnt0 + (i * n + j))
        = trained_count exp som vec jsom cnt0 i j)
  /\ (forall idx, n * n * kd <= idx ->
        rd 0%Q (w som') idx = rd 0%Q (w som) idx)
  /\ (forall idx, 0 <= idx -> idx < cnt0 \/ cnt0 + n * n <= idx ->
        rd 0%Q (c som') idx = rd 0%Q (c som) idx).
Proof.
  intros som'. subst som'. unfold som_train_map. cbn [w c set_som_wc].
  match goal with
  | |- context [u_w ?u] =>
      assert (Hinv : update_invariant exp som vec jsom (n * n) u)
  end.
  { apply (for2_invariant (update_invariant exp som vec jsom));
      [exact nbin_nonneg | exact nbin_nonneg | |].
    - unfold update_invariant. cbn [u_w u_c u_ptr u_cnt].
      repeat split; try reflexivity; lia.
    - intros i j st Hi Hj Hst. now apply update_cell_invariant. }
  destruct Hinv as (_ & _ & _ & _ & Hw_rest & Hc_rest & Hw_done & Hc_done).
  split; [|split; [|split]].
  - intros i j k Hi Hj Hk. apply Hw_done; try lia. nia.
  - intros i j Hi Hj. apply Hc_done; try lia. nia.
  - exact Hw_rest.
  - exact Hc_rest.
Qed.

(** The update loop, position by position. In a training step that
    selected the map [jsom], the position
    (i, j) of the grid at squared grid distance [d2 = grid_dist i j] from
    the best matching unit gets the influence
    [exp(-d2*d2*0.5/radius) * learning_rate], whose exponent is
    [-(d2*d2)/(2*radius)], the fourth power of the grid distance. Within
    the radius every weight that the update loop addresses at the position
    moves by [influence * (vec[k] - weight)] and the count of the position
    in the map [jsom] grows by [influence]; beyond the radius both are
    left as they were. *)
Theorem som_train_neighborhood i j :
  0 <= i < nbin som -> 0 <= j < nbin som ->
  let som' := som_train_map exp som vec jsom in
  let d2 := grid_dist som vec jsom i j in
  let radius := step_radius exp som jsom in
  let influence := influence_at exp som vec jsom i j in
  let p := i * nbin som + j in
  influence = (exp (- d2 * d2 * (1 # 2) / radius) * step_rate exp som jsom)%Q
  /\ (- d2 * d2 * (1 # 2) / radius == - (d2 * d2) / (2 * radius))%Q
  /\ (Qle_bool d2 radius = true ->
      (forall k, 0 <= k < kdim som ->
         rd 0%Q (w som') (p * kdim som + k)
         = (rd 0%Q (w som) (p * kdim som + k)
            + influence * (rd 0%Q vec k - rd 0%Q (w som) (p * kdim som + k)))%Q)
      /\ rd 0%Q (c som') (jsom * nbin som * nbin som + p)
         = (rd 0%Q (c som) (jsom * nbin som * nbin som + p) + influence)%Q)
  /\ (Qle_bool d2 radius = false ->
      (forall k, 0 <= k < kdim som ->
         rd 0%Q (w som') (p * kdim som + k)
         = rd 0%Q (w som) (p * kdim som + k))
      /\ rd 0%Q (c som') (jsom * nbin som * nbin som + p)
         = rd 0%Q (c som) (jsom * nbin som * nbin som + p)).
Proof.
  intros Hi Hj som' d2 radius influence p.
  destruct som_train_map_spec as (Hw & Hc & _ & _).
  split; [reflexivity|]. split.
  - unfold Qdiv. destruct (Qeq_dec radius 0) as [E|E].
    + rewrite E. unfold Qinv at 1 2. cbn. ring.
    + field. exact E.
  - split; intros Hin.
    + split.
      * intros k Hk. subst som' p. rewrite Hw by assumption.
        unfold trained_weight, in_radius. fold d2 radius. now rewrite Hin.
      * subst som' p. rewrite Hc by assumption.
        unfold trained_count, in_radius. fold d2 radius. now rewrite Hin.
    + split.
      * intros k Hk. subst som' p. rewrite Hw by assumption.
        unfold trained_weight, in_radius. fold d2 radius. now rewrite Hin.
      * subst som' p. rewrite Hc by assumption.
        unfold trained_count, in_radius. fold d2 radius. now rewrite Hin.
Qed.

End TrainStepProperties.

Section TrainSecondMap.

Variable exp : Q -> Q.
Variable random_seq : Z -> nat -> Z.

Hypothesis exp_0 : forall q, (q == 0)%Q -> (exp q == 1)%Q.
Hypothesis first_random : random_seq 1 0%nat = 1500000000.

(** C7 (defect of the code). A step that selected the map [j] is to leave
    the weights of every other map as they are. [som_train] looks for the
    best matching unit in the map [j] and then sets [ptr = som->w], the
    weights of the first map, for the update. On [som_fresh_two] with the
    vector (1) and a first random number that selects the second map, the
    best matching unit is the first cell of the second map; the step moves
    the first weight of the first map from 0 to 1/10, leaves every weight
    of the second map as it was, and adds the influence to the count of
    the second map. *)
Theorem som_train_moves_first_map :
  exists som',
    som_train exp random_seq som_fresh_two [1%Q] (srandom 1)
    = Ok (som', mk_rng 1 1)
    /\ fst (select_map random_seq som_fresh_two (srandom 1)) = 1
    /\ (rd 0%Q (w som') 0 == 1 # 10)%Q
    /\ ~ (rd 0%Q (w som') 0 == rd 0%Q (w som_fresh_two) 0)%Q
    /\ (forall idx, 4 <= idx -> rd 0%Q (w som') idx = rd 0%Q (w som_fresh_two) idx)
    /\ (rd 0%Q (c som') 4 == 1 # 10)%Q.
Proof.
  assert (Hsel : select_map random_seq som_fresh_two (srandom 1)
                 = (1, mk_rng 1 1)).
  { unfold select_map, random. cbn [nsom som_fresh_two Z.eqb srandom
      rng_seed rng_calls]. rewrite first_random. reflexivity. }
  exists (som_train_map exp som_fresh_two [1%Q] 1).
  split; [unfold som_train; rewrite Hsel; reflexivity|].
  split; [now rewrite Hsel|].
  destruct (som_train_map_spec exp som_fresh_two [1%Q] 1)
    as (Hw & Hc & Hw_rest & _); try (cbn; lia).
  assert (Hd : grid_dist som_fresh_two [1%Q] 1 0 0 = 0%Q)
    by (vm_compute; reflexivity).
  assert (Ht : (exp (- of_int (rd 0%Z (t som_fresh_two) 1
                               * nsom som_fresh_two)%Z
                     / of_int (nt som_fresh_two)) == 1)%Q)
    by (apply exp_0; vm_compute; reflexivity).
  assert (Hrad : (step_radius exp som_fresh_two 1 == 4)%Q).
  { unfold step_radius. rewrite Ht. vm_compute. reflexivity. }
  assert (Hrate : (step_rate exp som_fresh_two 1 == 1 # 10)%Q).
  { unfold step_rate. rewrite Ht. vm_compute. reflexivity. }
  assert (Hin : in_radius exp som_fresh_two [1%Q] 1 0 0 = true).
  { unfold in_radius. rewrite Hd. apply Qle_bool_iff. rewrite Hrad.
    discriminate. }
  assert (Hinf : (influence_at exp som_fresh_two [1%Q] 1 0 0 == 1 # 10)%Q).
  { unfold influence_at, influence_of. rewrite Hd, Hrate.
    rewrite exp_0; [reflexivity|]. unfold Qdiv. ring. }
  assert (Hw0 : (rd 0%Q (w (som_train_map exp som_fresh_two [1%Q] 1)) 0
                 == 1 # 10)%Q).
  { assert (H0 : rd 0%Q (w (som_train_map exp som_fresh_two [1%Q] 1)) 0
                 = trained_weight exp som_fresh_two [1%Q] 1 0 0 0)
      by (apply (Hw 0 0 0); cbn; lia).
    rewrite H0. unfold trained_weight. rewrite Hin, Hinf. reflexivity. }
  split; [exact Hw0|].
  split; [rewrite Hw0; discriminate|].
  split; [intros idx Hidx; apply Hw_rest; cbn; lia|].
  assert (H4 : rd 0%Q (c (som_train_map exp som_fresh_two [1%Q] 1)) 4
               = trained_count exp som_fresh_two [1%Q] 1 4 0 0)
    by (apply (Hc 0 0); cbn; lia).
  rewrite H4. unfold trained_count. rewrite Hin, Hinf. reflexivity.
Qed.

End TrainSecondMap.

Lemma som_train_moves_first_map_witness :
  exists som',
    som_train exp_stub (random_const 1500000000) som_fresh_two [1%Q] (srandom 1)
    = Ok (som', mk_rng 1 1)
    /\ fst (select_map (random_const 1500000000) som_fresh_two (srandom 1)) = 1
    /\ (rd 0%Q (w som') 0 == 1 # 10)%Q
    /\ ~ (rd 0%Q (w som') 0 == rd 0%Q (w som_fresh_two) 0)%Q
    /\ (forall idx, 4 <= idx -> rd 0%Q (w som') idx = rd 0%Q (w som_fresh_two) idx)
    /\ (rd 0%Q (c som') 4 == 1 # 10)%Q.
Proof.
  apply (som_train_moves_first_map exp_stub (random_const 1500000000)).
  - intros q Hq. unfold exp_stub. rewrite Hq. reflexivity.
  - reflexivity.
Defined.

Section NeighborhoodSecondMap.

Variable exp : Q -> Q.
Variable random_seq : Z -> nat -> Z.

Hypothesis exp_0 : forall q, (q == 0)%Q -> (exp q == 1)%Q.
Hypothesis exp_pos : forall q, (q <= 0)%Q -> (0 < exp q)%Q.
Hypothesis first_random : random_seq 1 0%nat = 1500000000.

(** C9 (defect of the code). In the neighborhood update a cell within the
    radius is to get the influence [exp(-d2*d2/(2*radius)) * lr], have
    every weight moved by [influence * (v[k] - w[k])] and its count
    increased by the influence. The influence and the count are as said,
    the weights are not: the update loop starts at [ptr = som->w], the
    weights of the first map (the defect of C7), while [cnt] starts at the
    counts of the selected map. On [som_fresh_two] with the vector (1) and
    a first random number that selects the second map, the cell (1, 1) of
    the second map is at the squared grid distance 2 from the best
    matching unit (0, 0), within the radius 4; its influence is
    [exp(-(2*2)*0.5/radius) * lr] and is positive, its count grows by the
    influence, its weight stays as it was although the vector differs from
    it, and the weight that moves by [influence * (v - w)] is that of the
    cell (1, 1) of the first map. *)
Theorem som_train_neighborhood_off_map :
  exists som',
    som_train exp random_seq som_fresh_two [1%Q] (srandom 1)
    = Ok (som', mk_rng 1 1)
    /\ let d2 := grid_dist som_fresh_two [1%Q] 1 1 1 in
       let radius := step_radius exp som_fresh_two 1 in
       let influence := influence_at exp som_fresh_two [1%Q] 1 1 1 in
       d2 = 2%Q
       /\ (radius == 4)%Q
       /\ Qle_bool d2 radius = true
       /\ influence
          = (exp (- d2 * d2 * (1 # 2) / radius)
             * step_rate exp som_fresh_two 1)%Q
       /\ (0 < influence)%Q
       /\ (rd 0%Q (c som') 7 == rd 0%Q (c som_fresh_two) 7 + influence)%Q
       /\ rd 0%Q (w som') 7 = rd 0%Q (w som_fresh_two) 7
       /\ ~ (rd 0%Q (w som') 7
             == rd 0%Q (w som_fresh_two) 7
                + influence
                  * (rd 0%Q [1%Q] 0 - rd 0%Q (w som_fresh_two) 7))%Q
       /\ (rd 0%Q (w som') 3
           == rd 0%Q (w som_fresh_two) 3
              + influence * (rd 0%Q [1%Q] 0 - rd 0%Q (w som_fresh_two) 3))%Q.
Proof.
  assert (Hsel : select_map random_seq som_fresh_two (srandom 1)
                 = (1, mk_rng 1 1)).
  { unfold select_map, random. cbn [nsom som_fresh_two Z.eqb srandom
      rng_seed rng_calls]. rewrite first_random. reflexivity. }
  exists (som_train_map exp som_fresh_two [1%Q] 1).
  split; [unfold som_train; rewrite Hsel; reflexivity|].
  destruct (som_train_map_spec exp som_fresh_two [1%Q] 1)
    as (Hw & Hc & Hw_rest & _); try (cbn; lia).
  assert (Hd : grid_dist som_fresh_two [1%Q] 1 1 1 = 2%Q)
    by (vm_compute; reflexivity).
  assert (Ht : (exp (- of_int (rd 0%Z (t som_fresh_two) 1
                               * nsom som_fresh_two)%Z
                     / of_int (nt som_fresh_two)) == 1)%Q)
    by (apply exp_0; vm_compute; reflexivity).
  assert (Hrad : (step_radius exp som_fresh_two 1 == 4)%Q).
  { unfold step_radius. rewrite Ht. vm_compute. reflexivity. }
  assert (Hrate : (step_rate exp som_fresh_two 1 == 1 # 10)%Q).
  { unfold step_rate. rewrite Ht. vm_compute. reflexivity. }
  assert (Hin : in_radius exp som_fresh_two [1%Q] 1 1 1 = true).
  { unfold in_radius. rewrite Hd. apply Qle_bool_iff. rewrite Hrad.
    discriminate. }
  assert (Hinf : influence_at exp som_fresh_two [1%Q] 1 1 1
                 = (exp (- 2 * 2 * (1 # 2) / step_radius exp som_fresh_two 1)
                    * step_rate exp som_fresh_two 1)%Q).
  { unfold influence_at, influence_of. rewrite Hd. reflexivity. }
  assert (Hpos : (0 < influence_at exp som_fresh_two [1%Q] 1 1 1)%Q).
  { rewrite Hinf, Hrate.
    assert (0 < exp (- 2 * 2 * (1 # 2) / step_radius exp som_fresh_two 1))%Q
      as He; [|lra].
    apply exp_pos. rewrite Hrad. discriminate. }
  cbn zeta. rewrite Hd.
  split; [reflexivity|]. split; [exact Hrad|].
  split; [unfold in_radius in Hin; rewrite Hd in Hin; exact Hin|].
  split; [exact Hinf|]. split; [exact Hpos|].
  assert (H7 : rd 0%Q (w (som_train_map exp som_fresh_two [1%Q] 1)) 7
               = rd 0%Q (w som_fresh_two) 7)
    by (apply Hw_rest; cbn; lia).
  split; [|split; [exact H7|split]].
  - assert (Hc7 : rd 0%Q (c (som_train_map exp som_fresh_two [1%Q] 1)) 7
                  = trained_count exp som_fresh_two [1%Q] 1 4 1 1)
      by (apply (Hc 1 1); cbn; lia).
    rewrite Hc7. unfold trained_count. rewrite Hin. reflexivity.
  - rewrite H7. change (rd 0%Q (w som_fresh_two) 7) with 0%Q.
    change (rd 0%Q [1%Q] 0) with 1%Q. intros E. lra.
  - assert (Hw3 : rd 0%Q (w (som_train_map exp som_fresh_two [1%Q] 1)) 3
                  = trained_weight exp som_fresh_two [1%Q] 1 1 1 0)
      by (apply (Hw 1 1 0); cbn; lia).
    rewrite Hw3. unfold trained_weight. rewrite Hin. reflexivity.
Qed.

End NeighborhoodSecondMap.

Lemma som_train_neighborhood_off_map_witness :
  exists som',
    som_train exp_stub (random_const 1500000000) som_fresh_two [1%Q] (srandom 1)
    = Ok (som', mk_rng 1 1)
    /\ (0 < influence_at exp_stub som_fresh_two [1%Q] 1 1 1)%Q
    /\ rd 0%Q (w som') 7 = rd 0%Q (w som_fresh_two) 7.
Proof.
  destruct (som_train_neighborhood_off_map exp_stub (random_const 1500000000))
    as (som' & Hrun & _ & _ & _ & _ & Hpos & _ & H7 & _).
  - intros q Hq. unfold exp_stub. rewrite Hq. reflexivity.
  - intros q Hq. unfold exp_stub. apply Qlt_shift_div_l; lra.
  - reflexivity.
  - exists som'. split; [exact Hrun|]. split; [exact Hpos | exact H7].
Defined.

(* ------------------------------------------------------------------ *)
(** ** The reservoirs *)

Lemma to_int_scaled a r :
  to_int (of_int a * of_int r / of_int RAND_MAX) = Z.quot (a * r) RAND_MAX.
Proof.
  unfold to_int, of_int. cbn. now rewrite Z.mul_1_r.
Qed.

Lemma slot_bounds cap r :
  1 <= cap -> 0 <= r <= RAND_MAX ->
  0 <= Z.quot ((cap - 1) * r) RAND_MAX <= cap - 1.
Proof.
  intros Hcap Hr. assert (HM : 0 < RAND_MAX) by reflexivity.
  rewrite Z.quot_div_nonneg by nia. split.
  - apply Z.div_pos; nia.
  - apply Z.div_le_upper_bound; nia.
Qed.

Lemma slot_below_last cap r :
  2 <= cap -> 0 <= r < RAND_MAX ->
  Z.quot ((cap - 1) * r) RAND_MAX < cap - 1.
Proof.
  intros Hcap Hr. assert (HM : 0 < RAND_MAX) by reflexivity.
  rewrite Z.quot_div_nonneg by nia.
  apply Z.div_lt_upper_bound; nia.
Qed.

Lemma store_vector_length m vals i buf :
  List.length (store_vector m vals i buf) = List.length buf.
Proof.
  unfold store_vector, for_. generalize 0 at 1. generalize buf.
  induction (Z.to_nat m) as [|k IH]; intros b z; cbn [loop]; [reflexivity|].
  now rewrite IH, wr_length.
Qed.

Lemma store_vector_other m vals i buf idx :
  0 <= idx -> idx < i * m \/ i * m + m <= idx ->
  rd 0%Q (store_vector m vals i buf) idx = rd 0%Q buf idx.
Proof.
  intros Hidx Hout. unfold store_vector.
  destruct (Z.le_gt_cases 0 m) as [Hm|Hm].
  - apply (for_invariant (fun j b => rd 0%Q b idx = rd 0%Q buf idx));
      [exact Hm | reflexivity |].
    intros j b Hj Hb. rewrite rd_wr_other by lia. exact Hb.
  - unfold for_. replace (Z.to_nat m) with 0%nat by lia. reflexivity.
Qed.

Lemma store_vector_slot m vals i buf j :
  0 <= i -> 0 <= j < m -> i * m + m <= Z.of_nat (List.length buf) ->
  rd 0%Q (store_vector m vals i buf) (i * m + j) = rd 0%Q vals j.
Proof.
  intros Hi Hj Hlen. unfold store_vector.
  assert (Him : 0 <= i * m) by nia.
  enough (H : List.length (for_ m (fun j0 b => wr b (i * m + j0) (rd 0%Q vals j0)) buf)
              = List.length buf
              /\ forall j', 0 <= j' < m ->
                   rd 0%Q (for_ m (fun j0 b => wr b (i * m + j0) (rd 0%Q vals j0)) buf)
                     (i * m + j') = rd 0%Q vals j')
    by (apply H; exact Hj).
  apply (for_invariant
           (fun k b =>
              List.length b = List.length buf
              /\ forall j', 0 <= j' < k ->
                   rd 0%Q b (i * m + j') = rd 0%Q vals j')); [lia | |].
  - split; [reflexivity | intros j' Hj'; lia].
  - intros k b Hk [Hl Hb]. split; [now rewrite wr_length|].
    intros j' Hj'. destruct (Z.eq_dec j' k) as [->|Hne].
    + rewrite rd_wr_same by lia. reflexivity.
    + rewrite rd_wr_other by lia. apply Hb. lia.
Qed.

Section Reservoir.

Variable random_seq : Z -> nat -> Z.

Lemma pick_slot_full cap g :
  pick_slot random_seq cap cap g
  = (drawn_slot random_seq cap g, cap,
     mk_rng (rng_seed g) (S (rng_calls g))).
Proof.
  unfold pick_slot, random, drawn_slot. rewrite Z.ltb_irrefl.
  now rewrite to_int_scaled.
Qed.

(** C8 (as amended). Once a reservoir, fixed or learn, of capacity
    [cap >= 1] is full, a further admitted vector is stored in the slot
    [floor ((cap-1) * r / RAND_MAX)], where [r] is the next value of
    [random()], [0 <= r <= RAND_MAX], and replaces the content of that
    slot; the slot is at most [cap-1], and when [cap >= 2] and
    [r < RAND_MAX] it is below [cap-1] and the last slot keeps its
    content. *)
Theorem sample_row_full_reservoir fixed_max learn_max st :
  let args := r_args st in
  let g := r_rng st in
  let g' := mk_rng (rng_seed g) (S (rng_calls g)) in
  let r := random_seq (rng_seed g) (rng_calls g) in
  let m := nann_som args in
  let st' := sample_row random_seq fixed_max learn_max st in
  nset args = nann args ->
  0 <= r <= RAND_MAX ->
  (IS_GOOD (mask args) = true ->
   1 <= fixed_max -> r_nfixed st = fixed_max ->
   let i := drawn_slot random_seq fixed_max g in
   st' = mk_res args (store_vector m (vals args) i (r_fixed st))
           (r_learn st) fixed_max (r_nlearn st) g'
   /\ 0 <= i <= fixed_max - 1
   /\ (fixed_max * m <= Z.of_nat (List.length (r_fixed st)) ->
       forall j, 0 <= j < m ->
         rd 0%Q (r_fixed st') (i * m + j) = rd 0%Q (vals args) j)
   /\ (2 <= fixed_max -> r < RAND_MAX ->
       i < fixed_max - 1
       /\ forall j, 0 <= j < m ->
            rd 0%Q (r_fixed st') ((fixed_max - 1) * m + j)
            = rd 0%Q (r_fixed st) ((fixed_max - 1) * m + j)))
  /\ (IS_GOOD (mask args) = false ->
      forall flt, filt_learn args = Some flt ->
      failed_filters flt (vals args) = 0 ->
      1 <= learn_max -> r_nlearn st = learn_max ->
      let i := drawn_slot random_seq learn_max g in
      st' = mk_res args (r_fixed st)
              (store_vector m (vals args) i (r_learn st))
              (r_nfixed st) learn_max g'
      /\ 0 <= i <= learn_max - 1
      /\ (learn_max * m <= Z.of_nat (List.length (r_learn st)) ->
          forall j, 0 <= j < m ->
            rd 0%Q (r_learn st') (i * m + j) = rd 0%Q (vals args) j)
      /\ (2 <= learn_max -> r < RAND_MAX ->
          i < learn_max - 1
          /\ forall j, 0 <= j < m ->
               rd 0%Q (r_learn st') ((learn_max - 1) * m + j)
               = rd 0%Q (r_learn st) ((learn_max - 1) * m + j))).
Proof.
  intros args g g' r m st' Hset Hr. split.
  - intros Hgood Hcap Hfull i.
    assert (Hst : st' = mk_res args (store_vector m (vals args) i (r_fixed st))
                          (r_learn st) fixed_max (r_nlearn st) g').
    { subst st'. unfold sample_row. fold args. rewrite Hset, Z.eqb_refl, Hgood.
      cbn [negb]. replace (fixed_max =? 0) with false
        by (symmetry; apply Z.eqb_neq; lia).
      rewrite Hfull, pick_slot_full. reflexivity. }
    assert (Hb : 0 <= i <= fixed_max - 1) by now apply slot_bounds.
    split; [exact Hst|]. split; [exact Hb|]. split.
    { intros Hlen j Hj. rewrite Hst. cbn [r_fixed].
      apply store_vector_slot; [lia | exact Hj | nia]. }
    intros Hcap2 Hlt.
    assert (Hi : i < fixed_max - 1) by (apply slot_below_last; lia).
    split; [exact Hi|]. intros j Hj. rewrite Hst. cbn [r_fixed].
    assert (Hi0 : 0 <= i) by (apply slot_bounds; lia).
    apply store_vector_other; nia.
  - intros Hgood flt Hflt Hpass Hcap Hfull i.
    assert (Hst : st' = mk_res args (r_fixed st)
                          (store_vector m (vals args) i (r_learn st))
                          (r_nfixed st) learn_max g').
    { subst st'. unfold sample_row. fold args.
      rewrite Hset, Z.eqb_refl, Hgood, Hflt, Hpass.
      cbn [negb Z.eqb]. replace (learn_max =? 0) with false
        by (symmetry; apply Z.eqb_neq; lia).
      rewrite Hfull, pick_slot_full. reflexivity. }
    assert (Hb : 0 <= i <= learn_max - 1) by now apply slot_bounds.
    split; [exact Hst|]. split; [exact Hb|]. split.
    { intros Hlen j Hj. rewrite Hst. cbn [r_learn].
      apply store_vector_slot; [lia | exact Hj | nia]. }
    intros Hcap2 Hlt.
    assert (Hi : i < learn_max - 1) by (apply slot_below_last; lia).
    split; [exact Hi|]. intros j Hj. rewrite Hst. cbn [r_learn].
    assert (Hi0 : 0 <= i) by (apply slot_bounds; lia).
    apply store_vector_other; nia.
Qed.

End Reservoir.

Lemma sample_row_full_reservoir_witness :
  drawn_slot (random_const 1000000000) 3 (r_rng res_full_3) < 3 - 1
  /\ forall j, 0 <= j < nann_som (r_args res_full_3) ->
       rd 0%Q (r_fixed (sample_row (random_const 1000000000) 3 0 res_full_3))
         ((3 - 1) * nann_som (r_args res_full_3) + j)
       = rd 0%Q (r_fixed res_full_3)
           ((3 - 1) * nann_som (r_args res_full_3) + j).
Proof.
  destruct (sample_row_full_reservoir (random_const 1000000000) 3 0 res_full_3)
    as [Hfixed _]; [reflexivity | unfold random_const, RAND_MAX; lia |].
  destruct Hfixed as (_ & _ & _ & Hlast); [reflexivity | lia | reflexivity |].
  apply Hlast; [lia | reflexivity].
Defined.

(** C8 as stated fails for a reservoir of one slot, whose last slot is the
    slot that every further vector replaces: after the rows [line_qual_5]
    and [line_qual_7] the slot holds 7. It fails too when [random()]
    returns [RAND_MAX]: the vector 9 goes to the last of three slots. *)
Lemma last_slot_is_replaced :
  (exists st1 st2,
      sample_rows (random_const 12345) 1 0 [line_qual_5]
        (res_start args_qual 1 0 (srandom 1)) = Ok st1
      /\ r_nfixed st1 = 1 /\ r_fixed st1 = [5%Q]
      /\ sample_rows (random_const 12345) 1 0 [line_qual_5; line_qual_7]
           (res_start args_qual 1 0 (srandom 1)) = Ok st2
      /\ r_nfixed st2 = 1 /\ r_fixed st2 = [7%Q])
  /\ r_nfixed res_full_3 = 3
  /\ r_fixed (sample_row (random_const RAND_MAX) 3 0 res_full_3)
     = [5%Q; 6%Q; 9%Q].
Proof.
  split.
  - eexists. eexists. split; [vm_compute; reflexivity|].
    split; [reflexivity|]. split; [reflexivity|].
    split; [vm_compute; reflexivity|]. split; reflexivity.
  - split; [reflexivity | vm_compute; reflexivity].
Qed.

(* ------------------------------------------------------------------ *)
(** ** The training budget *)

Section Budget.

Variable exp : Q -> Q.
Variable random_seq : Z -> nat -> Z.








End Budget.



(* ------------------------------------------------------------------ *)
(** ** Normalization of a single map *)

Section NormFirstMap.

Variables (n2 : Z) (cs : list Q).

Hypothesis n2_nonneg : 0 <= n2.
Hypothesis cs_allocated : n2 <= Z.of_nat (List.length cs).
Hypothesis cs_nonneg : forall i, 0 <= i < n2 -> (0 <= rd 0%Q cs i)%Q.

Lemma first_map_maximum :
  let max :=
    for_ n2
      (fun i max =>
         if Qltb max (rd 0%Q cs i) then rd 0%Q cs (0 * n2 + i) else max)
      0%Q in
  (0 <= max)%Q
  /\ (forall i, 0 <= i < n2 -> (rd 0%Q cs i <= max)%Q)
  /\ (max = 0%Q \/ exists i, 0 <= i < n2 /\ max = rd 0%Q cs i).
Proof.
  apply (for_invariant
           (fun k m =>
              (0 <= m)%Q
              /\ (forall i, 0 <= i < k -> (rd 0%Q cs i <= m)%Q)
              /\ (m = 0%Q \/ exists i, 0 <= i < k /\ m = rd 0%Q cs i)));
    [exact n2_nonneg | |].
  - split; [lra|]. split; [intros i Hi; lia | now left].
  - intros k m Hk (Hm & Hle & Hex). cbn [Z.mul Z.add].
    destruct (Qltb m (rd 0%Q cs k)) eqn:E.
    + apply Qltb_lt in E. split; [lra|]. split.
      * intros i Hi. destruct (Z.eq_dec i k) as [->|Hne]; [lra|].
        specialize (Hle i ltac:(lia)). lra.
      * right. exists k. split; [lia | reflexivity].
    + apply Qltb_ge in E. split; [exact Hm|]. split.
      * intros i Hi. destruct (Z.eq_dec i k) as [->|Hne]; [exact E|].
        apply Hle. lia.
      * destruct Hex as [->|(i & Hi & Hmi)]; [now left|].
        right. exists i. split; [lia | exact Hmi].
Qed.

Lemma first_map_division m :
  let cs' :=
    for_ n2
      (fun i cur => wr cur (0 * n2 + i) (rd 0%Q cur (0 * n2 + i) / m)%Q) cs in
  forall i, 0 <= i < n2 -> rd 0%Q cs' i = (rd 0%Q cs i / m)%Q.
Proof.
  intros cs'.
  assert (H : List.length cs' = List.length cs
              /\ forall i, 0 <= i < n2 ->
                   rd 0%Q cs' i
                   = if i <? n2 then (rd 0%Q cs i / m)%Q else rd 0%Q cs i).
  { subst cs'.
    apply (for_invariant
             (fun k cur =>
                List.length cur = List.length cs
                /\ forall i, 0 <= i < n2 ->
                     rd 0%Q cur i
                     = if i <? k then (rd 0%Q cs i / m)%Q else rd 0%Q cs i));
      [exact n2_nonneg | |].
    - split; [reflexivity|].
      intros i Hi. now replace (i <? 0) with false
        by (symmetry; apply Z.ltb_ge; lia).
    - intros k cur Hk (Hl & Hcur). cbn [Z.mul Z.add].
      split; [now rewrite wr_length|].
      intros i Hi. destruct (Z.eq_dec i k) as [->|Hne].
      + rewrite rd_wr_same by lia. rewrite (Hcur k Hk).
        rewrite Z.ltb_irrefl.
        now replace (k <? k + 1) with true by (symmetry; apply Z.ltb_lt; lia).
      + rewrite rd_wr_other by lia. rewrite (Hcur i Hi).
        replace (i <? k + 1) with (i <? k); [reflexivity|].
        destruct (i <? k) eqn:E.
        * apply Z.ltb_lt in E. symmetry. apply Z.ltb_lt. lia.
        * apply Z.ltb_ge in E. symmetry. apply Z.ltb_ge. lia. }
  destruct H as [_ H]. intros i Hi. rewrite (H i Hi).
  now replace (i <? n2) with true by (symmetry; apply Z.ltb_lt; lia).
Qed.

(** The map at the start of the count array is divided by its own maximum:
    its counts end in [0,1], and they are all 0 or one of them is 1. *)
Lemma som_norm_first_map :
  let cs' := som_norm_map n2 0 cs in
  (forall i, 0 <= i < n2 -> (0 <= rd 0%Q cs' i <= 1)%Q)
  /\ ((forall i, 0 <= i < n2 -> (rd 0%Q cs' i == 0)%Q)
      \/ exists i, 0 <= i < n2 /\ (rd 0%Q cs' i == 1)%Q).
Proof.
  intros cs'. subst cs'. unfold som_norm_map.
  destruct first_map_maximum as (Hm & Hle & Hex).
  set (max := for_ n2 _ 0%Q) in *.
  destruct (Qeq_bool max 0) eqn:E; cbn [negb].
  - apply Qeq_bool_iff in E.
    assert (Hz : forall i, 0 <= i < n2 -> (rd 0%Q cs i == 0)%Q).
    { intros i Hi. specialize (Hle i Hi). specialize (cs_nonneg i Hi). lra. }
    split; [|left; exact Hz].
    intros i Hi. rewrite (Hz i Hi). lra.
  - assert (Hpos : (0 < max)%Q).
    { destruct (Qlt_le_dec 0 max) as [H|H]; [exact H|].
      assert (Heq : (max == 0)%Q) by lra.
      apply Qeq_bool_iff in Heq. congruence. }
    split.
    + intros i Hi. rewrite first_map_division by exact Hi.
      specialize (Hle i Hi). specialize (cs_nonneg i Hi). split.
      * apply Qle_shift_div_l; [exact Hpos | lra].
      * apply Qle_shift_div_r; [exact Hpos | lra].
    + right. destruct Hex as [H0|(i & Hi & Hmi)]; [rewrite H0 in Hpos; lra|].
      exists i. split; [exact Hi|].
      rewrite first_map_division by exact Hi. rewrite <- Hmi.
      field. lra.
Qed.

End NormFirstMap.

(* ------------------------------------------------------------------ *)
(** ** The scenarios of the specification *)

Example scaling_clamp :
  percentiles (1 # 10) (999 # 10) 5 0 [-1; 0; 1; 2; 100]%Q = (Fin (-1), Fin 100)
  /\ scale_value (mk_dist 0 5 0 0 0 0 0 (-1) 100) (1 # 2) = Ok (3 # 202)
  /\ scale_value (mk_dist 0 5 0 0 0 0 0 (-1) 100) (-5) = Ok 0%Q
  /\ scale_value (mk_dist 0 5 0 0 0 0 0 (-1) 100) 500 = Ok 1%Q.
Proof.
  repeat split; vm_compute; reflexivity.
Qed.

Example filter_parse_and_eval :
  (exists args' flt,
      init_filters scan_decimal args_two "QUAL>=5 & MQ<30" 0 = Ok (args', flt)
      /\ failed_filters flt [4; 40]%Q = 3)
  /\ (exists args' flt,
         init_filters scan_decimal args_two "5<=QUAL & 30>MQ" 0 = Ok (args', flt)
         /\ failed_filters flt [4; 40]%Q = 3).
Proof.
  split; eexists; eexists; (split; [vm_compute; reflexivity | reflexivity]).
Qed.

Example scorer_threshold :
  som_calc_dist som_one_cell [1; 1]%Q = Fin 2.
Proof.
  vm_compute. reflexivity.
Qed.

(* ================================================================== *)
(** * Further properties of the code *)

(* ------------------------------------------------------------------ *)
(** ** Scaling *)

Lemma Qle_bool_true x y : (x <= y)%Q -> Qle_bool x y = true.
Proof. apply Qle_bool_iff. Qed.

Lemma Qltb_true x y : (x < y)%Q -> Qltb x y = true.
Proof. apply Qltb_lt. Qed.

Lemma Qltb_false x y : (y <= x)%Q -> Qltb x y = false.
Proof. apply Qltb_ge. Qed.

Lemma Qdiv_unit x d : (0 <= x <= d)%Q -> (0 < d)%Q -> (0 <= x / d <= 1)%Q.
Proof.
  intros Hx Hd. split.
  - apply Qle_shift_div_l; [exact Hd | lra].
  - apply Qle_shift_div_r; [exact Hd | lra].
Qed.

(** The three branches of [scale_value] when the bounds are in order. *)
Lemma scale_value_cases dist val :
  (scale_min dist < scale_max dist)%Q ->
  ((val < scale_min dist)%Q /\ scale_value dist val = Ok 0%Q)
  \/ ((scale_max dist < val)%Q /\ scale_value dist val = Ok 1%Q)
  \/ ((scale_min dist <= val <= scale_max dist)%Q
      /\ scale_value dist val
         = Ok ((val - scale_min dist) / (scale_max dist - scale_min dist))%Q).
Proof.
  intros Hlt. unfold scale_value.
  replace (Qeq_bool (scale_max dist - scale_min dist) 0) with false
    by (symmetry; apply not_true_is_false; intros F;
        apply Qeq_bool_iff in F; lra).
  rewrite andb_false_r.
  destruct (Qlt_le_dec val (scale_min dist)) as [H1|H1].
  - left. split; [exact H1|]. rewrite (Qltb_true _ _ H1). reflexivity.
  - rewrite (Qltb_false _ _ H1).
    destruct (Qlt_le_dec (scale_max dist) val) as [H2|H2].
    + right; left. split; [exact H2|]. rewrite (Qltb_true _ _ H2). reflexivity.
    + right; right. split; [split; assumption|].
      rewrite (Qltb_false _ _ H2).
      destruct (Qdiv_unit (val - scale_min dist)
                  (scale_max dist - scale_min dist)) as [Ha Hb]; try lra.
      rewrite (Qle_bool_true _ _ Ha), (Qle_bool_true _ _ Hb). reflexivity.
Qed.

(** X1. When [scale_min < scale_max], [scale_value] never trips its
    assertion: it returns a value in [0,1], which is 0 below [scale_min],
    1 above [scale_max] and the linear interpolation in between. *)
Theorem scale_value_unit_interval dist val :
  (scale_min dist < scale_max dist)%Q ->
  exists v,
    scale_value dist val = Ok v
    /\ (0 <= v <= 1)%Q
    /\ ((val < scale_min dist)%Q -> v = 0%Q)
    /\ ((scale_max dist < val)%Q -> v = 1%Q)
    /\ ((scale_min dist <= val <= scale_max dist)%Q ->
        v = ((val - scale_min dist) / (scale_max dist - scale_min dist))%Q).
Proof.
  intros Hlt.
  destruct (scale_value_cases dist val Hlt) as [[H Hv]|[[H Hv]|[H Hv]]];
    rewrite Hv; eexists; (split; [reflexivity|]).
  - split; [lra|]. repeat split; intros; try reflexivity; lra.
  - split; [lra|]. repeat split; intros; try reflexivity; lra.
  - split; [apply Qdiv_unit; lra|].
    repeat split; intros; try reflexivity; lra.
Qed.

Lemma scale_value_unit_interval_witness :
  exists v,
    scale_value (mk_dist 0 5 0 0 0 0 0 (-1) 100) (1 # 2) = Ok v
    /\ (0 <= v <= 1)%Q.
Proof.
  destruct (scale_value_unit_interval (mk_dist 0 5 0 0 0 0 0 (-1) 100) (1 # 2))
    as (v & Hv & Hr & _); [reflexivity|].
  exists v. split; assumption.
Defined.

(** X2. When [scale_min < scale_max], [scale_value] is monotone: a larger
    raw value never gets a smaller scaled value. *)
Theorem scale_value_monotone dist x y vx vy :
  (scale_min dist < scale_max dist)%Q ->
  (x <= y)%Q ->
  scale_value dist x = Ok vx ->
  scale_value dist y = Ok vy ->
  (vx <= vy)%Q.
Proof.
  intros Hlt Hxy Hx Hy.
  set (d := (scale_max dist - scale_min dist)%Q).
  assert (Hd : (0 < d)%Q) by (subst d; lra).
  destruct (scale_value_cases dist x Hlt) as [[H1 E1]|[[H1 E1]|[H1 E1]]];
    destruct (scale_value_cases dist y Hlt) as [[H2 E2]|[[H2 E2]|[H2 E2]]];
    rewrite E1 in Hx; rewrite E2 in Hy;
    injection Hx as <-; injection Hy as <-; try lra.
  - apply (Qdiv_unit (y - scale_min dist) d); [subst d; lra | exact Hd].
  - apply (Qdiv_unit (x - scale_min dist) d); [subst d; lra | exact Hd].
  - fold d. unfold Qdiv. apply Qmult_le_compat_r; [lra|].
    apply Qlt_le_weak, Qinv_lt_0_compat. exact Hd.
Qed.

Lemma scale_value_monotone_witness : (3 # 202 <= 1)%Q.
Proof.
  apply (scale_value_monotone (mk_dist 0 5 0 0 0 0 0 (-1) 100) (1 # 2) 500);
    [reflexivity | discriminate | reflexivity | reflexivity].
Defined.

(* ------------------------------------------------------------------ *)
(** ** Mask strings *)

Lemma testbit_1 k : Z.testbit 1 k = (k =? 0).
Proof.
  destruct k as [|p|p]; reflexivity.
Qed.

Lemma testbit_set_bit m i j :
  0 <= j -> Z.testbit (Z.lor m (Z.shiftl 1 i)) j = Z.testbit m j || (j =? i).
Proof.
  intros Hj. rewrite Z.lor_spec, Z.shiftl_spec by exact Hj.
  rewrite testbit_1. f_equal.
  destruct (Z.eq_dec j i) as [->|Hne].
  - rewrite Z.sub_diag, (Z.eqb_refl i). reflexivity.
  - replace (j =? i) with false by (symmetry; apply Z.eqb_neq; exact Hne).
    apply Z.eqb_neq. lia.
Qed.

Lemma get_cons_pos ch rest n :
  (0 < n)%nat -> String.get n (String ch rest) = String.get (n - 1) rest.
Proof.
  destruct n as [|n]; [lia|]. intros _.
  replace (S n - 1)%nat with n by lia. reflexivity.
Qed.

Lemma parse_mask_from_bits str :
  forall i m j,
    0 <= i -> 0 <= j ->
    Z.testbit (parse_mask_from str i m) j
    = Z.testbit m j || ((i <=? j) && is_one_at str (Z.to_nat (j - i))).
Proof.
  induction str as [|ch rest IH]; intros i m j Hi Hj; cbn [parse_mask_from].
  - unfold is_one_at. cbn [String.get]. now rewrite andb_false_r, orb_false_r.
  - rewrite IH by lia.
    destruct (Z.eq_dec j i) as [->|Hne].
    + replace (i + 1 <=? i) with false by (symmetry; apply Z.leb_gt; lia).
      rewrite Z.leb_refl, Z.sub_diag. unfold is_one_at. cbn [Z.to_nat String.get andb].
      destruct (Ascii.eqb ch "1").
      * rewrite testbit_set_bit by lia. now rewrite Z.eqb_refl, !orb_true_r.
      * now rewrite !orb_false_r.
    + assert (Hm : Z.testbit (if Ascii.eqb ch "1"
                              then Z.lor m (Z.shiftl 1 i) else m) j
                   = Z.testbit m j).
      { destruct (Ascii.eqb ch "1"); [|reflexivity].
        rewrite testbit_set_bit by lia.
        replace (j =? i) with false by (symmetry; apply Z.eqb_neq; exact Hne).
        apply orb_false_r. }
      rewrite Hm. f_equal.
      destruct (Z.lt_ge_cases j i) as [Hlt|Hge].
      * replace (i + 1 <=? j) with false by (symmetry; apply Z.leb_gt; lia).
        now replace (i <=? j) with false by (symmetry; apply Z.leb_gt; lia).
      * replace (i + 1 <=? j) with true by (symmetry; apply Z.leb_le; lia).
        replace (i <=? j) with true by (symmetry; apply Z.leb_le; lia).
        cbn [andb]. unfold is_one_at.
        rewrite (get_cons_pos ch rest (Z.to_nat (j - i))) by lia.
        now replace (Z.to_nat (j - (i + 1))) with (Z.to_nat (j - i) - 1)%nat
          by lia.
Qed.

Lemma parse_mask_from_nonneg str :
  forall i m, 0 <= i -> 0 <= m -> 0 <= parse_mask_from str i m.
Proof.
  induction str as [|ch rest IH]; intros i m Hi Hm; cbn [parse_mask_from];
    [exact Hm|].
  apply IH; [lia|]. destruct (Ascii.eqb ch "1"); [|exact Hm].
  apply Z.lor_nonneg. split; [exact Hm|]. apply Z.shiftl_nonneg. lia.
Qed.

Lemma get_beyond str n :
  (String.length str <= n)%nat -> String.get n str = None.
Proof.
  revert n. induction str as [|ch rest IH]; intros n Hn; [reflexivity|].
  cbn [String.length] in Hn. destruct n as [|n]; [lia|].
  cbn [String.get]. apply IH. lia.
Qed.

Lemma bits_below n x :
  0 <= n -> 0 <= x -> (forall j, n <= j -> Z.testbit x j = false) -> x < 2 ^ n.
Proof.
  intros Hn Hx Hbits.
  destruct (Z.eq_dec x 0) as [->|Hne]; [apply Z.pow_pos_nonneg; lia|].
  destruct (Z.lt_ge_cases x (2 ^ n)) as [H|H]; [exact H|].
  assert (Hpos : 0 < x) by lia.
  apply (Z.log2_le_pow2 x n Hpos) in H.
  pose proof (Z.bit_log2 x Hpos) as Hb. rewrite (Hbits _ H) in Hb.
  discriminate Hb.
Qed.

(** X3. For a mask string of at most 31 characters, [parse_mask] returns
    a non-negative [int] whose bit [j] is set exactly when the character at
    position [j] is ['1']. *)
Theorem parse_mask_bits str :
  (String.length str <= 31)%nat ->
  0 <= parse_mask str < 2 ^ 31
  /\ forall j, 0 <= j ->
       Z.testbit (parse_mask str) j = is_one_at str (Z.to_nat j).
Proof.
  intros Hlen.
  assert (Hbits : forall j, 0 <= j ->
            Z.testbit (parse_mask str) j = is_one_at str (Z.to_nat j)).
  { intros j Hj. unfold parse_mask. rewrite parse_mask_from_bits by lia.
    rewrite Z.testbit_0_l, Z.sub_0_r. cbn [orb].
    now replace (0 <=? j) with true by (symmetry; apply Z.leb_le; exact Hj). }
  assert (Hpos : 0 <= parse_mask str)
    by (apply parse_mask_from_nonneg; lia).
  split; [|exact Hbits]. split; [exact Hpos|].
  apply bits_below; [lia | exact Hpos |].
  intros j Hj. rewrite Hbits by lia. unfold is_one_at.
  rewrite get_beyond by lia. reflexivity.
Qed.

Lemma parse_mask_bits_witness :
  0 <= parse_mask "010" < 2 ^ 31
  /\ Z.testbit (parse_mask "010") 1 = is_one_at "010" (Z.to_nat 1).
Proof.
  destruct (parse_mask_bits "010") as [Hr Hb]; [cbn; lia|].
  split; [exact Hr | apply Hb; lia].
Defined.

Lemma str_mask_set_from_spec str :
  forall i mask,
    (str_mask_set_from str i mask = 1
     /\ exists j, (j < binary_run str)%nat
                  /\ is_one_at str j = true
                  /\ Z.land mask (Z.shiftl (i + Z.of_nat j) 1) <> 0)
    \/ (str_mask_set_from str i mask = 0
        /\ forall j, (j < binary_run str)%nat ->
                     is_one_at str j = true ->
                     Z.land mask (Z.shiftl (i + Z.of_nat j) 1) = 0).
Proof.
  induction str as [|ch rest IH]; intros i mask;
    cbn [str_mask_set_from binary_run].
  - right. split; [reflexivity|]. intros j Hj. lia.
  - destruct (Ascii.eqb ch "0" || Ascii.eqb ch "1") eqn:Hbin.
    + destruct (Ascii.eqb ch "1" && negb (Z.land mask (Z.shiftl i 1) =? 0))
        eqn:Hhit.
      * left. split; [reflexivity|]. exists 0%nat.
        apply andb_true_iff in Hhit. destruct Hhit as [H1 H2].
        split; [lia|]. split; [unfold is_one_at; cbn; exact H1|].
        rewrite Z.add_0_r. apply negb_true_iff, Z.eqb_neq in H2. exact H2.
      * destruct (IH (i + 1) mask) as [[Hr (j & Hj & H1 & Hm)]|[Hr Hall]].
        -- left. split; [exact Hr|]. exists (S j).
           split; [lia|]. split; [exact H1|].
           now replace (i + Z.of_nat (S j)) with (i + 1 + Z.of_nat j) by lia.
        -- right. split; [exact Hr|]. intros [|j] Hj H1.
           ++ unfold is_one_at in H1. cbn in H1. rewrite H1 in Hhit.
              cbn [andb] in Hhit. apply negb_false_iff, Z.eqb_eq in Hhit.
              now rewrite Z.add_0_r.
           ++ replace (i + Z.of_nat (S j)) with (i + 1 + Z.of_nat j) by lia.
              apply Hall; [lia | exact H1].
    + right. split; [reflexivity|]. intros j Hj. lia.
Qed.

(** X4. [str_mask_set] returns 0 or 1. It returns 1 exactly when some
    position [j] of the leading run of binary digits carries a ['1'] and
    [mask & (j<<1)] is not zero: the position is tested against the mask
    through its index shifted left by one. *)
Theorem str_mask_set_spec str mask :
  (str_mask_set str mask = 0 \/ str_mask_set str mask = 1)
  /\ (str_mask_set str mask = 1 <->
      exists j, (j < binary_run str)%nat
                /\ is_one_at str j = true
                /\ Z.land mask (Z.shiftl (Z.of_nat j) 1) <> 0).
Proof.
  unfold str_mask_set.
  destruct (str_mask_set_from_spec str 0 mask)
    as [[Hr (j & Hj & H1 & Hm)]|[Hr Hall]]; rewrite Hr.
  - split; [now right|]. split; [|reflexivity].
    intros _. exists j. auto.
  - split; [now left|]. split; [discriminate|].
    intros (j & Hj & H1 & Hm). exfalso. apply Hm.
    apply (Hall j Hj H1).
Qed.

(* ------------------------------------------------------------------ *)
(** ** The variant class *)

(** X5. The class that [determine_variant_class] returns is 0, 1 or 2,
    an index of the three counters of the evaluation; it is never 2 for a
    SNP, and it is 2 for every indel when no indel context was opened. *)
Theorem determine_variant_class_range
    (bcf_acgt2int : ascii -> Z)
    (indel_ctx_type :
       indel_ctx_t -> string -> Z -> string -> string -> Z * Z * Z)
    (args : args_t) :
  let cls := determine_variant_class bcf_acgt2int indel_ctx_type args in
  (cls = 0 \/ cls = 1 \/ cls = 2)
  /\ (filt_type args = VCF_SNP -> cls <> 2)
  /\ (filt_type args = VCF_INDEL -> indel_ctx args = None -> cls = 2).
Proof.
  unfold determine_variant_class.
  destruct (filt_type args).
  - destruct (_ =? 2); (split; [auto|]); (split; [discriminate|]);
      discriminate.
  - destruct (indel_ctx args) as [ctx|].
    + destruct (indel_ctx_type _ _ _ _ _) as [[ndel nrep] nlen].
      destruct ((nlen <=? 1) || (nrep <=? 1));
        [|destruct (negb _)]; (split; [auto|]); (split; discriminate).
    + split; [auto|]. split; [discriminate | reflexivity].
Qed.

(* ------------------------------------------------------------------ *)
(** ** Normalization with a single map *)

(** X6. With a single map ([nsom = 1], the default) and counts that are
    not negative, [som_norm] divides the counts by their maximum: every
    normalized count lies in [0,1], and the counts are all 0 or one of
    them is 1. *)
Theorem som_norm_single_map som :
  nsom som = 1 ->
  0 <= nbin som ->
  nbin som * nbin som <= Z.of_nat (List.length (c som)) ->
  (forall i, 0 <= i < nbin som * nbin som -> (0 <= rd 0%Q (c som) i)%Q) ->
  let cs' := c (som_norm som) in
  (forall i, 0 <= i < nbin som * nbin som -> (0 <= rd 0%Q cs' i <= 1)%Q)
  /\ ((forall i, 0 <= i < nbin som * nbin som -> (rd 0%Q cs' i == 0)%Q)
      \/ exists i, 0 <= i < nbin som * nbin som /\ (rd 0%Q cs' i == 1)%Q).
Proof.
  intros Hs Hn Hlen Hpos cs'.
  assert (E : cs' = som_norm_map (nbin som * nbin som) 0 (c som)).
  { subst cs'. unfold som_norm, for_. rewrite Hs. reflexivity. }
  rewrite E. apply som_norm_first_map; [nia | exact Hlen | exact Hpos].
Qed.

Lemma som_norm_single_map_witness :
  (rd 0%Q (c (som_norm som_one_cell)) 0 <= 1)%Q.
Proof.
  destruct (som_norm_single_map som_one_cell) as [Hr _];
    [reflexivity | cbn; lia | cbn; lia | |].
  - intros i Hi. cbn in Hi.
    assert (Hc : i = 0 \/ i = 1 \/ i = 2 \/ i = 3) by lia.
    destruct Hc as [H|[H|[H|H]]]; subst i; cbn; discriminate.
  - apply Hr. cbn. lia.
Defined.

(* ------------------------------------------------------------------ *)
(** ** The distance query *)

Lemma sq_dist_nonneg kdim vec wgt ptr : (0 <= sq_dist kdim vec wgt ptr)%Q.
Proof.
  unfold sq_dist, for_.
  assert (H : forall n i acc, (0 <= acc)%Q ->
            (0 <= loop n i
                    (fun k dist =>
                       (dist + (rd 0 vec k - rd 0 wgt (ptr + k))
                               * (rd 0 vec k - rd 0 wgt (ptr + k)))%Q) acc)%Q).
  { induction n as [|n IH]; intros i acc Hacc; cbn [loop]; [exact Hacc|].
    apply IH.
    assert (Hsq : forall x : Q, (0 <= x * x)%Q) by (intros x; nra).
    specialize (Hsq (rd 0 vec i - rd 0 wgt (ptr + i))%Q). lra. }
  apply H. lra.
Qed.

(** X7. [som_calc_dist] returns [HUGE_VAL] exactly when no cell of any map
    has a count of at least the activation threshold; every other result
    is a squared distance, hence not negative. *)
Theorem som_calc_dist_huge_iff som vec :
  0 <= nsom som ->
  0 <= nbin som ->
  (som_calc_dist som vec = HUGE_VAL <->
   forall q, 0 <= q < nsom som * (nbin som * nbin som) ->
             ~ activated som q)
  /\ (forall x, som_calc_dist som vec = Fin x -> (0 <= x)%Q).
Proof.
  intros Hs Hn.
  destruct (som_calc_dist_nearest som vec Hs Hn) as [Hle Hex].
  destruct (som_calc_dist som vec) as [x|]; split.
  - split; [discriminate|]. intros Hnone.
    destruct Hex as (q & Hq & Hact & _). destruct (Hnone q Hq Hact).
  - intros y Hy. injection Hy as <-.
    destruct Hex as (q & _ & _ & ->). apply sq_dist_nonneg.
  - split; [|reflexivity]. intros _ q Hq Hact. exact (Hle q Hq Hact).
  - intros y Hy. discriminate Hy.
Qed.

Lemma som_calc_dist_huge_iff_witness :
  som_calc_dist som_fresh_two [1%Q] = HUGE_VAL.
Proof.
  apply (som_calc_dist_huge_iff som_fresh_two [1%Q]); [cbn; lia | cbn; lia |].
  intros q Hq. cbn in Hq. unfold activated.
  assert (Hc : q = 0 \/ q = 1 \/ q = 2 \/ q = 3 \/ q = 4 \/ q = 5 \/ q = 6
               \/ q = 7) by lia.
  destruct Hc as [H|[H|[H|[H|[H|[H|[H|H]]]]]]]; subst q; discriminate.
Defined.

(* ------------------------------------------------------------------ *)
(** ** The best matching unit *)

Section BestMatchingUnit.

Variables (som : som_t) (vec : list Q) (ptr : Z).

Hypothesis nbin_pos : 1 <= nbin som.

Local Abbreviation n := (nbin som).
Local Abbreviation dcell q := (sq_dist (kdim som) vec (w som) (ptr + q * kdim som)).

Lemma find_bmu_invariant :
  let b := find_bmu som vec ptr in
  let p := b_imin b * n + b_jmin b in
  0 <= b_imin b < n
  /\ 0 <= b_jmin b < n
  /\ b_min_dist b = Fin (dcell p)
  /\ (forall q, 0 <= q < n * n -> (dcell p <= dcell q)%Q)
  /\ (forall q, 0 <= q < p -> (dcell p < dcell q)%Q).
Proof.
  assert (H : (fun k (st : bmu_t) =>
            b_ptr st = ptr + k * kdim som
            /\ (k = 0 -> b_min_dist st = HUGE_VAL)
            /\ (0 < k ->
                let p := b_imin st * n + b_jmin st in
                0 <= b_imin st < n /\ 0 <= b_jmin st < n /\ p < k
                /\ b_min_dist st = Fin (dcell p)
                /\ (forall q, 0 <= q < k -> (dcell p <= dcell q)%Q)
                /\ (forall q, 0 <= q < p -> (dcell p < dcell q)%Q)))
           (n * n) (find_bmu som vec ptr)).
  { unfold find_bmu. apply for2_invariant; [lia | lia | |].
    - cbn [b_ptr b_min_dist]. split; [lia|]. split; [reflexivity | lia].
    - intros i j st Hi Hj (Hp & H0 & Hk).
      rewrite Hp.
      assert (Hp0 : 0 <= i * n + j) by nia.
      destruct (Z.eq_dec (i * n + j) 0) as [Hz|Hnz].
      + rewrite (H0 Hz). cbn [lt_x b_ptr b_min_dist b_imin b_jmin].
        split; [lia|]. split; [lia|]. intros _. cbn zeta.
        split; [lia|]. split; [lia|]. split; [lia|].
        split; [reflexivity|]. split.
        * intros q Hq. replace q with (i * n + j) by lia. lra.
        * intros q Hq. lia.
      + destruct Hk as (Him & Hjm & Hlt & Hmin & Hle & Hfirst); [lia|].
        rewrite Hmin. cbn [lt_x].
        destruct (Qltb (dcell (i * n + j))
                    (dcell (b_imin st * n + b_jmin st))) eqn:E;
          cbn [b_ptr b_min_dist b_imin b_jmin].
        * apply Qltb_lt in E.
          split; [lia|]. split; [lia|]. intros _. cbn zeta.
          split; [lia|]. split; [lia|]. split; [lia|].
          split; [reflexivity|]. split.
          -- intros q Hq. destruct (Z.eq_dec q (i * n + j)) as [->|Hne];
               [lra|]. specialize (Hle q ltac:(lia)). lra.
          -- intros q Hq. specialize (Hle q ltac:(lia)). lra.
        * apply Qltb_ge in E.
          split; [lia|]. split; [lia|]. intros _. cbn zeta.
          split; [lia|]. split; [lia|]. split; [lia|].
          split; [reflexivity|]. split; [|exact Hfirst].
          intros q Hq. destruct (Z.eq_dec q (i * n + j)) as [->|Hne];
            [exact E|]. apply Hle. lia. }
  cbn beta in H. destruct H as (_ & _ & H).
  destruct H as (Him & Hjm & _ & Hmin & Hle & Hfirst); [nia|].
  cbn zeta. auto.
Qed.

(** X8. In a grid of at least one bin, the search of [som_train] returns
    a cell (imin, jmin) of the grid whose prototype is at the least squared
    distance from the vector among all cells of the map, and which is the
    first such cell in scan order: every cell scanned before it is strictly
    farther. *)
Theorem find_bmu_first_minimum :
  let b := find_bmu som vec ptr in
  let p := b_imin b * nbin som + b_jmin b in
  let d q := sq_dist (kdim som) vec (w som) (ptr + q * kdim som) in
  0 <= b_imin b < nbin som
  /\ 0 <= b_jmin b < nbin som
  /\ b_min_dist b = Fin (d p)
  /\ (forall q, 0 <= q < nbin som * nbin som -> (d p <= d q)%Q)
  /\ (forall q, 0 <= q < p -> (d p < d q)%Q).
Proof.
  exact find_bmu_invariant.
Qed.

End BestMatchingUnit.

Lemma find_bmu_first_minimum_witness :
  b_min_dist (find_bmu som_fresh_two [1%Q] 4)
  = Fin (sq_dist 1 [1%Q] (w som_fresh_two)
           (4 + (b_imin (find_bmu som_fresh_two [1%Q] 4) * 2
                 + b_jmin (find_bmu som_fresh_two [1%Q] 4)) * 1)).
Proof.
  destruct (find_bmu_first_minimum som_fresh_two [1%Q] 4) as (_ & _ & H & _);
    [cbn; lia|].
  exact H.
Defined.

(* ------------------------------------------------------------------ *)
(** ** The selection of the map *)

(** X9. With two maps or more and a value [r] of [random()] between 0 and
    [RAND_MAX], a training step fails its assertion [jsom < nsom] exactly
    when [r = RAND_MAX]; for every smaller [r] it trains the map
    [floor (nsom * r / RAND_MAX)]. *)
Theorem som_train_aborts_iff
    (exp : Q -> Q) (random_seq : Z -> nat -> Z) som vec g :
  let r := random_seq (rng_seed g) (rng_calls g) in
  2 <= nsom som ->
  0 <= r <= RAND_MAX ->
  (som_train exp random_seq som vec g = Err Err_assert <-> r = RAND_MAX)
  /\ (r < RAND_MAX ->
      0 <= Z.quot (nsom som * r) RAND_MAX < nsom som
      /\ som_train exp random_seq som vec g
         = Ok (som_train_map exp som vec (Z.quot (nsom som * r) RAND_MAX),
               mk_rng (rng_seed g) (S (rng_calls g)))).
Proof.
  intros r Hs Hr. assert (HM : 0 < RAND_MAX) by reflexivity.
  unfold som_train, select_map, random. fold r.
  replace (nsom som =? 1) with false by (symmetry; apply Z.eqb_neq; lia).
  rewrite to_int_scaled.
  destruct (Z.eq_dec r RAND_MAX) as [E|E].
  - rewrite E, Z.quot_mul by lia. rewrite Z.ltb_irrefl.
    split; [split; auto | lia].
  - assert (Hq : 0 <= Z.quot (nsom som * r) RAND_MAX < nsom som).
    { rewrite Z.quot_div_nonneg by nia. split.
      - apply Z.div_pos; nia.
      - apply Z.div_lt_upper_bound; nia. }
    replace (Z.quot (nsom som * r) RAND_MAX <? nsom som) with true
      by (symmetry; apply Z.ltb_lt; lia).
    split; [split; [discriminate | contradiction]|].
    intros _. split; [exact Hq | reflexivity].
Qed.

Lemma som_train_aborts_iff_witness :
  som_train exp_stub (random_const RAND_MAX) som_fresh_two [1%Q] (srandom 1)
  = Err Err_assert.
Proof.
  apply (som_train_aborts_iff exp_stub (random_const RAND_MAX) som_fresh_two
           [1%Q] (srandom 1)); [cbn; lia | unfold random_const, RAND_MAX; lia |].
  reflexivity.
Defined.

(* ------------------------------------------------------------------ *)
(** ** What a training step keeps *)

Section TrainStepFrame.

Variable exp : Q -> Q.
Variables (som : som_t) (vec : list Q) (jsom : Z).

Hypothesis nbin_nonneg : 0 <= nbin som.
Hypothesis kdim_nonneg : 0 <= kdim som.
Hypothesis jsom_nonneg : 0 <= jsom.
Hypothesis w_allocated :
  nbin som * nbin som * kdim som <= Z.of_nat (List.length (w som)).
Hypothesis c_allocated :
  (jsom + 1) * (nbin som * nbin som) <= Z.of_nat (List.length (c som)).

Lemma som_train_map_lengths :
  List.length (w (som_train_map exp som vec jsom)) = List.length (w som)
  /\ List.length (c (som_train_map exp som vec jsom)) = List.length (c som).
Proof.
  unfold som_train_map. cbn [w c set_som_wc].
  match goal with
  | |- context [u_w ?u] =>
      assert (Hinv : update_invariant exp som vec jsom
                       (nbin som * nbin som) u)
  end.
  { apply (for2_invariant (update_invariant exp som vec jsom));
      [exact nbin_nonneg | exact nbin_nonneg | |].
    - unfold update_invariant. cbn [u_w u_c u_ptr u_cnt].
      repeat split; try reflexivity; lia.
    - intros i j st Hi Hj Hst. now apply update_cell_invariant. }
  destruct Hinv as (_ & _ & Hlw & Hlc & _). split; assumption.
Qed.

(** X10. A training step on the map [jsom] keeps the shape of the model:
    the parameters and the lengths of the weight, count and clock arrays
    are as before; it advances the clock of the map [jsom] by one and
    leaves the clock of every other map as it was. *)
Theorem som_train_map_frame :
  let som' := som_train_map exp som vec jsom in
  (nsom som' = nsom som /\ nbin som' = nbin som /\ kdim som' = kdim som
   /\ nt som' = nt som /\ learn som' = learn som /\ th som' = th som)
  /\ List.length (w som') = List.length (w som)
  /\ List.length (c som') = List.length (c som)
  /\ List.length (t som') = List.length (t som)
  /\ (jsom < Z.of_nat (List.length (t som)) ->
      rd 0 (t som') jsom = rd 0 (t som) jsom + 1)
  /\ (forall j, 0 <= j -> j <> jsom -> rd 0 (t som') j = rd 0 (t som) j).
Proof.
  intros som'. destruct som_train_map_lengths as [Hlw Hlc].
  split; [repeat split|]. split; [exact Hlw|]. split; [exact Hlc|].
  subst som'. unfold som_train_map. cbn [t set_som_wc].
  split; [apply wr_length|]. split.
  - intros Hj. apply rd_wr_same. lia.
  - intros j Hj Hne. apply rd_wr_other; [exact Hj | congruence].
Qed.

End TrainStepFrame.

Lemma som_train_map_frame_witness :
  rd 0 (t (som_train_map exp_stub som_fresh_two [1%Q] 1)) 1
  = rd 0 (t som_fresh_two) 1 + 1
  /\ rd 0 (t (som_train_map exp_stub som_fresh_two [1%Q] 1)) 0
     = rd 0 (t som_fresh_two) 0.
Proof.
  destruct (som_train_map_frame exp_stub som_fresh_two [1%Q] 1)
    as (_ & _ & _ & _ & Hj & Hother); try (cbn; lia).
  split; [apply Hj; cbn; lia | apply Hother; lia].
Defined.

(* ------------------------------------------------------------------ *)
(** ** The initial weights *)

Lemma unit_fraction r :
  0 <= r <= RAND_MAX -> (0 <= of_int r / of_int RAND_MAX <= 1)%Q.
Proof.
  intros Hr. apply Qdiv_unit; [|reflexivity].
  unfold of_int. split.
  - change 0%Q with (inject_Z 0). rewrite <- Zle_Qle. lia.
  - rewrite <- Zle_Qle. lia.
Qed.

Section InitialWeights.

Variable random_seq : Z -> nat -> Z.

Hypothesis random_range : forall seed k, 0 <= random_seq seed k <= RAND_MAX.

(** X11. When [random()] returns values between 0 and [RAND_MAX],
    [som_init_rand] with a seed that is not negative leaves every weight of
    the map between 0 and 1, takes exactly one value of the generator per
    weight after seeding it, and changes neither the counts nor the
    clocks. *)
Theorem som_init_rand_unit_weights som seed g :
  let n3 := nbin som * nbin som * kdim som * nsom som in
  let r := som_init_rand random_seq som seed g in
  0 <= seed ->
  0 <= n3 <= Z.of_nat (List.length (w som)) ->
  (forall i, 0 <= i < n3 -> (0 <= rd 0%Q (w (fst r)) i <= 1)%Q)
  /\ snd r = mk_rng seed (Z.to_nat n3)
  /\ c (fst r) = c som
  /\ t (fst r) = t som.
Proof.
  intros n3 r Hseed Hn3. subst r. unfold som_init_rand. fold n3.
  replace (0 <=? seed) with true by (symmetry; apply Z.leb_le; exact Hseed).
  assert (H : (fun k (st : list Q * rng_t) =>
            List.length (fst st) = List.length (w som)
            /\ snd st = mk_rng seed (Z.to_nat k)
            /\ forall i, 0 <= i < k -> (0 <= rd 0%Q (fst st) i <= 1)%Q)
           n3
           (for_ n3
              (fun i (st : list Q * rng_t) =>
                 let (r, g') := random random_seq (snd st) in
                 (wr (fst st) i (of_int r / of_int RAND_MAX)%Q, g'))
              (w som, srandom seed))).
  { apply for_invariant; [lia | |].
    - cbn [fst snd]. split; [reflexivity|]. split; [reflexivity|].
      intros i Hi. lia.
    - intros k [wk gk] Hk (Hl & Hg & Hw). cbn [fst snd] in *.
      unfold random. rewrite Hg. cbn [rng_seed rng_calls fst snd].
      split; [now rewrite wr_length|]. split; [f_equal; lia|].
      intros i Hi. destruct (Z.eq_dec i k) as [->|Hne].
      + rewrite rd_wr_same by lia. apply unit_fraction, random_range.
      + rewrite rd_wr_other by lia. apply Hw. lia. }
  cbn beta in H. destruct (for_ n3 _ _) as [w' g'].
  cbn [fst snd] in *. destruct H as (_ & Hg & Hw).
  split; [exact Hw|]. split; [exact Hg|]. split; reflexivity.
Qed.

End InitialWeights.

Lemma som_init_rand_unit_weights_witness :
  snd (som_init_rand (random_const 12345) som_fresh_two 1 (srandom 7))
  = mk_rng 1 8.
Proof.
  destruct (som_init_rand_unit_weights (random_const 12345)) with
    (som := som_fresh_two) (seed := 1) (g := srandom 7) as (_ & Hg & _);
    [intros; unfold random_const, RAND_MAX; lia | lia | cbn; lia |].
  exact Hg.
Defined.

(* ------------------------------------------------------------------ *)
(** ** The reservoirs never overflow *)

Section ReservoirBounds.

Variable random_seq : Z -> nat -> Z.

Lemma pick_slot_count n cap g :
  0 <= n <= cap ->
  let '(_, n', _) := pick_slot random_seq n cap g in n <= n' <= n + 1 /\ n' <= cap.
Proof.
  intros Hn. unfold pick_slot. destruct (n <? cap) eqn:E.
  - apply Z.ltb_lt in E. lia.
  - destruct (random random_seq g). lia.
Qed.

Lemma sample_row_within fixed_max learn_max lf ll st :
  within_capacity fixed_max learn_max lf ll st ->
  within_capacity fixed_max learn_max lf ll
    (sample_row random_seq fixed_max learn_max st)
  /\ r_nfixed st <= r_nfixed (sample_row random_seq fixed_max learn_max st)
     <= r_nfixed st + 1
  /\ r_nlearn st <= r_nlearn (sample_row random_seq fixed_max learn_max st)
     <= r_nlearn st + 1.
Proof.
  intros (Hf & Hl & Hlf & Hll). unfold sample_row.
  destruct (negb (nset (r_args st) =? nann (r_args st)));
    [unfold within_capacity; repeat split; auto; lia|].
  destruct (negb (IS_GOOD (mask (r_args st)))).
  - destruct (filt_learn (r_args st)) as [flt|];
      [|unfold within_capacity; repeat split; auto; lia].
    destruct (learn_max =? 0);
      [unfold within_capacity; repeat split; auto; lia|].
    destruct (negb (failed_filters flt (vals (r_args st)) =? 0));
      [unfold within_capacity; repeat split; auto; lia|].
    pose proof (pick_slot_count (r_nlearn st) learn_max (r_rng st) Hl) as Hp.
    destruct (pick_slot random_seq (r_nlearn st) learn_max (r_rng st))
      as [[i n'] g'].
    unfold within_capacity. cbn [r_nfixed r_nlearn r_fixed r_learn].
    rewrite store_vector_length. repeat split; auto; lia.
  - destruct (fixed_max =? 0);
      [unfold within_capacity; repeat split; auto; lia|].
    pose proof (pick_slot_count (r_nfixed st) fixed_max (r_rng st) Hf) as Hp.
    destruct (pick_slot random_seq (r_nfixed st) fixed_max (r_rng st))
      as [[i n'] g'].
    unfold within_capacity. cbn [r_nfixed r_nlearn r_fixed r_learn].
    rewrite store_vector_length. repeat split; auto; lia.
Qed.

(** X12. The sampling loop of [som_init] never overfills a reservoir:
    from counters within the capacities, after any rows that it reads
    without a fatal error the counters are still within the capacities,
    none has decreased, each has grown by at most the number of rows, and
    the buffers have kept their lengths. *)
Theorem sample_rows_within_capacity fixed_max learn_max rows :
  forall st st',
    0 <= r_nfixed st <= fixed_max ->
    0 <= r_nlearn st <= learn_max ->
    sample_rows random_seq fixed_max learn_max rows st = Ok st' ->
    r_nfixed st <= r_nfixed st' <= fixed_max
    /\ r_nlearn st <= r_nlearn st' <= learn_max
    /\ r_nfixed st' <= r_nfixed st + Z.of_nat (List.length rows)
    /\ r_nlearn st' <= r_nlearn st + Z.of_nat (List.length rows)
    /\ List.length (r_fixed st') = List.length (r_fixed st)
    /\ List.length (r_learn st') = List.length (r_learn st).
Proof.
  induction rows as [|ln rest IH]; intros st st' Hf Hl Hrun;
    cbn [sample_rows] in Hrun.
  - injection Hrun as <-. cbn [List.length]. repeat split; lia.
  - destruct (annots_reader_next (r_args st) ln) as [args|e];
      cbn [bind] in Hrun; [|discriminate].
    destruct (sample_row_within fixed_max learn_max
                (List.length (r_fixed st)) (List.length (r_learn st))
                (set_res_args st args))
      as ((Hf1 & Hl1 & Hlf1 & Hll1) & Hgf & Hgl).
    { unfold within_capacity. cbn. repeat split; auto; lia. }
    cbn [set_res_args r_nfixed r_nlearn] in Hgf, Hgl.
    specialize (IH _ _ Hf1 Hl1 Hrun).
    destruct IH as (H1 & H2 & H3 & H4 & H5 & H6).
    cbn [List.length]. rewrite H5, H6, Hlf1, Hll1.
    repeat split; try reflexivity; lia.
Qed.

End ReservoirBounds.

Lemma sample_rows_within_capacity_witness :
  match sample_rows (random_const 12345) 1 0 [line_qual_5; line_qual_7]
          (res_start args_qual 1 0 (srandom 1)) with
  | Ok st' => r_nfixed st' <= 1
  | Err _ => True
  end.
Proof.
  destruct (sample_rows (random_const 12345) 1 0 [line_qual_5; line_qual_7]
              (res_start args_qual 1 0 (srandom 1))) as [st'|e] eqn:E;
    [|exact I].
  apply (sample_rows_within_capacity (random_const 12345) 1 0
           [line_qual_5; line_qual_7] (res_start args_qual 1 0 (srandom 1)) st');
    [cbn; lia | cbn; lia | exact E].
Defined.

(* ------------------------------------------------------------------ *)
(** ** The failure mask of a filter set *)

Lemma loop_as_fold {St} (body : Z -> St -> St) :
  forall n a s,
    loop n (Z.of_nat a) body s
    = fold_left (fun s k => body k s) (map Z.of_nat (seq a n)) s.
Proof.
  induction n as [|n IH]; intros a s; cbn [loop seq map fold_left];
    [reflexivity|].
  replace (Z.of_nat a + 1) with (Z.of_nat (S a)) by lia. apply IH.
Qed.

Lemma for_as_fold {St} (body : Z -> St -> St) n s :
  for_ n body s = fold_left (fun s k => body k s) (zrange n) s.
Proof.
  unfold for_, zrange. apply (loop_as_fold body (Z.to_nat n) 0).
Qed.

Lemma fold_left_flat_map {A B St} (f : St -> B -> St) (g : A -> list B) :
  forall l s,
    fold_left f (flat_map g l) s
    = fold_left (fun s x => fold_left f (g x) s) l s.
Proof.
  induction l as [|x l IH]; intros s; cbn [flat_map fold_left];
    [reflexivity|].
  rewrite fold_left_app. apply IH.
Qed.

Lemma fold_left_ext_in {A St} (f g : St -> A -> St) l :
  (forall s x, f s x = g s x) -> forall s, fold_left f l s = fold_left g l s.
Proof.
  intros H. induction l as [|x l IH]; intros s; cbn [fold_left];
    [reflexivity|]. rewrite H. apply IH.
Qed.

Lemma fold_left_mapped {A B St} (f : St -> B -> St) (g : A -> B) :
  forall l s,
    fold_left f (map g l) s = fold_left (fun s x => f s (g x)) l s.
Proof.
  induction l as [|x l IH]; intros s; cbn [map fold_left]; auto.
Qed.

Lemma failed_filters_as_fold flt vec :
  failed_filters flt vec
  = ff_failed
      (fold_left
         (fun st x => failed_filters_case vec (fst x) (snd x) st)
         (flat_filters flt) (mk_ff 0 0)).
Proof.
  unfold failed_filters, flat_filters. rewrite for_as_fold.
  rewrite fold_left_flat_map. f_equal.
  apply fold_left_ext_in. intros st i.
  rewrite fold_left_mapped. cbn [fst snd].
  destruct (rd 0 (nfilt flt) i =? 0) eqn:E.
  - apply Z.eqb_eq in E. rewrite E. reflexivity.
  - apply for_as_fold.
Qed.

Lemma failed_filters_case_spec vec i f st :
  failed_filters_case vec i f st
  = mk_ff (if filter_fails vec i f
           then set_bit (ff_failed st) (ff_k st) else ff_failed st)
      (ff_k st + 1).
Proof.
  unfold failed_filters_case, filter_fails.
  destruct (f_type f =? FLT_BE); [reflexivity|].
  destruct (f_type f =? FLT_BT); [reflexivity|].
  destruct (f_type f =? FLT_EQ); [reflexivity|].
  destruct (f_type f =? FLT_LT); [reflexivity|].
  destruct (f_type f =? FLT_LE); reflexivity.
Qed.

Lemma failed_fold_bits vec :
  forall l st j,
    0 <= ff_k st -> 0 <= j ->
    Z.testbit
      (ff_failed
         (fold_left (fun st x => failed_filters_case vec (fst x) (snd x) st)
            l st)) j
    = Z.testbit (ff_failed st) j
      || ((ff_k st <=? j)
          && match nth_error l (Z.to_nat (j - ff_k st)) with
             | Some (i, f) => filter_fails vec i f
             | None => false
             end).
Proof.
  induction l as [|[i f] l IH]; intros st j Hk Hj; cbn [fold_left fst snd].
  - destruct (Z.to_nat (j - ff_k st)); cbn [nth_error];
      now rewrite andb_false_r, orb_false_r.
  - rewrite IH by (try rewrite failed_filters_case_spec; cbn [ff_k]; lia).
    rewrite failed_filters_case_spec. cbn [fst snd ff_failed ff_k].
    destruct (Z.eq_dec j (ff_k st)) as [->|Hne].
    + rewrite Z.sub_diag, Z.leb_refl. cbn [Z.to_nat nth_error andb].
      replace (ff_k st + 1 <=? ff_k st) with false
        by (symmetry; apply Z.leb_gt; lia).
      cbn [andb]. rewrite orb_false_r.
      destruct (filter_fails vec i f); [|now rewrite orb_false_r].
      unfold set_bit. rewrite testbit_set_bit by lia.
      now rewrite Z.eqb_refl.
    + assert (Hm : Z.testbit
                     (if filter_fails vec i f
                      then set_bit (ff_failed st) (ff_k st)
                      else ff_failed st) j
                   = Z.testbit (ff_failed st) j).
      { destruct (filter_fails vec i f); [|reflexivity].
        unfold set_bit. rewrite testbit_set_bit by lia.
        replace (j =? ff_k st) with false
          by (symmetry; apply Z.eqb_neq; exact Hne).
        apply orb_false_r. }
      rewrite Hm. f_equal.
      destruct (Z.lt_ge_cases j (ff_k st)) as [Hlt|Hge].
      * replace (ff_k st + 1 <=? j) with false
          by (symmetry; apply Z.leb_gt; lia).
        now replace (ff_k st <=? j) with false
          by (symmetry; apply Z.leb_gt; lia).
      * replace (ff_k st + 1 <=? j) with true
          by (symmetry; apply Z.leb_le; lia).
        replace (ff_k st <=? j) with true
          by (symmetry; apply Z.leb_le; lia).
        cbn [andb].
        replace (Z.to_nat (j - ff_k st))
          with (S (Z.to_nat (j - (ff_k st + 1)))) by lia.
        reflexivity.
Qed.

Lemma failed_filters_testbit flt vec j :
  0 <= j ->
  Z.testbit (failed_filters flt vec) j = kth_fails flt vec (Z.to_nat j).
Proof.
  intros Hj. rewrite failed_filters_as_fold.
  rewrite failed_fold_bits by (cbn; lia).
  cbn [ff_failed ff_k]. rewrite Z.testbit_0_l, Z.sub_0_r.
  replace (0 <=? j) with true by (symmetry; apply Z.leb_le; exact Hj).
  reflexivity.
Qed.

(** X13. For a filter set of at most 31 predicates, bit [k] of the mask
    that [failed_filters] returns is set exactly when the predicate
    numbered [k] fails on the vector, the predicates being numbered
    annotation by annotation in the order they were given for each
    annotation. *)
Theorem failed_filters_bits flt vec :
  (List.length (flat_filters flt) <= 31)%nat ->
  forall k : nat,
    Z.testbit (failed_filters flt vec) (Z.of_nat k) = kth_fails flt vec k.
Proof.
  intros _ k. rewrite failed_filters_testbit by lia. now rewrite Nat2Z.id.
Qed.

Lemma failed_filters_bits_witness :
  Z.testbit (failed_filters flt_qual_mq [4; 40]%Q) (Z.of_nat 1)
  = kth_fails flt_qual_mq [4; 40]%Q 1.
Proof.
  apply (failed_filters_bits flt_qual_mq [4; 40]%Q). vm_compute. lia.
Defined.

(** X14. For a filter set of at most 31 predicates, the mask of
    [failed_filters] is zero, and the vector accepted, exactly when none of
    the predicates of the filter set fails. *)
Theorem failed_filters_zero_iff flt vec :
  (List.length (flat_filters flt) <= 31)%nat ->
  failed_filters flt vec = 0 <->
  forall i f, In (i, f) (flat_filters flt) -> filter_fails vec i f = false.
Proof.
  intros _. split.
  - intros H0 i f Hin. apply In_nth_error in Hin. destruct Hin as [k Hk].
    pose proof (failed_filters_testbit flt vec (Z.of_nat k) ltac:(lia)) as Hb.
    rewrite H0, Z.testbit_0_l, Nat2Z.id in Hb.
    unfold kth_fails in Hb. rewrite Hk in Hb. now symmetry.
  - intros Hall. apply Z.bits_inj'. intros j Hj.
    rewrite failed_filters_testbit by exact Hj. rewrite Z.testbit_0_l.
    unfold kth_fails.
    destruct (nth_error (flat_filters flt) (Z.to_nat j)) as [[i f]|] eqn:E;
      [|reflexivity].
    apply Hall. apply nth_error_In with (n := Z.to_nat j). exact E.
Qed.

Lemma failed_filters_zero_iff_witness :
  failed_filters flt_qual_mq [4; 40]%Q = 0 <->
  forall i f, In (i, f) (flat_filters flt_qual_mq) ->
              filter_fails [4; 40]%Q i f = false.
Proof.
  apply (failed_filters_zero_iff flt_qual_mq [4; 40]%Q). vm_compute. lia.
Defined.

(* ------------------------------------------------------------------ *)
(** ** What a parsed filter set satisfies *)

Section ParsedFilters.

Variable sscanf_le : string -> option Q.

Lemma init_extra_annot_keeps args annot args' :
  init_extra_annot args annot = Ok args' ->
  ncols args' = ncols args /\ colnames args' = colnames args
  /\ dists args' = dists args /\ nann args' = nann args + 1.
Proof.
  unfold init_extra_annot. destruct (find_col _ _ _ _); [|discriminate].
  intros H. injection H as <-. cbn. auto.
Qed.

Lemma init_filters_term_keeps scale left e args filts e3 args' filts' :
  init_filters_term sscanf_le scale left e args filts = Ok (e3, args', filts') ->
  f_nann filts = nann args ->
  ncols args' = ncols args /\ colnames args' = colnames args
  /\ nann args <= nann args'
  /\ f_nann filts' = nann args'
  /\ ntot filts' = ntot filts + 1
  /\ List.length (flt_mask_desc filts')
     = S (List.length (flt_mask_desc filts)).
Proof.
  intros H Hn. unfold init_filters_term in H.
  destruct (span is_cmp_char e) as [op e2].
  destruct e2 as [|ch2 e2]; [discriminate|].
  destruct (cmp_type op) as [type|]; cbn [bind] in H; [|discriminate].
  destruct (span _ (String ch2 e2)) as [right e3'].
  destruct (find_side _ _ _ _ _) as [[icol swapped]|]; [|discriminate].
  destruct (rd 0 (col2names args) icol =? -1).
  - destruct (init_extra_annot args (if swapped then right else left))
      as [a|] eqn:Ea; cbn [bind] in H; [|discriminate].
    destruct (init_extra_annot_keeps _ _ _ Ea) as (H1 & H2 & H3 & H4).
    destruct (sscanf_le _) as [value|]; [|discriminate].
    destruct (if negb (scale =? 0) then _ else _) as [v|]; cbn [bind] in H;
      [|discriminate].
    injection H as _ <- <-. cbn [f_nann ntot flt_mask_desc].
    rewrite length_app. cbn [List.length].
    repeat split; auto; lia.
  - cbn [bind] in H.
    destruct (sscanf_le _) as [value|]; [|discriminate].
    destruct (if negb (scale =? 0) then _ else _) as [v|]; cbn [bind] in H;
      [|discriminate].
    injection H as _ <- <-. cbn [f_nann ntot flt_mask_desc].
    rewrite length_app. cbn [List.length].
    repeat split; auto; lia.
Qed.

Lemma init_filters_loop_keeps scale :
  forall fuel tok e args filts args' filts',
    init_filters_loop sscanf_le fuel scale tok e args filts
    = Ok (args', filts') ->
    f_nann filts = nann args ->
    ntot filts = Z.of_nat (List.length (flt_mask_desc filts)) ->
    ncols args' = ncols args /\ colnames args' = colnames args
    /\ nann args <= nann args'
    /\ f_nann filts' = nann args'
    /\ ntot filts' = Z.of_nat (List.length (flt_mask_desc filts')).
Proof.
  induction fuel as [|fuel IH]; intros tok e args filts args' filts' H Hn Ht;
    cbn [init_filters_loop] in H; [discriminate|].
  destruct e as [|ch e1].
  - injection H as <- <-. repeat split; auto; lia.
  - destruct (Ascii.eqb ch "&"); [apply (IH _ _ _ _ _ _ H Hn Ht)|].
    destruct (is_cmp_char ch); [|apply (IH _ _ _ _ _ _ H Hn Ht)].
    destruct (init_filters_term sscanf_le scale tok (String ch e1) args filts)
      as [[[e3 a] f]|] eqn:Eterm; cbn [bind] in H; [|discriminate].
    destruct (init_filters_term_keeps _ _ _ _ _ _ _ _ Eterm Hn)
      as (H1 & H2 & H3 & H4 & H5 & H6).
    destruct (IH _ _ _ _ _ _ H H4) as (G1 & G2 & G3 & G4 & G5).
    { rewrite H5, H6, Ht. lia. }
    repeat split; try congruence; lia.
Qed.

(** X15. When [init_filters] returns a filter set, the set is in step with
    the reader: its number of annotations is the reader's [nann], which
    has not decreased (annotations named only in the expression were
    added), the columns of the table are as before, and [ntot] is the
    number of predicate descriptions, between 0 and 7. *)
Theorem init_filters_in_step args str scale args' filts :
  init_filters sscanf_le args str scale = Ok (args', filts) ->
  f_nann filts = nann args'
  /\ nann args <= nann args'
  /\ ncols args' = ncols args
  /\ colnames args' = colnames args
  /\ ntot filts = Z.of_nat (List.length (flt_mask_desc filts))
  /\ 0 <= ntot filts <= 7.
Proof.
  unfold init_filters. intros H.
  destruct (init_filters_loop _ _ _ _ _ _ _) as [[a f]|] eqn:Eloop;
    cbn [bind] in H; [|discriminate].
  destruct (sizeof_uint64_t - 1 <? ntot f) eqn:E; [discriminate|].
  injection H as <- <-. apply Z.ltb_ge in E.
  destruct (init_filters_loop_keeps _ _ _ _ _ _ _ _ Eloop)
    as (H1 & H2 & H3 & H4 & H5); [reflexivity | reflexivity |].
  unfold sizeof_uint64_t in E. repeat split; auto; lia.
Qed.

Lemma init_filters_loop_no_cmp scale :
  forall fuel tok e args filts,
    no_cmp_char e = true ->
    (String.length e < fuel)%nat ->
    init_filters_loop sscanf_le fuel scale tok e args filts = Ok (args, filts).
Proof.
  induction fuel as [|fuel IH]; intros tok e args filts He Hlen; [lia|].
  cbn [init_filters_loop]. destruct e as [|ch e1]; [reflexivity|].
  cbn [no_cmp_char String.length] in He, Hlen.
  apply andb_true_iff in He. destruct He as [Hch He].
  apply negb_true_iff in Hch. rewrite Hch.
  destruct (Ascii.eqb ch "&"); apply IH; auto; lia.
Qed.

Lemma strip_spaces_no_cmp str :
  no_cmp_char str = true -> no_cmp_char (strip_spaces str) = true.
Proof.
  induction str as [|ch rest IH]; intros H; [reflexivity|].
  cbn [no_cmp_char] in H. apply andb_true_iff in H. destruct H as [Hch H].
  cbn [strip_spaces]. destruct (isspace ch); [now apply IH|].
  cbn [no_cmp_char]. rewrite Hch. now apply IH.
Qed.

(** X16. An expression that holds a character that is not a blank and
    none of the characters [<], [>] and [=] is accepted without an error
    and gives no predicate at all: the reader is left as it is and the
    filter set is the empty one, whatever else the text holds. (An
    expression of blanks only is left out: for it the source scans the
    former content of [args->str].) *)
Theorem init_filters_without_comparison args str scale :
  strip_spaces str <> EmptyString ->
  no_cmp_char str = true ->
  init_filters sscanf_le args str scale = Ok (args, no_filters args).
Proof.
  intros _ H. unfold init_filters.
  rewrite init_filters_loop_no_cmp by (auto using strip_spaces_no_cmp).
  reflexivity.
Qed.

End ParsedFilters.

Lemma init_filters_in_step_witness :
  f_nann flt_qual_mq = 2 /\ ntot flt_qual_mq = 2.
Proof.
  destruct (init_filters scan_decimal args_two "QUAL>=5 & MQ<30" 0)
    as [[a f]|e] eqn:E; [|vm_compute in E; discriminate E].
  destruct (init_filters_in_step scan_decimal _ _ _ _ _ E) as (H1 & _).
  assert (Hf : flt_qual_mq = f) by (unfold flt_qual_mq; now rewrite E).
  rewrite Hf. vm_compute in E. injection E as _ <-. split; reflexivity.
Defined.

Lemma init_filters_without_comparison_witness :
  init_filters scan_decimal args_qual "QUAL & MQ" 0
  = Ok (args_qual, no_filters args_qual).
Proof.
  apply (init_filters_without_comparison scan_decimal);
    [discriminate | reflexivity].
Defined.

(* ------------------------------------------------------------------ *)
(** ** Splitting a list of names *)

Lemma append_empty_r (s : string) : (s ++ "")%string = s.
Proof. induction s as [|c s IH]; simpl; congruence. Qed.

Lemma append_assoc3 (a b c : string) :
  ((a ++ b) ++ c)%string = (a ++ b ++ c)%string.
Proof. induction a as [|x a IH]; simpl; congruence. Qed.

Lemma count_char_app d a b :
  count_char d (a ++ b) = (count_char d a + count_char d b)%nat.
Proof.
  induction a as [|x a IH]; simpl; [reflexivity|].
  destruct (Ascii.eqb x d); simpl; congruence.
Qed.

Lemma split_list_from_cons str d cur :
  exists x l, split_list_from str d cur = x :: l.
Proof.
  revert cur; induction str as [|ch str IH]; intros cur; simpl; eauto.
  destruct (Ascii.eqb ch d); eauto.
Qed.

Lemma concat_two sep (a b : string) l :
  String.concat sep (a :: b :: l)
  = (a ++ sep ++ String.concat sep (b :: l))%string.
Proof. reflexivity. Qed.

Lemma split_list_from_concat str d cur :
  String.concat (String d "") (split_list_from str d cur)
  = (cur ++ str)%string.
Proof.
  revert cur; induction str as [|ch str IH]; intros cur; simpl.
  - now rewrite append_empty_r.
  - destruct (Ascii.eqb ch d) eqn:E.
    + apply Ascii.eqb_eq in E. subst ch.
      destruct (split_list_from_cons str d "") as (x & l & Hx).
      specialize (IH EmptyString). rewrite Hx in *.
      rewrite concat_two, IH. reflexivity.
    + rewrite IH, append_assoc3. reflexivity.
Qed.

Lemma split_list_from_length str d cur :
  List.length (split_list_from str d cur) = S (count_char d str).
Proof.
  revert cur; induction str as [|ch str IH]; intros cur; simpl; auto.
  destruct (Ascii.eqb ch d); simpl; auto.
Qed.

Lemma split_list_from_items str d cur :
  count_char d cur = O ->
  Forall (fun s => count_char d s = O) (split_list_from str d cur).
Proof.
  revert cur; induction str as [|ch str IH]; intros cur H; simpl.
  - constructor; auto.
  - destruct (Ascii.eqb ch d) eqn:E.
    + constructor; auto.
    + apply IH. rewrite count_char_app, H. simpl. now rewrite E.
Qed.

(** X17 ([split_list]). The items that [split_list] returns, joined again
    with the delimiter, give the text back; their number is one more than
    the number of delimiters in the text (so the empty text gives one empty
    item), and no item holds the delimiter. *)
Theorem split_list_join str d :
  String.concat (String d "") (split_list str d) = str /\
  List.length (split_list str d) = S (count_char d str) /\
  Forall (fun s => count_char d s = O) (split_list str d).
Proof.
  unfold split_list. split; [|split].
  - apply split_list_from_concat.
  - apply split_list_from_length.
  - now apply split_list_from_items.
Qed.

Lemma split_list_from_app d x s cur :
  count_char d x = O ->
  split_list_from (x ++ s) d cur = split_list_from s d (cur ++ x).
Proof.
  revert cur; induction x as [|ch x IH]; intros cur H; simpl in *.
  - now rewrite append_empty_r.
  - destruct (Ascii.eqb ch d); [discriminate|].
    rewrite IH by assumption. now rewrite append_assoc3.
Qed.

(** X18 ([split_list]). Splitting is the inverse of joining: a list of at
    least one item, none of which holds the delimiter, is what
    [split_list] returns for the items joined with the delimiter. *)
Theorem split_list_of_joined d l :
  l <> [] ->
  Forall (fun s => count_char d s = O) l ->
  split_list (String.concat (String d "") l) d = l.
Proof.
  unfold split_list. induction l as [|x l IH]; intros Hne Hall;
    [congruence|].
  inversion Hall as [|? ? Hx Hl]; subst.
  destruct l as [|y l].
  - cbn [String.concat]. rewrite <- (append_empty_r x) at 1.
    rewrite split_list_from_app by assumption. reflexivity.
  - rewrite concat_two, split_list_from_app by assumption.
    cbn [append split_list_from]. rewrite Ascii.eqb_refl.
    f_equal. apply IH; [discriminate | assumption].
Qed.

Lemma split_list_of_joined_witness :
  split_list (String.concat "," ["QUAL"; ""; "MQ"]%string) ","
  = ["QUAL"; ""; "MQ"]%string.
Proof.
  apply (split_list_of_joined "," ["QUAL"; ""; "MQ"]%string).
  - discriminate.
  - repeat constructor.
Defined.

(* ------------------------------------------------------------------ *)
(** ** The columns of the table *)

Lemma rd_repeat {A} (d v : A) n i :
  0 <= i < Z.of_nat n -> rd d (repeat v n) i = v.
Proof.
  intros H. unfold rd. apply nth_repeat_lt. lia.
Qed.

Lemma count_free_wr_nat l : forall n v,
  (n < List.length l)%nat -> nth n l 0 = -1 -> v <> -1 ->
  S (count_occ Z.eq_dec (wr_nat l n v) (-1)) = count_occ Z.eq_dec l (-1).
Proof.
  induction l as [|x l IH]; intros [|n] v Hn Hx Hv; simpl in *; try lia.
  - subst x. destruct (Z.eq_dec v (-1)); [contradiction|].
    destruct (Z.eq_dec (-1) (-1)); congruence.
  - destruct (Z.eq_dec x (-1)); rewrite <- (IH n v); auto; lia.
Qed.

Lemma free_columns_wr c2n j v :
  0 <= j < Z.of_nat (List.length c2n) -> rd 0 c2n j = -1 -> v <> -1 ->
  free_columns (wr c2n j v) + 1 = free_columns c2n.
Proof.
  intros Hj Hf Hv. unfold free_columns, wr.
  destruct (j <? 0) eqn:E; [lia|].
  rewrite <- (count_free_wr_nat c2n (Z.to_nat j) v); auto; lia.
Qed.

Lemma free_columns_pos c2n j :
  0 <= j < Z.of_nat (List.length c2n) -> rd 0 c2n j = -1 ->
  0 < free_columns c2n.
Proof.
  intros Hj Hf. unfold free_columns.
  assert (In (-1) c2n) as Hin.
  { rewrite <- Hf. unfold rd. apply nth_In. lia. }
  apply (count_occ_In Z.eq_dec) in Hin. lia.
Qed.

(** Taking the free data column [j] for the next annotation keeps the two
    maps inverse to each other. *)
Lemma mapped_step ncols' i cols names1 names2 c2n a2c ign j :
  mapped ncols' i cols names1 c2n a2c ign ->
  (forall k, 0 <= k < i -> rd EmptyString names2 k = rd EmptyString names1 k) ->
  rd EmptyString names2 i = rd EmptyString cols j ->
  NFIXED <= j < ncols' ->
  rd 0 c2n j = -1 ->
  mapped ncols' (i + 1) cols names2 (wr c2n j i) (wr a2c i j) (wr ign j 0).
Proof.
  intros (L1 & L2 & L3 & Hi & HA & HB & HC & HD & HE) Hold Hnew Hj Hfree.
  unfold NFIXED in *.
  assert (Hpos : 0 < free_columns c2n)
    by (apply (free_columns_pos c2n j); [lia | assumption]).
  assert (Hlt : i < ncols') by lia.
  unfold mapped, NFIXED. rewrite !wr_length.
  repeat match goal with |- _ /\ _ => split end; try assumption; try lia.
  - intros k Hk. destruct (Z.eq_dec k i) as [->|Hne].
    + rewrite (rd_wr_same 0 a2c) by lia.
      rewrite (rd_wr_same 0 c2n) by lia.
      rewrite (rd_wr_same 0 ign) by lia.
      repeat split; try lia. symmetry. exact Hnew.
    + rewrite (rd_wr_other 0 a2c) by lia.
      destruct (HA k) as (A1 & A2 & A3 & A4); [lia|].
      assert (rd 0 a2c k <> j) by (intros E; rewrite E in A3; lia).
      rewrite (rd_wr_other 0 c2n), (rd_wr_other 0 ign) by lia.
      rewrite Hold by lia. repeat split; try assumption; lia.
  - intros j' Hj'. destruct (Z.eq_dec j' j) as [->|Hne].
    + right. rewrite (rd_wr_same 0 c2n) by lia.
      rewrite (rd_wr_same 0 a2c) by lia. lia.
    + rewrite (rd_wr_other 0 c2n) by lia.
      destruct (HB j') as [B|(B1 & B2)]; [lia | now left | right].
      rewrite (rd_wr_other 0 a2c) by lia. split; [lia | assumption].
  - intros j' Hj'. destruct (Z.eq_dec j' j) as [->|Hne].
    + rewrite (rd_wr_same 0 c2n) by lia. lia.
    + rewrite (rd_wr_other 0 c2n), (rd_wr_other 0 ign) by lia. now apply HC.
  - intros j' Hj'.
    rewrite (rd_wr_other 0 c2n), (rd_wr_other 0 ign) by lia. now apply HD.
  - pose proof (free_columns_wr c2n j i). lia.
Qed.

Lemma find_col_spec cols annot : forall n i j,
  find_col n i cols annot = Some j ->
  i <= j < i + Z.of_nat n /\ rd EmptyString cols j = annot.
Proof.
  induction n as [|n IH]; intros i j H; [discriminate|].
  cbn [find_col] in H.
  destruct (String.eqb annot (rd EmptyString cols i)) eqn:E.
  - injection H as <-. apply String.eqb_eq in E. split; [lia | congruence].
  - apply IH in H. destruct H as [H1 H2]. split; [lia | exact H2].
Qed.

Lemma find_col_none cols annot : forall n i,
  find_col n i cols annot = None ->
  forall j, i <= j < i + Z.of_nat n -> rd EmptyString cols j <> annot.
Proof.
  induction n as [|n IH]; intros i H j Hj; [lia|].
  cbn [find_col] in H.
  destruct (String.eqb annot (rd EmptyString cols i)) eqn:E; [discriminate|].
  destruct (Z.eq_dec j i) as [->|Hne].
  - apply String.eqb_neq in E. congruence.
  - apply (IH (i + 1)); [assumption | lia].
Qed.

Lemma map_requested_mapped ncols' cols : forall rest done m m',
  mapped ncols' (Z.of_nat (List.length done)) cols done
    (cm_col2names m) (cm_ann2cols m) (cm_ignore m) ->
  map_requested ncols' cols rest (Z.of_nat (List.length done)) m = inr m' ->
  mapped ncols' (Z.of_nat (List.length (done ++ rest))) cols (done ++ rest)
    (cm_col2names m') (cm_ann2cols m') (cm_ignore m').
Proof.
  induction rest as [|name rest IH]; intros done m m' Hm H.
  - cbn [map_requested] in H. injection H as <-. now rewrite app_nil_r.
  - cbn [map_requested] in H.
    destruct (find_col _ _ _ _) as [j|] eqn:Hf; [|discriminate].
    apply find_col_spec in Hf. destruct Hf as (Hj & Hname).
    destruct (rd 0 (cm_col2names m) j =? -1) eqn:Hfree;
      cbn [negb] in H; [|discriminate].
    apply Z.eqb_eq in Hfree.
    assert (Hn : NFIXED <= j < ncols') by lia.
    replace (done ++ name :: rest) with ((done ++ [name]) ++ rest)
      by (now rewrite <- app_assoc).
    assert (Hlen : Z.of_nat (List.length (done ++ [name]))
                   = Z.of_nat (List.length done) + 1)
      by (rewrite length_app; cbn [List.length]; lia).
    rewrite <- Hlen in H. apply IH in H; [exact H|].
    rewrite Hlen. cbn [cm_col2names cm_ann2cols cm_ignore].
    apply (mapped_step _ _ _ done); auto.
    + intros k Hk. apply rd_app_l. lia.
    + rewrite rd_app_last. congruence.
Qed.

Lemma prefix_app p : forall s,
  String.prefix p s = true -> exists r, s = (p ++ r)%string.
Proof.
  induction p as [|a p IH]; intros s H.
  - exists s. reflexivity.
  - destruct s as [|b s]; [discriminate|]. cbn [String.prefix] in H.
    destruct (Ascii.ascii_dec a b) as [->|]; [|discriminate].
    destruct (IH s H) as [r ->]. exists r. reflexivity.
Qed.

Lemma header_columns header :
  String.prefix header_prefix header = true ->
  (5 <= List.length (split_list header (ascii_of_nat 9)))%nat.
Proof.
  intros H. apply prefix_app in H. destruct H as [r ->].
  unfold split_list. rewrite split_list_from_length, count_char_app.
  change (count_char (ascii_of_nat 9) header_prefix) with 4%nat. lia.
Qed.

Lemma normalize_names_length : forall raw cols,
  normalize_names raw = Some cols -> List.length cols = List.length raw.
Proof.
  induction raw as [|x raw IH]; intros cols H; cbn [normalize_names] in H.
  - injection H as <-. reflexivity.
  - destruct (after_bracket x); [|discriminate].
    destruct (normalize_names raw) as [names'|]; [|discriminate].
    injection H as <-. cbn [List.length]. f_equal. now apply IH.
Qed.

Lemma first_duplicate_NoDup : forall rest seen,
  NoDup seen -> first_duplicate seen rest = None -> NoDup (seen ++ rest).
Proof.
  induction rest as [|x rest IH]; intros seen Hs H.
  - now rewrite app_nil_r.
  - cbn [first_duplicate] in H.
    destruct (existsb (String.eqb x) seen) eqn:E; [discriminate|].
    replace (seen ++ x :: rest) with ((seen ++ [x]) ++ rest)
      by (now rewrite <- app_assoc).
    apply IH; [|exact H].
    apply (NoDup_Add (a := x) (l := seen)).
    + rewrite <- (app_nil_r seen) at 1. apply Add_app.
    + split; [exact Hs|]. intros Hin.
      assert (existsb (String.eqb x) seen = true) as Ht.
      { apply existsb_exists. exists x. split; [exact Hin|].
        apply String.eqb_refl. }
      congruence.
Qed.

Lemma NoDup_rd (l : list string) i j :
  NoDup l ->
  0 <= i < Z.of_nat (List.length l) -> 0 <= j < Z.of_nat (List.length l) ->
  rd EmptyString l i = rd EmptyString l j -> i = j.
Proof.
  intros Hnd Hi Hj H. unfold rd in H.
  assert (Z.to_nat i = Z.to_nat j); [|lia].
  apply (proj1 (NoDup_nth l EmptyString) Hnd); [lia | lia | exact H].
Qed.

(** The arrays as [init_annots] sets them before an annotation is mapped. *)
Lemma mapped_initially n cols names' :
  (5 <= n)%nat ->
  mapped (Z.of_nat n) 0 cols names'
    (repeat (-1) n) (repeat 0 n)
    (for_ NFIXED (fun i ign => wr ign i 0) (repeat 1 n)).
Proof.
  intros Hn.
  change (for_ NFIXED (fun i ign => wr ign i 0) (repeat 1 n))
    with (wr (wr (wr (wr (wr (repeat 1 n) 0 0) 1 0) 2 0) 3 0) 4 0).
  unfold mapped, NFIXED. rewrite !wr_length, !repeat_length.
  repeat match goal with |- _ /\ _ => split end; try lia.
  - intros j Hj. left. apply rd_repeat. lia.
  - intros j Hj _. rewrite !(rd_wr_other 0) by lia. apply rd_repeat. lia.
  - intros j Hj. split; [apply rd_repeat; lia|].
    assert (j = 0 \/ j = 1 \/ j = 2 \/ j = 3 \/ j = 4) as Hc by lia.
    destruct Hc as [H|[H|[H|[H|H]]]]; subst j;
      repeat (rewrite (rd_wr_other 0) by lia);
      apply rd_wr_same; rewrite ?wr_length, repeat_length; lia.
  - unfold free_columns. rewrite count_occ_repeat_eq by reflexivity. lia.
Qed.

(** The loop that maps every data column, in order. *)
Lemma map_all_mapped n cols :
  (5 <= n)%nat ->
  let st :=
    map_all (Z.of_nat n) cols
      (repeat EmptyString (Z.to_nat (Z.of_nat n - NFIXED)),
       mk_colmap (repeat (-1) n) (repeat 0 n)
         (for_ NFIXED (fun i ign => wr ign i 0) (repeat 1 n))) in
  mapped (Z.of_nat n) (Z.of_nat n - NFIXED) cols (fst st)
    (cm_col2names (snd st)) (cm_ann2cols (snd st)) (cm_ignore (snd st)) /\
  List.length (fst st) = (n - 5)%nat /\
  forall j, NFIXED <= j < Z.of_nat n ->
    rd 0 (cm_col2names (snd st)) j = j - NFIXED /\
    rd EmptyString (fst st) (j - NFIXED) = rd EmptyString cols j.
Proof.
  intros Hn st. subst st. unfold map_all.
  set (body := fun (i : Z) (st : list string * colmap_t) => _).
  set (s0 := (_, _)).
  pose (P := fun (i : Z) (st : list string * colmap_t) =>
    mapped (Z.of_nat n) (i - NFIXED) cols (fst st)
      (cm_col2names (snd st)) (cm_ann2cols (snd st)) (cm_ignore (snd st)) /\
    List.length (fst st) = (n - 5)%nat /\
    (forall j, i <= j < Z.of_nat n -> rd 0 (cm_col2names (snd st)) j = -1) /\
    (forall j, NFIXED <= j < i ->
       rd 0 (cm_col2names (snd st)) j = j - NFIXED /\
       rd EmptyString (fst st) (j - NFIXED) = rd EmptyString cols j)).
  assert (HP : P (NFIXED + Z.of_nat (Z.to_nat (Z.of_nat n - NFIXED)))
                 (loop (Z.to_nat (Z.of_nat n - NFIXED)) NFIXED body s0)).
  { apply loop_invariant.
    - unfold P, s0. cbn [fst snd cm_col2names cm_ann2cols cm_ignore].
      replace (NFIXED - NFIXED) with 0 by lia.
      split; [now apply mapped_initially|].
      split; [rewrite repeat_length; unfold NFIXED; lia|].
      split; [intros j Hj; apply rd_repeat; unfold NFIXED in *; lia|].
      intros j Hj. lia.
    - intros k [nm m] Hk (Hm & Hl & Hfree & Hdone).
      unfold P, body. cbn [fst snd cm_col2names cm_ann2cols cm_ignore] in *.
      unfold NFIXED in *.
      assert (Hlen : Z.of_nat (List.length (cm_col2names m)) = Z.of_nat n)
        by apply Hm.
      split; [|split; [|split]].
      + replace (k + 1 - 5) with (k - 5 + 1) by lia.
        apply (mapped_step _ _ _ nm); auto.
        * intros i Hi. apply rd_wr_other; lia.
        * apply rd_wr_same. lia.
        * unfold NFIXED. lia.
        * apply Hfree. lia.
      + now rewrite wr_length.
      + intros j Hj. rewrite rd_wr_other by lia. apply Hfree. lia.
      + intros j Hj. destruct (Z.eq_dec j k) as [->|Hne].
        * rewrite rd_wr_same by lia. rewrite rd_wr_same by lia. auto.
        * rewrite !rd_wr_other by lia. apply Hdone. lia. }
  unfold NFIXED in *.
  replace (5 + Z.of_nat (Z.to_nat (Z.of_nat n - 5))) with (Z.of_nat n)
    in HP by lia.
  destruct HP as (H1 & H2 & _ & H4). auto.
Qed.

(** What a successful run of [init_annots] went through. *)
Lemma init_annots_inv args header annot_str a :
  init_annots args header annot_str = inr a ->
  exists cols names' m nann',
    let n := List.length cols in
    (5 <= n < 31)%nat /\ NoDup cols /\
    a = set_columns args names' cols m nann' (Z.of_nat n) /\
    match annot_str with
    | None =>
        nann' = Z.of_nat n - NFIXED /\
        (names', m) =
          map_all (Z.of_nat n) cols
            (repeat EmptyString (Z.to_nat (Z.of_nat n - NFIXED)),
             mk_colmap (repeat (-1) n) (repeat 0 n)
               (for_ NFIXED (fun i ign => wr ign i 0) (repeat 1 n)))
    | Some str =>
        names' = split_list str "," /\
        nann' = Z.of_nat (List.length names') /\
        map_requested (Z.of_nat n) cols names' 0
          (mk_colmap (repeat (-1) n) (repeat 0 n)
             (for_ NFIXED (fun i ign => wr ign i 0) (repeat 1 n)))
        = inr m
    end.
Proof.
  unfold init_annots. intros H.
  destruct (negb (Ascii.eqb (char0 header) "#")); [discriminate|].
  destruct (negb (String.prefix header_prefix header)) eqn:Hp; [discriminate|].
  apply negb_false_iff in Hp. apply header_columns in Hp.
  destruct (8 * 4 - 1 <=? _) eqn:Hmax; [discriminate|].
  apply Z.leb_gt in Hmax.
  destruct (normalize_names _) as [cols|] eqn:Hcols; [|discriminate].
  apply normalize_names_length in Hcols. rewrite <- Hcols in *.
  destruct (first_duplicate [] cols) as [name|] eqn:Hdup; [discriminate|].
  apply (first_duplicate_NoDup cols []) in Hdup; [|constructor].
  cbn [app] in Hdup. rewrite Nat2Z.id in H.
  destruct annot_str as [str|].
  - destruct (map_requested _ _ _ _ _) as [e|m] eqn:Hm; [discriminate|].
    injection H as <-.
    exists cols, (split_list str ","), m,
      (Z.of_nat (List.length (split_list str ","))).
    cbn zeta. repeat split; auto; lia.
  - destruct (map_all _ _ _) as [names' m] eqn:Hm.
    injection H as <-.
    exists cols, names', m, (Z.of_nat (List.length cols) - NFIXED).
    cbn zeta. repeat split; auto; try lia.
Qed.

Lemma init_annots_mapped args header annot_str a :
  init_annots args header annot_str = inr a ->
  columns_mapped a /\
  List.length (vals a) = Z.to_nat (ncols a) /\
  List.length (raw_vals a) = Z.to_nat (ncols a) /\
  List.length (missing a) = Z.to_nat (ncols a) /\
  nann a <= ncols a < 31.
Proof.
  intros H. apply init_annots_inv in H.
  destruct H as (cols & names' & m & nann' & Hn & Hnd & -> & Hmode).
  unfold columns_mapped, set_columns.
  cbn [ncols nann colnames names col2names ann2cols ignore vals raw_vals
       missing].
  rewrite !repeat_length.
  assert (mapped (Z.of_nat (List.length cols)) nann' cols names'
            (cm_col2names m) (cm_ann2cols m) (cm_ignore m)) as Hm.
  { destruct annot_str as [str|].
    - destruct Hmode as (-> & -> & Hm).
      apply (map_requested_mapped _ _ _ []) in Hm;
        [|apply mapped_initially; lia].
      exact Hm.
    - destruct Hmode as (-> & Hm).
      destruct (map_all_mapped (List.length cols) cols) as (M1 & _); [lia|].
      rewrite <- Hm in M1. exact M1. }
  split; [exact Hm|]. repeat split; try lia.
  destruct Hm as (_ & _ & _ & _ & _ & _ & _ & _ & HE).
  unfold free_columns in HE. lia.
Qed.

(** X19 ([init_annots]). After [init_annots] has read the header of the
    table, with or without a list of requested annotations, the two maps
    between annotations and columns are inverse to each other: annotation
    [i] is read from the data column [ann2cols[i]], which bears the name
    [names[i]], is not ignored and maps back to [i]; every other data
    column maps to [-1] and is ignored; the five fixed columns map to [-1]
    and are not ignored. The table has between 5 and 30 columns, their
    names are distinct, and the map takes [nann = nann_som] annotations. *)
Theorem init_annots_columns_mapped args header annot_str a :
  init_annots args header annot_str = inr a ->
  columns_mapped a /\
  NFIXED <= ncols a < 31 /\
  Z.of_nat (List.length (colnames a)) = ncols a /\
  NoDup (colnames a) /\
  Z.of_nat (List.length (names a)) = nann a /\
  nann_som a = nann a.
Proof.
  intros H. apply init_annots_inv in H.
  destruct H as (cols & names' & m & nann' & Hn & Hnd & -> & Hmode).
  unfold columns_mapped, set_columns, NFIXED.
  cbn [ncols nann colnames names col2names ann2cols ignore nann_som].
  destruct annot_str as [str|].
  - destruct Hmode as (-> & -> & Hm).
    apply (map_requested_mapped _ _ _ []) in Hm;
      [|apply mapped_initially; lia].
    cbn [app] in Hm. split; [exact Hm|]. repeat split; auto; lia.
  - destruct Hmode as (-> & Hm).
    destruct (map_all_mapped (List.length cols) cols) as (M1 & M2 & _);
      [lia|].
    rewrite <- Hm in M1, M2. cbn [fst snd] in M1, M2. unfold NFIXED in *.
    split; [exact M1|]. repeat split; auto; lia.
Qed.

(** X20 ([init_annots]). Without a list of requested annotations every
    data column is an annotation, in the order of the table: there are
    [ncols - 5] annotations, their names are the names of the columns
    after the fifth, and column [j] maps to the annotation [j - 5] and
    back and is not ignored. *)
Theorem init_annots_all_columns args header a :
  init_annots args header None = inr a ->
  nann a = ncols a - NFIXED /\
  names a = skipn 5 (colnames a) /\
  forall j, NFIXED <= j < ncols a ->
    rd 0 (col2names a) j = j - NFIXED /\
    rd 0 (ann2cols a) (j - NFIXED) = j /\
    rd 0 (ignore a) j = 0.
Proof.
  intros H. apply init_annots_inv in H.
  destruct H as (cols & names' & m & nann' & Hn & Hnd & -> & -> & Hm).
  unfold set_columns.
  cbn [ncols nann colnames names col2names ann2cols ignore].
  destruct (map_all_mapped (List.length cols) cols) as (M1 & M2 & M3);
    [lia|].
  rewrite <- Hm in M1, M2, M3. cbn [fst snd] in M1, M2, M3.
  split; [reflexivity|]. split.
  - apply (nth_ext _ _ EmptyString EmptyString).
    + rewrite length_skipn. exact M2.
    + intros k Hk. rewrite nth_skipn.
      destruct (M3 (Z.of_nat k + NFIXED)) as (_ & M); [unfold NFIXED; lia|].
      unfold rd, NFIXED in M.
      replace (Z.to_nat (Z.of_nat k + 5 - 5)) with k in M by lia.
      replace (Z.to_nat (Z.of_nat k + 5)) with (5 + k)%nat in M by lia.
      exact M.
  - intros j Hj. destruct (M3 j Hj) as (C & _).
    destruct M1 as (_ & _ & _ & _ & HA & _).
    destruct (HA (j - NFIXED)) as (A1 & A2 & A3 & A4); [lia|].
    assert (rd 0 (cm_ann2cols m) (j - NFIXED) = j) as Hback.
    { destruct (M3 (rd 0 (cm_ann2cols m) (j - NFIXED)) A1) as (C' & _).
      lia. }
    rewrite Hback in A4. auto.
Qed.

(** X21 ([init_annots]). With a list of requested annotations,
    [init_annots] goes through only if the names of the list are distinct
    and each is the name of a data column of the table; the annotations
    are then the items of the list, in its order. A name given twice or a
    name that no data column bears is a fatal error. *)
Theorem init_annots_requested args header str a :
  init_annots args header (Some str) = inr a ->
  names a = split_list str "," /\
  NoDup (names a) /\
  forall name, In name (names a) -> In name (skipn 5 (colnames a)).
Proof.
  intros H. apply init_annots_inv in H.
  destruct H as (cols & names' & m & nann' & Hn & Hnd & -> & -> & -> & Hm).
  unfold set_columns. cbn [colnames names].
  apply (map_requested_mapped _ _ _ []) in Hm;
    [|apply mapped_initially; lia].
  cbn [app] in Hm. set (req := split_list str ",") in *.
  destruct Hm as (_ & _ & _ & _ & HA & _).
  split; [reflexivity|]. split.
  - apply (NoDup_nth req EmptyString). intros i j Hi Hj Heq.
    destruct (HA (Z.of_nat i)) as (A1 & A2 & A3 & _); [lia|].
    destruct (HA (Z.of_nat j)) as (B1 & B2 & B3 & _); [lia|].
    unfold rd in A2, B2. rewrite Nat2Z.id in A2, B2.
    assert (rd 0 (cm_ann2cols m) (Z.of_nat i)
            = rd 0 (cm_ann2cols m) (Z.of_nat j)) as Hsame.
    { apply (NoDup_rd cols); auto; unfold NFIXED in *; try lia.
      unfold rd. rewrite !Nat2Z.id. congruence. }
    rewrite Hsame in A3. lia.
  - intros name Hin. apply (In_nth _ _ EmptyString) in Hin.
    destruct Hin as (i & Hi & <-).
    destruct (HA (Z.of_nat i)) as (A1 & A2 & _); [lia|].
    unfold rd in A2 at 1 3. rewrite Nat2Z.id in A2. rewrite <- A2.
    unfold NFIXED in A1.
    remember (Z.to_nat (rd 0 (cm_ann2cols m) (Z.of_nat i))) as c eqn:Hc.
    replace c with (5 + (c - 5))%nat by lia.
    rewrite <- nth_skipn. apply nth_In. rewrite length_skipn. lia.
Qed.

Lemma init_annots_columns_mapped_witness :
  exists a, init_annots args_qual header_two (Some "MQ,QUAL"%string) = inr a /\
            columns_mapped a /\ ncols a = 8 /\ nann a = 2.
Proof.
  destruct (init_annots args_qual header_two (Some "MQ,QUAL"%string))
    as [e|a] eqn:E; [vm_compute in E; discriminate E|].
  exists a. split; [reflexivity|].
  destruct (init_annots_columns_mapped _ _ _ _ E) as (H & _).
  split; [exact H|]. vm_compute in E. injection E as <-. split; reflexivity.
Defined.

Lemma init_annots_all_columns_witness :
  exists a, init_annots args_qual header_two None = inr a /\
            names a = ["QUAL"; "MQ"; "DP"]%string.
Proof.
  destruct (init_annots args_qual header_two None) as [e|a] eqn:E;
    [vm_compute in E; discriminate E|].
  exists a. split; [reflexivity|].
  destruct (init_annots_all_columns _ _ _ E) as (_ & H & _).
  rewrite H. vm_compute in E. injection E as <-. reflexivity.
Defined.

Lemma init_annots_requested_witness :
  exists a, init_annots args_qual header_two (Some "MQ,QUAL"%string) = inr a /\
            NoDup (names a).
Proof.
  destruct (init_annots args_qual header_two (Some "MQ,QUAL"%string))
    as [e|a] eqn:E; [vm_compute in E; discriminate E|].
  exists a. split; [reflexivity|].
  exact (proj1 (proj2 (init_annots_requested _ _ _ _ E))).
Defined.

(* ------------------------------------------------------------------ *)
(** ** A row of the table *)

Lemma filter_one_more {A} (f g : A -> bool) (k : A) : forall l,
  NoDup l -> In k l -> f k = false -> g k = true ->
  (forall x, x <> k -> g x = f x) ->
  List.length (filter g l) = S (List.length (filter f l)).
Proof.
  induction l as [|x l IH]; intros Hnd Hin Hf Hg Hother; [contradiction|].
  inversion Hnd as [|? ? Hx Hl]; subst. cbn [filter].
  destruct Hin as [->|Hin].
  - rewrite Hf, Hg. cbn [List.length]. f_equal.
    f_equal. apply filter_ext_in. intros y Hy. apply Hother.
    intros ->. contradiction.
  - assert (x <> k) by (intros ->; contradiction).
    rewrite (Hother x) by assumption.
    destruct (f x); cbn [List.length]; rewrite (IH Hl Hin Hf Hg Hother);
      reflexivity.
Qed.

Lemma filter_all {A} (f : A -> bool) : forall l,
  List.length (filter f l) = List.length l <->
  forall x, In x l -> f x = true.
Proof.
  induction l as [|x l IH]; [split; [intros _ ? [] | reflexivity]|].
  cbn [filter]. pose proof (filter_length_le f l) as Hle.
  destruct (f x) eqn:E; cbn [List.length]; split.
  - intros H y [<-|Hy]; [exact E|]. apply IH; [lia | exact Hy].
  - intros H. f_equal. apply IH. intros y Hy. apply H. now right.
  - intros H. lia.
  - intros H. rewrite (H x) in E by now left. discriminate.
Qed.

Lemma zrange_In n i : In i (zrange n) <-> 0 <= i < n.
Proof.
  unfold zrange. rewrite in_map_iff. split.
  - intros (k & <- & Hk). apply in_seq in Hk. lia.
  - intros H. exists (Z.to_nat i). split; [lia|]. apply in_seq. lia.
Qed.

Lemma NoDup_map_inj {A B} (f : A -> B) :
  (forall a b, f a = f b -> a = b) ->
  forall l, NoDup l -> NoDup (map f l).
Proof.
  intros Hinj. induction l as [|x l IH]; intros H; cbn [map];
    [constructor|].
  inversion H as [|? ? Hx Hl]; subst. constructor; [|now apply IH].
  intros Hin. apply in_map_iff in Hin. destruct Hin as (y & Hy & Hin).
  apply Hinj in Hy. subst y. contradiction.
Qed.

Lemma zrange_NoDup n : NoDup (zrange n).
Proof.
  unfold zrange. apply NoDup_map_inj; [|apply seq_NoDup].
  intros a b H. lia.
Qed.

Lemma zrange_length n : 0 <= n -> Z.of_nat (List.length (zrange n)) = n.
Proof.
  intros H. unfold zrange. rewrite length_map, length_seq. lia.
Qed.

Lemma count_bits_set mask n i :
  0 <= i < n -> Z.testbit mask i = false ->
  count_bits (Z.lor mask (Z.shiftl 1 i)) n = count_bits mask n + 1.
Proof.
  intros Hi Hbit. unfold count_bits.
  rewrite (filter_one_more (Z.testbit mask) _ i); [lia | | | | |].
  - apply zrange_NoDup.
  - now apply zrange_In.
  - exact Hbit.
  - rewrite testbit_set_bit by lia. rewrite Z.eqb_refl. apply orb_true_r.
  - intros x Hx. destruct (Z.lt_ge_cases x 0) as [Hneg|Hpos].
    + now rewrite !Z.testbit_neg_r.
    + rewrite testbit_set_bit by lia.
      replace (x =? i) with false by (symmetry; now apply Z.eqb_neq).
      apply orb_false_r.
Qed.

Lemma count_bits_full mask n :
  0 <= n ->
  (count_bits mask n = n <->
   forall i, 0 <= i < n -> Z.testbit mask i = true).
Proof.
  intros Hn. unfold count_bits. rewrite <- (zrange_length n Hn) at 2.
  rewrite Nat2Z.inj_iff, filter_all. split.
  - intros H i Hi. apply H. now apply zrange_In.
  - intros H i Hi. apply H. now apply zrange_In.
Qed.

Lemma count_bits_bounds mask n : 0 <= n -> 0 <= count_bits mask n <= n.
Proof.
  intros Hn. unfold count_bits.
  pose proof (filter_length_le (Z.testbit mask) (zrange n)).
  pose proof (zrange_length n Hn). lia.
Qed.

Lemma scale_value_Ok_unit dist x v :
  scale_value dist x = Ok v -> (0 <= v <= 1)%Q.
Proof.
  unfold scale_value. destruct (_ && _ && _); [discriminate|].
  set (y := if Qltb x _ then _ else _).
  destruct (Qle_bool 0 y && Qle_bool y 1) eqn:E; [|discriminate].
  intros H. injection H as <-. apply andb_true_iff in E.
  destruct E as [E1 E2]. apply Qle_bool_iff in E1, E2. split; assumption.
Qed.

Lemma hd_error_skipn {A} (l : list A) : forall k,
  hd_error (skipn k l) = nth_error l k.
Proof.
  induction l as [|x l IH]; intros [|k]; cbn; auto.
Qed.

Lemma tl_skipn {A} (l : list A) : forall k,
  tl (skipn k l) = skipn (S k) l.
Proof.
  induction l as [|x l IH]; intros [|k]; cbn; auto.
Qed.

Section ReaderProperties.

Variable args : args_t.
Variable flds : list (option Q).

Hypothesis Hmapped : columns_mapped args.
Hypothesis Hvals : nann args <= Z.of_nat (List.length (vals args)).
Hypothesis Hraw : nann args <= Z.of_nat (List.length (raw_vals args)).
Hypothesis Hmissing : nann args <= Z.of_nat (List.length (missing args)).

Lemma row_entry_other i vals1 raw1 missing1 mask1 vals2 raw2 missing2 mask2 :
  rd 0 missing2 i = rd 0 missing1 i ->
  rd 0%Q raw2 i = rd 0%Q raw1 i ->
  rd 0%Q vals2 i = rd 0%Q vals1 i ->
  Z.testbit mask2 i = Z.testbit mask1 i ->
  row_entry args flds i vals1 raw1 missing1 mask1 ->
  row_entry args flds i vals2 raw2 missing2 mask2.
Proof.
  intros H1 H2 H3 H4. unfold row_entry.
  destruct (nth_error flds _) as [[x|]|];
    [rewrite H1, H2, H3, H4; auto | rewrite H1, H4; auto | auto].
Qed.

Lemma reader_column_row icol a a' :
  NFIXED <= icol < ncols args ->
  row_upto args flds icol a ->
  reader_column args icol (nth_error flds (Z.to_nat (icol - NFIXED))) a
  = Ok a' ->
  row_upto args flds (icol + 1) a'.
Proof.
  intros Hicol (L1 & L2 & L3 & Hdone & Htodo & Hcount) H.
  pose proof Hmapped as Hm.
  destruct Hm as (_ & _ & _ & Hn & HA & HB & HC & _).
  unfold reader_column in H. unfold NFIXED in Hicol, HA, HC, H.
  destruct (nth_error flds (Z.to_nat (icol - 5))) as [v|] eqn:Hfld;
    [|discriminate].
  destruct (rd 0 (ignore args) icol =? 0) eqn:Hign; cbn [negb] in H.
  - apply Z.eqb_eq in Hign.
    destruct (HB icol) as [Hfree|(Hi & Hback)]; [lia | |].
    { apply HC in Hfree; [lia | exact Hicol]. }
    set (iann := rd 0 (col2names args) icol) in *.
    assert (Hother : forall i, 0 <= i < nann args ->
              rd 0 (ann2cols args) i <> icol -> i <> iann)
      by (intros i Hi' Hne ->; contradiction).
    destruct v as [x|].
    + destruct (match dists args with
                | Some ds =>
                    if negb (scale args =? 0)
                    then scale_value (rd default_dist ds icol) x
                    else Ok x
                | None => Ok x
                end) as [v|e] eqn:Hscaled; cbn [bind] in H; [|discriminate].
      injection H as <-. unfold row_upto.
      cbn [ra_vals ra_raw ra_missing ra_nset ra_mask].
      rewrite !wr_length.
      split; [exact L1|]. split; [exact L2|]. split; [exact L3|].
      split; [|split].
      * intros i Hi' Hlt. destruct (Z.eq_dec i iann) as [->|Hne].
        -- unfold row_entry, NFIXED. rewrite Hback, Hfld.
           rewrite !rd_wr_same by lia.
           rewrite testbit_set_bit, Z.eqb_refl, orb_true_r by lia.
           split; [reflexivity|]. split; [reflexivity|].
           split; [reflexivity|]. split.
           ++ intros [Hs|Hd].
              ** rewrite Hs in Hscaled. cbn in Hscaled.
                 destruct (dists args); congruence.
              ** rewrite Hd in Hscaled. congruence.
           ++ intros Hs Hd. destruct (dists args) as [ds|]; [|congruence].
              replace (scale args =? 0) with false in Hscaled
                by (symmetry; now apply Z.eqb_neq).
              cbn [negb] in Hscaled.
              now apply scale_value_Ok_unit in Hscaled.
        -- apply (row_entry_other i (ra_vals a) (ra_raw a) (ra_missing a)
                    (ra_mask a)).
           ++ apply rd_wr_other; lia.
           ++ apply rd_wr_other; lia.
           ++ apply rd_wr_other; lia.
           ++ rewrite testbit_set_bit by lia.
              replace (i =? iann) with false
                by (symmetry; now apply Z.eqb_neq).
              apply orb_false_r.
           ++ apply Hdone; [exact Hi'|].
              assert (rd 0 (ann2cols args) i <> icol); [|lia].
              intros E. destruct (HA i Hi') as (_ & _ & A3 & _).
              rewrite E in A3. apply Hne. symmetry. exact A3.
      * intros i Hi' Hge.
        assert (i <> iann) by (apply Hother; [exact Hi' | lia]).
        rewrite testbit_set_bit by lia.
        replace (i =? iann) with false by (symmetry; now apply Z.eqb_neq).
        rewrite orb_false_r. apply Htodo; [exact Hi' | lia].
      * rewrite count_bits_set; [lia | exact Hi|].
        apply Htodo; [exact Hi | lia].
    + injection H as <-. unfold row_upto.
      cbn [ra_vals ra_raw ra_missing ra_nset ra_mask].
      rewrite !wr_length.
      split; [exact L1|]. split; [exact L2|]. split; [exact L3|].
      split; [|split].
      * intros i Hi' Hlt. destruct (Z.eq_dec i iann) as [->|Hne].
        -- unfold row_entry, NFIXED. rewrite Hback, Hfld.
           rewrite !rd_wr_same by lia. split; [reflexivity|].
           apply Htodo; [exact Hi | lia].
        -- apply (row_entry_other i (ra_vals a) (ra_raw a) (ra_missing a)
                    (ra_mask a)); try reflexivity.
           ++ apply rd_wr_other; lia.
           ++ apply Hdone; [exact Hi'|].
              assert (rd 0 (ann2cols args) i <> icol); [|lia].
              intros E. destruct (HA i Hi') as (_ & _ & A3 & _).
              rewrite E in A3. apply Hne. symmetry. exact A3.
      * intros i Hi' Hge. apply Htodo; [exact Hi' | lia].
      * exact Hcount.
  - injection H as <-. unfold row_upto.
    split; [exact L1|]. split; [exact L2|]. split; [exact L3|].
    split; [|split].
    + intros i Hi' Hlt. apply Hdone; [exact Hi'|].
      destruct (HA i Hi') as (_ & _ & _ & A4).
      assert (rd 0 (ann2cols args) i <> icol); [|lia].
      intros E. rewrite E in A4. rewrite A4 in Hign. discriminate.
    + intros i Hi' Hge. apply Htodo; [exact Hi' | lia].
    + exact Hcount.
Qed.

Lemma reader_columns_row : forall n icol a a',
  NFIXED <= icol -> icol + Z.of_nat n <= ncols args ->
  row_upto args flds icol a ->
  reader_columns args n icol (skipn (Z.to_nat (icol - NFIXED)) flds) a
  = Ok a' ->
  row_upto args flds (icol + Z.of_nat n) a' /\
  (n <= List.length (skipn (Z.to_nat (icol - NFIXED)) flds))%nat.
Proof.
  induction n as [|n IH]; intros icol a a' Hicol Hend Hrow H.
  - cbn [reader_columns] in H. injection H as <-.
    rewrite Z.add_0_r. split; [exact Hrow | lia].
  - cbn [reader_columns] in H. rewrite hd_error_skipn, tl_skipn in H.
    destruct (reader_column args icol _ a) as [a1|e] eqn:Hcol;
      cbn [bind] in H; [|discriminate].
    pose proof Hcol as Hfld. unfold reader_column in Hfld.
    destruct (nth_error flds (Z.to_nat (icol - NFIXED))) eqn:Hnth;
      [clear Hfld|discriminate].
    assert (Hlt : (Z.to_nat (icol - NFIXED) < List.length flds)%nat)
      by (apply nth_error_Some; congruence).
    rewrite <- Hnth in Hcol.
    apply reader_column_row in Hcol; [|lia | exact Hrow].
    replace (S (Z.to_nat (icol - NFIXED)))
      with (Z.to_nat (icol + 1 - NFIXED)) in H by (unfold NFIXED in *; lia).
    apply IH in H; [|lia | lia | exact Hcol].
    replace (icol + Z.of_nat (S n)) with (icol + 1 + Z.of_nat n) by lia.
    split; [apply H|]. destruct H as [_ H]. rewrite length_skipn in *.
    unfold NFIXED in *. lia.
Qed.

End ReaderProperties.

Lemma filter_testbit_0 l : filter (Z.testbit 0) l = [].
Proof.
  induction l as [|x l IH]; cbn [filter]; [reflexivity|].
  now rewrite Z.testbit_0_l.
Qed.

Lemma mapped_fixed_columns args : columns_mapped args -> NFIXED <= ncols args.
Proof.
  intros (L1 & _ & _ & _ & _ & _ & _ & HD & _). unfold NFIXED in *.
  destruct (Z.le_gt_cases 5 (ncols args)) as [H|H]; [exact H|].
  destruct (HD 4) as [H4 _]; [lia|]. unfold rd in H4.
  rewrite nth_overflow in H4 by lia. discriminate.
Qed.

(** The column loop of [annots_reader_next] as a whole. *)
Lemma annots_reader_next_inv args ln args' :
  columns_mapped args ->
  nann args <= Z.of_nat (List.length (vals args)) ->
  nann args <= Z.of_nat (List.length (raw_vals args)) ->
  nann args <= Z.of_nat (List.length (missing args)) ->
  annots_reader_next args ln = Ok args' ->
  (forall i, 0 <= i < nann args ->
     row_entry args (l_fields ln) i (vals args') (raw_vals args')
       (missing args') (nset_mask args')) /\
  nset args' = count_bits (nset_mask args') (nann args) /\
  ncols args - NFIXED <= Z.of_nat (List.length (l_fields ln)).
Proof.
  intros Hm Hv Hr Hmi H. unfold annots_reader_next in H.
  destruct (reader_columns _ _ _ _ _) as [a|e] eqn:Hcols; cbn [bind] in H;
    [|discriminate].
  injection H as <-. unfold set_row.
  cbn [vals raw_vals missing nset nset_mask].
  pose proof Hm as (_ & _ & _ & Hn & HA & _).
  pose proof (mapped_fixed_columns args Hm) as Hfixed.
  change (l_fields ln)
    with (skipn (Z.to_nat (NFIXED - NFIXED)) (l_fields ln)) in Hcols.
  apply (reader_columns_row args (l_fields ln) Hm Hv Hr Hmi) in Hcols.
  - destruct Hcols as ((_ & _ & _ & Hdone & _ & Hcount) & Hlen).
    change (Z.to_nat (NFIXED - NFIXED)) with 0%nat in Hlen.
    cbn [skipn] in Hlen.
    split; [|split; [exact Hcount | unfold NFIXED in *; lia]].
    intros i Hi. apply Hdone; [exact Hi|].
    destruct (HA i Hi) as (A1 & _). lia.
  - lia.
  - lia.
  - split; [reflexivity|]. split; [reflexivity|]. split; [reflexivity|].
    cbn [ra_vals ra_raw ra_missing ra_nset ra_mask]. split; [|split].
    + intros i Hi Hlt. destruct (HA i Hi) as (A1 & _). lia.
    + intros i _ _. apply Z.testbit_0_l.
    + unfold count_bits. now rewrite filter_testbit_0.
Qed.

Lemma column_next_app g rest :
  column_chars g = true -> ends_column rest ->
  column_next (g ++ rest) tab_char = rest.
Proof.
  intros Hg Hrest. induction g as [|c g IH]; cbn [append].
  - destruct Hrest as [->|[r ->]]; [reflexivity|].
    cbn [column_next]. now rewrite Ascii.eqb_refl.
  - cbn [column_chars] in Hg. apply andb_prop in Hg. destruct Hg as [Hc Hg].
    apply andb_prop in Hc. destruct Hc as [Hc _].
    cbn [column_next]. destruct (Ascii.eqb c tab_char); [discriminate|].
    now apply IH.
Qed.

Lemma column_text_app g rest :
  column_chars g = true -> ends_column rest ->
  column_text (g ++ rest) tab_char = g.
Proof.
  intros Hg Hrest. induction g as [|c g IH]; cbn [append].
  - destruct Hrest as [->|[r ->]]; [reflexivity|].
    cbn [column_text]. now rewrite Ascii.eqb_refl.
  - cbn [column_chars] in Hg. apply andb_prop in Hg. destruct Hg as [Hc Hg].
    apply andb_prop in Hc. destruct Hc as [Hc _].
    cbn [column_text]. destruct (Ascii.eqb c tab_char); [discriminate|].
    now rewrite IH.
Qed.

Lemma field_is_missing_app g rest :
  column_chars g = true -> ends_column rest ->
  field_is_missing (g ++ rest) = true ->
  next_char (g ++ rest) = rest.
Proof.
  intros Hg Hrest H. destruct g as [|c g]; cbn [append] in *.
  - destruct Hrest as [->|[r ->]]; [discriminate H|].
    cbn [field_is_missing] in H. apply andb_prop in H. destruct H as [H _].
    vm_compute in H. discriminate H.
  - cbn [next_char]. destruct g as [|c1 g]; [reflexivity|].
    cbn [append field_is_missing] in H.
    apply andb_prop in H. destruct H as [_ H].
    cbn [column_chars] in Hg. apply andb_prop in Hg. destruct Hg as [_ Hg].
    apply andb_prop in Hg. destruct Hg as [Hg _].
    apply andb_prop in Hg. destruct Hg as [H1 H2].
    destruct (Ascii.eqb c1 tab_char); [discriminate|].
    destruct (Ascii.eqb c1 newline_char); discriminate.
Qed.

Lemma str_mask_set_from_app a b i m :
  str_mask_set_from (a ++ String tab_char b) i m = str_mask_set_from a i m.
Proof.
  revert i. induction a as [|c a IH]; intros i; cbn [append str_mask_set_from].
  - reflexivity.
  - destruct (Ascii.eqb c "0" || Ascii.eqb c "1"); [|reflexivity].
    destruct (Ascii.eqb c "1" && negb (Z.land m (Z.shiftl i 1) =? 0));
      [reflexivity | apply IH].
Qed.

Lemma concat_cons_tab f l :
  String.concat tab (f :: l)
  = (f ++ match l with
          | [] => EmptyString
          | _ :: _ => String tab_char (String.concat tab l)
          end)%string.
Proof.
  destruct l as [|g l]; [cbn [String.concat]; now rewrite append_empty_r|].
  rewrite concat_two. reflexivity.
Qed.

Lemma column_ptr_ends fs j : ends_column (column_ptr fs (S j)).
Proof.
  unfold column_ptr. destruct (S j <? List.length fs)%nat;
    [right; eexists; reflexivity | now left].
Qed.

Lemma skipn_cons_nth {A} : forall (l : list A) j,
  (j < List.length l)%nat ->
  exists x, nth_error l j = Some x /\ skipn j l = x :: skipn (S j) l.
Proof.
  induction l as [|y l IH]; intros j Hj; cbn [List.length] in Hj; [lia|].
  destruct j as [|j]; [exists y; split; reflexivity|].
  destruct (IH j ltac:(lia)) as (x & H1 & H2). exists x. split; assumption.
Qed.

(** The text of a column lies between the pointer on entry to it and the
    pointer on entry to the next. *)
Lemma column_ptr_step fs j :
  Forall (fun s => column_chars s = true) fs ->
  hd_error fs <> Some EmptyString ->
  (j < List.length fs)%nat ->
  exists c g, column_ptr fs j = String c (g ++ column_ptr fs (S j))
              /\ column_chars g = true.
Proof.
  intros Hfs Hhd Hj. destruct j as [|j].
  - destruct fs as [|f fs]; [cbn in Hj; lia|].
    destruct f as [|c g]; [now elim Hhd|].
    exists c, g. split.
    + unfold column_ptr. rewrite concat_cons_tab. cbn [append].
      f_equal. f_equal. destruct fs as [|f' fs]; [reflexivity|].
      cbn [List.length skipn]. reflexivity.
    + apply Forall_inv in Hfs. cbn [column_chars] in Hfs.
      apply andb_prop in Hfs. apply Hfs.
  - destruct (skipn_cons_nth fs (S j) Hj) as (f & Hnth & Hskip).
    exists tab_char, f. split.
    + unfold column_ptr at 1. apply Nat.ltb_lt in Hj. rewrite Hj.
      rewrite Hskip, concat_cons_tab. f_equal. f_equal.
      unfold column_ptr.
      destruct (S (S j) <? List.length fs)%nat eqn:E.
      * apply Nat.ltb_lt in E.
        destruct (skipn_cons_nth fs (S (S j)) E) as (f' & _ & ->).
        reflexivity.
      * apply Nat.ltb_ge in E. rewrite skipn_all2 by exact E. reflexivity.
    + rewrite Forall_forall in Hfs. apply Hfs.
      eapply nth_error_In. exact Hnth.
Qed.

Lemma column_ptr_end fs j :
  hd_error fs <> Some EmptyString ->
  (List.length fs <= j)%nat -> column_ptr fs j = EmptyString.
Proof.
  intros Hhd Hj. destruct j as [|j].
  - destruct fs; [reflexivity | cbn in Hj; lia].
  - unfold column_ptr. apply Nat.ltb_ge in Hj. now rewrite Hj.
Qed.

Section ReaderTextProperties.

Variable strtol : string -> Z.
Variable sscanf_le : string -> option (option Q).
Variable args : args_t.
Variable fs : list string.

Hypothesis Hfs : Forall (fun s => column_chars s = true) fs.
Hypothesis Hhd : hd_error fs <> Some EmptyString.

(** A turn of the column loop on the text. *)
Lemma reader_column_text_step j a :
  (j < List.length fs)%nat ->
  reader_column_text sscanf_le args (NFIXED + Z.of_nat j) (column_ptr fs j, a)
  = if negb (rd 0 (ignore args) (NFIXED + Z.of_nat j) =? 0)
    then Ok (column_ptr fs (S j), a)
    else match field_read sscanf_le (column_read_from fs j) with
         | None => Err Err_data_field
         | Some v =>
             a' <- reader_column args (NFIXED + Z.of_nat j) (Some v) a ;;
             Ok (column_ptr fs (S j), a')
         end.
Proof.
  intros Hj. unfold column_read_from, field_read.
  destruct (column_ptr_step fs j Hfs Hhd Hj) as (c & g & -> & Hg).
  pose proof (column_ptr_ends fs j) as Hend.
  unfold reader_column_text. cbn [at_end next_char].
  destruct (negb (rd 0 (ignore args) (NFIXED + Z.of_nat j) =? 0)).
  - now rewrite column_next_app.
  - destruct (field_is_missing (g ++ column_ptr fs (S j))) eqn:Hdot.
    + now rewrite field_is_missing_app.
    + destruct (sscanf_le (g ++ column_ptr fs (S j))) as [v|]; [|reflexivity].
      now rewrite column_next_app.
Qed.

Lemma fields_read_nth j :
  (j < List.length fs)%nat ->
  nth_error (fields_read sscanf_le fs) j
  = Some match field_read sscanf_le (column_read_from fs j) with
         | Some v => v
         | None => None
         end.
Proof.
  intros Hj. unfold fields_read.
  rewrite nth_error_map, nth_error_nth' with (d := 0%nat)
    by (rewrite length_seq; exact Hj).
  now rewrite seq_nth.
Qed.

Lemma fields_read_length :
  List.length (fields_read sscanf_le fs) = List.length fs.
Proof. unfold fields_read. now rewrite length_map, length_seq. Qed.

(** The column loop on the text does what the loop does on the fields as
    read. *)
Lemma reader_columns_text_fields : forall n j a st,
  (j <= List.length fs)%nat ->
  reader_columns_text sscanf_le args n (NFIXED + Z.of_nat j)
    (column_ptr fs j, a) = Ok st ->
  reader_columns args n (NFIXED + Z.of_nat j)
    (skipn j (fields_read sscanf_le fs)) a = Ok (snd st) /\
  (j + n <= List.length fs)%nat /\
  forall k, (j <= k < j + n)%nat ->
    rd 0 (ignore args) (NFIXED + Z.of_nat k) = 0 ->
    field_read sscanf_le (column_read_from fs k) <> None.
Proof.
  induction n as [|n IH]; intros j a st Hle H.
  - cbn [reader_columns_text] in H. injection H as <-.
    cbn [reader_columns snd]. split; [reflexivity|]. split; [lia|].
    intros; lia.
  - cbn [reader_columns_text] in H.
    destruct (Nat.eq_dec j (List.length fs)) as [Heq|Hne].
    { rewrite (column_ptr_end fs j Hhd) in H by lia.
      cbn [reader_column_text at_end bind] in H. discriminate H. }
    assert (Hj : (j < List.length fs)%nat) by lia.
    rewrite (reader_column_text_step j a Hj) in H.
    replace (NFIXED + Z.of_nat j + 1) with (NFIXED + Z.of_nat (S j)) in *
      by lia.
    cbn [reader_columns].
    rewrite hd_error_skipn, (fields_read_nth j Hj), tl_skipn.
    replace (NFIXED + Z.of_nat j + 1) with (NFIXED + Z.of_nat (S j)) by lia.
    unfold reader_column at 1.
    destruct (negb (rd 0 (ignore args) (NFIXED + Z.of_nat j) =? 0)) eqn:Hign.
    + cbn [bind] in *. destruct (IH (S j) a st ltac:(lia) H) as (I1 & I2 & I3).
      split; [exact I1|]. split; [lia|].
      intros k Hk Hk0. destruct (Nat.eq_dec k j) as [->|Hkj].
      * rewrite Hk0 in Hign. discriminate Hign.
      * apply I3; [lia | exact Hk0].
    + destruct (field_read sscanf_le (column_read_from fs j)) as [v|] eqn:Hv;
        [|discriminate H].
      unfold reader_column in H. rewrite Hign in H.
      match type of H with
      | bind (bind ?m _) _ = _ => destruct m as [a'|e] eqn:Hcol
      end; [|discriminate H].
      cbn [bind] in *.
      destruct (IH (S j) a' st ltac:(lia) H) as (I1 & I2 & I3).
      split; [exact I1|]. split; [lia|].
      intros k Hk Hk0. destruct (Nat.eq_dec k j) as [->|Hkj].
      * rewrite Hv. discriminate.
      * apply I3; [lia | exact Hk0].
Qed.

End ReaderTextProperties.

Lemma line_text_columns chr pos mask ref alt fs :
  line_text chr pos mask ref alt fs
  = (chr ++ String tab_char
       (pos ++ String tab_char
          (mask ++ String tab_char
             (ref ++ String tab_char
                (alt ++ String tab_char (String.concat tab fs))))))%string.
Proof. reflexivity. Qed.

Lemma reader_mask_column good maskcol rest :
  reader_mask good (maskcol ++ String tab_char rest)
  = reader_mask good maskcol.
Proof.
  unfold reader_mask, str_mask_set. now rewrite str_mask_set_from_app.
Qed.

(** [annots_reader_next] on the text of a line is [annots_reader_next] on
    the fields as read. *)
Lemma annots_reader_next_text_fields strtol sscanf_le args
    chr pos mask ref alt fs args' :
  columns_mapped args ->
  Forall (fun s => column_chars s = true)
    (chr :: pos :: mask :: ref :: alt :: fs) ->
  hd_error fs <> Some EmptyString ->
  annots_reader_next_text strtol sscanf_le args
    (line_text chr pos mask ref alt fs) = Ok args' ->
  annots_reader_next args
    (mk_line chr
       (strtol (pos ++ tab ++ mask ++ tab ++ ref ++ tab ++ alt ++ tab
                ++ String.concat tab fs)%string)
       mask ref alt (fields_read sscanf_le fs)) = Ok args' /\
  forall i, 0 <= i < nann args ->
    field_read sscanf_le
      (column_read_from fs (Z.to_nat (rd 0 (ann2cols args) i - NFIXED)))
    <> None.
Proof.
  intros Hm Hcols Hhd H.
  pose proof Hm as (_ & _ & _ & _ & HA & _ & _ & HF & _).
  inversion Hcols as [|? ? Hchr Hc1]; subst.
  inversion Hc1 as [|? ? Hpos Hc2]; subst.
  inversion Hc2 as [|? ? Hmask Hc3]; subst.
  inversion Hc3 as [|? ? Href Hc4]; subst.
  inversion Hc4 as [|? ? Halt Hfs]; subst.
  rewrite line_text_columns in H. unfold annots_reader_next_text in H.
  cbv zeta in H.
  assert (Hend : forall r, ends_column (String tab_char r))
    by (intros r; right; eexists; reflexivity).
  rewrite !(column_next_app chr) in H by auto. cbn [at_end next_char] in H.
  rewrite !(column_next_app pos) in H by auto. cbn [at_end next_char] in H.
  rewrite !(column_next_app mask) in H by auto. cbn [at_end next_char] in H.
  rewrite !(column_next_app ref) in H by auto. cbn [at_end next_char] in H.
  rewrite !(column_next_app alt) in H by auto. cbn [at_end next_char] in H.
  rewrite (column_text_app chr), (column_text_app ref),
    (column_text_app alt), reader_mask_column in H by auto.
  destruct (HF 0 ltac:(unfold NFIXED; lia)) as [_ H0]. rewrite H0 in H.
  destruct (HF 1 ltac:(unfold NFIXED; lia)) as [_ H1]. rewrite H1 in H.
  destruct (HF 2 ltac:(unfold NFIXED; lia)) as [_ H2]. rewrite H2 in H.
  cbn [Z.eqb] in H.
  match type of H with
  | bind ?m _ = _ => destruct m as [st|e] eqn:Hloop
  end; [|discriminate H].
  cbn [bind] in H.
  change (String.concat tab fs) with (column_ptr fs 0) in Hloop.
  change NFIXED with (NFIXED + Z.of_nat 0) in Hloop at 2.
  apply (reader_columns_text_fields sscanf_le args fs Hfs Hhd) in Hloop;
    [|lia].
  destruct Hloop as (Hloop & Hlen & Hread).
  change (NFIXED + Z.of_nat 0) with NFIXED in Hloop. cbn [skipn] in Hloop.
  split.
  - unfold annots_reader_next. cbn [l_fields]. rewrite Hloop. cbn [bind].
    rewrite <- H. reflexivity.
  - intros i Hi. destruct (HA i Hi) as (A1 & _ & _ & A4).
    apply Hread.
    + unfold NFIXED in *. lia.
    + replace (NFIXED + Z.of_nat (Z.to_nat (rd 0 (ann2cols args) i - NFIXED)))
        with (rd 0 (ann2cols args) i) by (unfold NFIXED in *; lia).
      exact A4.
Qed.

Section ReaderRow.

Variable strtol : string -> Z.
Variable sscanf_le : string -> option (option Q).

(** X22 ([annots_reader_next]). The reader on the text of a line. When
    the two column maps are inverse to each other (as [init_annots]
    leaves them), there are at most 31 annotations, the columns of the
    line hold no tab or newline and the first data column is not empty, a
    line that [annots_reader_next] accepts has a field for every data
    column of the header, and the row is the one of the fields as the
    column loop reads them: the first data column from its second
    character on, since the pointer is moved past the tab of the ALT
    column and the loop then steps over one more character, every other
    column from its first. No field of an annotation failed to parse,
    and for every annotation [i] the row holds what was read at the
    column [ann2cols[i]]: for a finite number [x], [missing[i] = 0],
    [raw_vals[i] = x], the bit [i] of [nset_mask] is set, [vals[i]] is
    [x] when scaling is off and lies in [0,1] when it is on; for a missing
    value, [missing[i] = 1] and the bit [i] is clear. *)
Theorem annots_reader_next_row args chr pos mask ref alt fs args' :
  columns_mapped args ->
  nann args <= 31 ->
  nann args <= Z.of_nat (List.length (vals args)) ->
  nann args <= Z.of_nat (List.length (raw_vals args)) ->
  nann args <= Z.of_nat (List.length (missing args)) ->
  Forall (fun s => column_chars s = true)
    (chr :: pos :: mask :: ref :: alt :: fs) ->
  hd_error fs <> Some EmptyString ->
  annots_reader_next_text strtol sscanf_le args
    (line_text chr pos mask ref alt fs) = Ok args' ->
  let flds := fields_read sscanf_le fs in
  ncols args - NFIXED <= Z.of_nat (List.length fs) /\
  annots_reader_next args
    (mk_line chr
       (strtol (pos ++ tab ++ mask ++ tab ++ ref ++ tab ++ alt ++ tab
                ++ String.concat tab fs)%string)
       mask ref alt flds) = Ok args' /\
  forall i, 0 <= i < nann args ->
    field_read sscanf_le
      (column_read_from fs (Z.to_nat (rd 0 (ann2cols args) i - NFIXED)))
    <> None /\
    row_entry args flds i (vals args') (raw_vals args')
      (missing args') (nset_mask args').
Proof.
  intros Hm _ Hv Hr Hmi Hcols Hhd H flds.
  destruct (annots_reader_next_text_fields _ _ _ _ _ _ _ _ _ _
              Hm Hcols Hhd H) as (Habs & Hread).
  destruct (annots_reader_next_inv _ _ _ Hm Hv Hr Hmi Habs) as (H1 & _ & H3).
  cbn [l_fields] in H1, H3.
  split; [|split; [exact Habs|]].
  - subst flds.
    inversion Hcols as [|? ? _ Hc1]; subst.
    inversion Hc1 as [|? ? _ Hc2]; subst.
    inversion Hc2 as [|? ? _ Hc3]; subst.
    inversion Hc3 as [|? ? _ Hc4]; subst.
    inversion Hc4 as [|? ? _ Hfs]; subst.
    rewrite (fields_read_length sscanf_le fs) in H3. exact H3.
  - intros i Hi. split; [now apply Hread | now apply H1].
Qed.

End ReaderRow.

(** X23 ([annots_reader_next]). When the two column maps are inverse to
    each other (as [init_annots] leaves them) and there are at most 31
    annotations, after a line that [annots_reader_next] accepts [nset] is
    the number of annotations whose bit is set in [nset_mask], between 0
    and [nann], and the test [nset == nann] by which the callers take a
    row as complete holds exactly when no annotation of the row is marked
    missing. *)
Theorem annots_reader_next_complete args ln args' :
  columns_mapped args ->
  nann args <= 31 ->
  nann args <= Z.of_nat (List.length (vals args)) ->
  nann args <= Z.of_nat (List.length (raw_vals args)) ->
  nann args <= Z.of_nat (List.length (missing args)) ->
  annots_reader_next args ln = Ok args' ->
  nset args' = count_bits (nset_mask args') (nann args) /\
  0 <= nset args' <= nann args /\
  (nset args' = nann args <->
   forall i, 0 <= i < nann args -> rd 0 (missing args') i = 0).
Proof.
  intros Hm _ Hv Hr Hmi H.
  destruct (annots_reader_next_inv _ _ _ Hm Hv Hr Hmi H) as (H1 & H2 & _).
  pose proof Hm as (_ & _ & _ & Hn & _).
  split; [exact H2|]. split; [rewrite H2; now apply count_bits_bounds|].
  rewrite H2, count_bits_full by exact Hn.
  split; intros Hall i Hi; specialize (H1 i Hi); specialize (Hall i Hi);
    unfold row_entry in H1;
    destruct (nth_error _ _) as [[x|]|]; try contradiction.
  - apply H1.
  - destruct H1 as (_ & Hb). congruence.
  - apply H1.
  - destruct H1 as (Hb & _). lia.
Qed.

Lemma annots_reader_next_row_witness :
  exists args',
    annots_reader_next_text strtol_digits scan_le_decimal args_mq_qual
      (line_text "1" "100" "010" "A" "G" fields_15_40_3) = Ok args' /\
    rd 0%Q (raw_vals args') 0 = 40%Q /\ rd 0%Q (raw_vals args') 1 = 5%Q.
Proof.
  destruct (annots_reader_next_text strtol_digits scan_le_decimal
              args_mq_qual (line_text "1" "100" "010" "A" "G" fields_15_40_3))
    as [args'|e] eqn:E; [|vm_compute in E; discriminate E].
  exists args'. split; [reflexivity|].
  destruct (init_annots_mapped args_qual header_two (Some "MQ,QUAL"%string)
              args_mq_qual eq_refl) as (Hm & Hv & Hr & Hmi & _).
  destruct (annots_reader_next_row strtol_digits scan_le_decimal
              args_mq_qual "1" "100" "010" "A" "G" fields_15_40_3 args' Hm)
    as (_ & _ & Hrow);
    try (vm_compute; intros F; discriminate F); try exact E.
  - repeat constructor.
  - split.
    + exact (proj1 (proj2 (proj2
        (Hrow 0 ltac:(vm_compute; split; [intros F|]; congruence))))).
    + exact (proj1 (proj2 (proj2
        (Hrow 1 ltac:(vm_compute; split; [intros F|]; congruence))))).
Defined.

(** A first data column of a single character is read from the column
    after it: here QUAL, written 5, is read as the 40 of MQ. *)
Example annots_reader_next_text_single :
  exists args',
    annots_reader_next_text strtol_digits scan_le_decimal args_mq_qual
      (line_text "1" "100" "010" "A" "G" fields_5_40_3) = Ok args' /\
    rd 0%Q (raw_vals args') 1 = 40%Q.
Proof.
  eexists. split; [vm_compute; reflexivity | reflexivity].
Qed.

Lemma annots_reader_next_complete_witness :
  exists args',
    annots_reader_next args_mq_qual line_mq_40 = Ok args' /\
    nset args' = 2.
Proof.
  destruct (annots_reader_next args_mq_qual line_mq_40)
    as [args'|e] eqn:E; [|vm_compute in E; discriminate E].
  exists args'. split; [reflexivity|].
  destruct (init_annots_mapped args_qual header_two (Some "MQ,QUAL"%string)
              args_mq_qual eq_refl) as (Hm & Hv & Hr & Hmi & _).
  destruct (annots_reader_next_complete args_mq_qual line_mq_40 args' Hm)
    as (H1 & _); try (vm_compute; intros F; discriminate F);
    try exact E.
  rewrite H1. vm_compute in E. injection E as <-. reflexivity.
Defined.

(* ------------------------------------------------------------------ *)
(** ** Filters and the columns of the table *)

Lemma annots_kept_refl a : 0 <= nann a -> annots_kept a a.
Proof. intros H. repeat split; auto; lia. Qed.

Lemma annots_kept_trans a b c :
  annots_kept a b -> annots_kept b c -> annots_kept a c.
Proof.
  intros (H1 & H2 & H3) (G1 & G2 & G3). split; [congruence|].
  split; [lia|]. intros i Hi.
  destruct (H3 i Hi) as (A & B). destruct (G3 i) as (C & D); [lia|].
  split; congruence.
Qed.

Lemma find_side_find_col cols left right : forall n i icol swapped,
  find_side n i cols left right = Some (icol, swapped) ->
  find_col n i cols (if swapped then right else left) = Some icol.
Proof.
  induction n as [|n IH]; intros i icol swapped H; [discriminate|].
  cbn [find_side] in H. cbn [find_col].
  destruct (String.eqb (rd EmptyString cols i) left) eqn:El.
  - injection H as <- <-. rewrite String.eqb_sym, El. reflexivity.
  - destruct (String.eqb (rd EmptyString cols i) right) eqn:Er.
    + injection H as <- <-. rewrite String.eqb_sym, Er. reflexivity.
    + rewrite (String.eqb_sym _ (rd EmptyString cols i)).
      apply IH in H. destruct swapped; rewrite ?El, ?Er; exact H.
Qed.

Lemma init_extra_annot_ready args annot j a :
  reader_ready args ->
  find_col (Z.to_nat (ncols args - NFIXED)) NFIXED (colnames args) annot
  = Some j ->
  rd 0 (col2names args) j = -1 ->
  init_extra_annot args annot = Ok a ->
  reader_ready a /\ annots_kept args a.
Proof.
  intros (Hm & Hlen) Hfind Hfree H. unfold init_extra_annot in H.
  rewrite Hfind in H. injection H as <-.
  apply find_col_spec in Hfind. destruct Hfind as (Hj & Hname).
  pose proof Hm as (L1 & L2 & _ & Hn & _).
  unfold reader_ready, annots_kept, columns_mapped, set_annots.
  cbn [ncols nann colnames names col2names ann2cols ignore nann_som].
  split; [split|].
  - apply (mapped_step _ _ _ (names args)); auto.
    + intros k Hk. apply rd_app_l. lia.
    + rewrite <- Hlen, rd_app_last. congruence.
    + lia.
  - rewrite length_app. cbn [List.length]. lia.
  - split; [reflexivity|]. split; [lia|]. intros i Hi. split.
    + apply rd_app_l. lia.
    + apply rd_wr_other; lia.
Qed.

Section FiltersAndColumns.

Variable sscanf_le : string -> option Q.

Lemma init_filters_term_ready scale left e args filts e3 args' filts' :
  init_filters_term sscanf_le scale left e args filts = Ok (e3, args', filts') ->
  reader_ready args ->
  reader_ready args' /\ annots_kept args args'.
Proof.
  intros H Hr. unfold init_filters_term in H.
  destruct (span is_cmp_char e) as [op e2].
  destruct e2 as [|ch2 e2]; [discriminate|].
  destruct (cmp_type op) as [type|]; cbn [bind] in H; [|discriminate].
  destruct (span _ (String ch2 e2)) as [right e3'].
  destruct (find_side _ _ _ _ _) as [[icol swapped]|] eqn:Hside;
    [|discriminate].
  apply find_side_find_col in Hside.
  destruct (rd 0 (col2names args) icol =? -1) eqn:Hfree.
  - apply Z.eqb_eq in Hfree.
    destruct (init_extra_annot args (if swapped then right else left))
      as [a|] eqn:Ea; cbn [bind] in H; [|discriminate].
    destruct (sscanf_le _) as [value|]; [|discriminate].
    destruct (if negb (scale =? 0) then _ else _) as [v|]; cbn [bind] in H;
      [|discriminate].
    injection H as _ <- _.
    exact (init_extra_annot_ready _ _ _ _ Hr Hside Hfree Ea).
  - cbn [bind] in H.
    destruct (sscanf_le _) as [value|]; [|discriminate].
    destruct (if negb (scale =? 0) then _ else _) as [v|]; cbn [bind] in H;
      [|discriminate].
    injection H as _ <- _. split; [exact Hr|].
    apply annots_kept_refl. apply Hr.
Qed.

Lemma init_filters_loop_ready scale :
  forall fuel tok e args filts args' filts',
    init_filters_loop sscanf_le fuel scale tok e args filts
    = Ok (args', filts') ->
    reader_ready args ->
    reader_ready args' /\ annots_kept args args'.
Proof.
  induction fuel as [|fuel IH]; intros tok e args filts args' filts' H Hr;
    cbn [init_filters_loop] in H; [discriminate|].
  destruct e as [|ch e1].
  - injection H as <- _. split; [exact Hr|].
    apply annots_kept_refl. apply Hr.
  - destruct (Ascii.eqb ch "&"); [apply (IH _ _ _ _ _ _ H Hr)|].
    destruct (is_cmp_char ch); [|apply (IH _ _ _ _ _ _ H Hr)].
    destruct (init_filters_term sscanf_le scale tok (String ch e1) args filts)
      as [[[e3 a] f]|] eqn:Eterm; cbn [bind] in H; [|discriminate].
    destruct (init_filters_term_ready _ _ _ _ _ _ _ _ Eterm Hr) as (H1 & H2).
    destruct (IH _ _ _ _ _ _ H H1) as (G1 & G2).
    split; [exact G1|]. exact (annots_kept_trans _ _ _ H2 G2).
Qed.

(** X24 ([init_filters], [init_extra_annot]). Parsing a filter expression
    keeps the reader ready: when the column maps are inverse to each other
    before [init_filters], they are so after it, although it may have added
    annotations that only the expression names. The annotations that were
    there keep their names and their columns, the new ones come after
    them, and [nann_som], the number of annotations the map is trained on,
    is as before. *)
Theorem init_filters_keeps_reader_ready args str scale args' filts :
  reader_ready args ->
  init_filters sscanf_le args str scale = Ok (args', filts) ->
  reader_ready args' /\ annots_kept args args'.
Proof.
  intros Hr H. unfold init_filters in H.
  destruct (init_filters_loop _ _ _ _ _ _ _) as [[a f]|] eqn:Eloop;
    cbn [bind] in H; [|discriminate].
  destruct (_ <? _); [discriminate|]. injection H as <- _.
  exact (init_filters_loop_ready _ _ _ _ _ _ _ _ Eloop Hr).
Qed.

End FiltersAndColumns.

Lemma init_filters_keeps_reader_ready_witness :
  exists a f,
    init_filters scan_decimal args_mq_qual "DP>3" 0 = Ok (a, f) /\
    reader_ready a /\ nann a = 3.
Proof.
  destruct (init_filters scan_decimal args_mq_qual "DP>3" 0)
    as [[a f]|e] eqn:E; [|vm_compute in E; discriminate E].
  exists a, f. split; [reflexivity|].
  assert (Hr : reader_ready args_mq_qual).
  { split; [|reflexivity].
    apply (init_annots_mapped args_qual header_two (Some "MQ,QUAL"%string)).
    reflexivity. }
  split.
  - exact (proj1 (init_filters_keeps_reader_ready scan_decimal _ _ _ _ _ Hr E)).
  - vm_compute in E. injection E as <- _. reflexivity.
Defined.

(* ------------------------------------------------------------------ *)
(** ** The meaning of a parsed predicate *)

Lemma cmp_type_cases op type :
  cmp_type op = Ok type ->
  (op = "=="%string /\ type = FLT_EQ) \/ (op = "<="%string /\ type = FLT_LE) \/
  (op = ">="%string /\ type = FLT_BE) \/ (op = ">"%string /\ type = FLT_BT) \/
  (op = "<"%string /\ type = FLT_LT) \/ (op = "="%string /\ type = FLT_EQ).
Proof.
  unfold cmp_type.
  destruct (Z.of_nat (String.length op) =? 2).
  - destruct (String.eqb op "==") eqn:E1;
      [apply String.eqb_eq in E1; intros H; injection H as <-; intuition auto|].
    destruct (String.eqb op "<=") eqn:E2;
      [apply String.eqb_eq in E2; intros H; injection H as <-; intuition auto|].
    destruct (String.eqb op ">=") eqn:E3;
      [apply String.eqb_eq in E3; intros H; injection H as <-; intuition auto|].
    discriminate.
  - destruct (Z.of_nat (String.length op) =? 1); [|discriminate].
    destruct (String.eqb op ">") eqn:E1;
      [apply String.eqb_eq in E1; intros H; injection H as <-; intuition auto|].
    destruct (String.eqb op "<") eqn:E2;
      [apply String.eqb_eq in E2; intros H; injection H as <-; intuition auto|].
    destruct (String.eqb op "=") eqn:E3;
      [apply String.eqb_eq in E3; intros H; injection H as <-; intuition auto|].
    discriminate.
Qed.

Lemma Qeq_bool_sym a b : Qeq_bool a b = Qeq_bool b a.
Proof.
  destruct (Qeq_bool a b) eqn:E1, (Qeq_bool b a) eqn:E2; try reflexivity.
  - apply Qeq_bool_iff in E1. symmetry in E1. apply Qeq_bool_iff in E1.
    congruence.
  - apply Qeq_bool_iff in E2. symmetry in E2. apply Qeq_bool_iff in E2.
    congruence.
Qed.

(** The key of an operator, negated when the annotation stands on the
    right, makes [failed_filters] test what the text says. *)
Lemma filter_fails_meaning op type (swapped : bool) value desc vec i :
  cmp_type op = Ok type ->
  filter_fails vec i
    (mk_filter (if swapped then type * -1 else type) value desc)
  = negb (if swapped then cmp_holds op value (rd 0%Q vec i)
          else cmp_holds op (rd 0%Q vec i) value).
Proof.
  intros H. apply cmp_type_cases in H.
  destruct H as [H|[H|[H|[H|[H|H]]]]]; destruct H as [-> ->];
    destruct swapped; unfold filter_fails, cmp_holds, Qltb;
    cbn [f_type f_value String.eqb Ascii.eqb Bool.eqb FLT_EQ FLT_LE FLT_BE
         FLT_BT FLT_LT Z.mul Z.eqb Pos.mul Pos.eqb Z.opp];
    rewrite ?negb_involutive; try reflexivity;
    now rewrite Qeq_bool_sym.
Qed.

Section PredicateMeaning.

Variable sscanf_le : string -> option Q.

(** X25 ([init_filters], [failed_filters]). A term [left op right] of a
    filter expression that [init_filters] accepts names an annotation on
    one side and a number on the other; the predicate it appends to the
    filters of that annotation is evaluated by [failed_filters] as the
    text reads: it fails on a vector exactly when the comparison [op]
    does not hold between the value of the annotation and the stored
    threshold, taken in the order in which they were written. So
    [5<QUAL] is the test [QUAL>5]. Without scaling the threshold is the
    number that was written. *)
Theorem init_filters_term_meaning scale left e args filts e3 args' filts' :
  init_filters_term sscanf_le scale left e args filts
  = Ok (e3, args', filts') ->
  let op := fst (span is_cmp_char e) in
  let right :=
    fst (span (fun ch => negb (Ascii.eqb ch "&")) (snd (span is_cmp_char e))) in
  exists icol swapped value flt,
    find_side (Z.to_nat (ncols args - NFIXED)) NFIXED (colnames args)
      left right = Some (icol, swapped) /\
    sscanf_le (if swapped then left else right) = Some value /\
    (scale = 0 -> f_value flt = value) /\
    let i := rd 0 (col2names args') icol in
    filt filts' = wr (filt filts) i (rd [] (filt filts) i ++ [flt]) /\
    forall vec,
      filter_fails vec i flt
      = negb (if swapped then cmp_holds op (f_value flt) (rd 0%Q vec i)
              else cmp_holds op (rd 0%Q vec i) (f_value flt)).
Proof.
  intros H op right. subst op right. unfold init_filters_term in H.
  destruct (span is_cmp_char e) as [op e2]. cbn [fst snd].
  destruct e2 as [|ch2 e2]; [discriminate|].
  destruct (cmp_type op) as [type|] eqn:Htype; cbn [bind] in H;
    [|discriminate].
  destruct (span _ (String ch2 e2)) as [right e3']. cbn [fst].
  destruct (find_side _ _ _ _ _) as [[icol swapped]|]; [|discriminate].
  exists icol, swapped.
  destruct (rd 0 (col2names args) icol =? -1).
  - destruct (init_extra_annot args (if swapped then right else left))
      as [a|] eqn:Ea; cbn [bind] in H; [|discriminate].
    destruct (sscanf_le _) as [value|]; [|discriminate].
    exists value.
    destruct (if negb (scale =? 0) then _ else _) as [v|] eqn:Hv;
      cbn [bind] in H; [|discriminate].
    injection H as _ <- <-. cbn [filt].
    eexists. split; [reflexivity|]. split; [reflexivity|].
    split; [|split; [reflexivity|]].
    + intros ->. cbn in Hv. cbn [f_value]. congruence.
    + intros vec. now apply filter_fails_meaning.
  - cbn [bind] in H.
    destruct (sscanf_le _) as [value|]; [|discriminate].
    exists value.
    destruct (if negb (scale =? 0) then _ else _) as [v|] eqn:Hv;
      cbn [bind] in H; [|discriminate].
    injection H as _ <- <-. cbn [filt].
    eexists. split; [reflexivity|]. split; [reflexivity|].
    split; [|split; [reflexivity|]].
    + intros ->. cbn in Hv. cbn [f_value]. congruence.
    + intros vec. now apply filter_fails_meaning.
Qed.

End PredicateMeaning.

Lemma init_filters_term_meaning_witness :
  exists e3 a f,
    init_filters_term scan_decimal 0 "5" "<QUAL" args_two (no_filters args_two)
    = Ok (e3, a, f) /\
    exists flt,
      filt f = [[flt]; []] /\
      forall vec, filter_fails vec 0 flt = negb (Qltb 5 (rd 0%Q vec 0)).
Proof.
  destruct (init_filters_term scan_decimal 0 "5" "<QUAL" args_two
              (no_filters args_two)) as [[[e3 a] f]|e] eqn:E;
    [|vm_compute in E; discriminate E].
  exists e3, a, f. split; [reflexivity|].
  destruct (init_filters_term_meaning scan_decimal _ _ _ _ _ _ _ _ E)
    as (icol & swapped & value & flt & H1 & H2 & H3 & H4 & H5).
  vm_compute in H1. injection H1 as <- <-.
  vm_compute in H2. injection H2 as <-.
  exists flt. split.
  - rewrite H4. vm_compute in E. injection E as _ <- _. reflexivity.
  - intros vec. specialize (H5 vec). rewrite (H3 eq_refl) in H5.
    vm_compute in E. injection E as _ <- _. exact H5.
Defined.

(* ------------------------------------------------------------------ *)
(** ** The statistics of a column *)

Lemma min_update (first : bool) (x m : Q) :
  let m0 := if first then x else m in
  let m' := if Qltb x m0 then x else m0 in
  (m' <= x)%Q /\ (first = false -> (m' <= m)%Q) /\
  (m' = x \/ (first = false /\ m' = m)).
Proof.
  destruct first; cbn zeta.
  - destruct (Qltb x x); repeat split; auto; try lra; discriminate.
  - destruct (Qltb x m) eqn:E.
    + apply Qltb_lt in E. repeat split; auto; lra.
    + apply Qltb_ge in E. repeat split; auto; lra.
Qed.

Lemma max_update (first : bool) (x m : Q) :
  let m0 := if first then x else m in
  let m' := if Qltb m0 x then x else m0 in
  (x <= m')%Q /\ (first = false -> (m <= m')%Q) /\
  (m' = x \/ (first = false /\ m' = m)).
Proof.
  destruct first; cbn zeta.
  - destruct (Qltb x x); repeat split; auto; try lra; discriminate.
  - destruct (Qltb m x) eqn:E.
    + apply Qltb_lt in E. repeat split; auto; lra.
    + apply Qltb_ge in E. repeat split; auto; lra.
Qed.

Lemma is_min_max_snoc l lo hi lo' hi' x (m : Z) :
  is_min_max l lo hi ->
  (lo' <= x <= hi')%Q ->
  (l <> [] -> (lo' <= lo)%Q /\ (hi <= hi')%Q) ->
  (lo' = x \/ (l <> [] /\ lo' = lo)) ->
  (hi' = x \/ (l <> [] /\ hi' = hi)) ->
  is_min_max (l ++ [(x, m)]) lo' hi'.
Proof.
  intros (Hb & Hin) Hx Hle Hlo Hhi. split.
  - intros p Hp. apply in_app_iff in Hp. destruct Hp as [Hp|[<-|[]]].
    + assert (l <> []) as Hne by (intros ->; contradiction).
      specialize (Hb p Hp). specialize (Hle Hne). lra.
    + exact Hx.
  - intros _. rewrite map_app. cbn [map fst]. split; apply in_app_iff.
    + destruct Hlo as [->|[Hne ->]]; [right; now left|].
      left. now apply Hin.
    + destruct Hhi as [->|[Hne ->]]; [right; now left|].
      left. now apply Hin.
Qed.

Lemma present_app l1 l2 : present (l1 ++ l2) = present l1 ++ present l2.
Proof. unfold present. apply flat_map_app. Qed.

(** The first pass of [create_dists] over the rows of one column. *)
Lemma stats_fold_spec le_text : forall entries,
  let st := fold_left (fun st e => stats_step le_text st (fst e) (snd e))
              entries (mk_stats 0 0 0 0 0 0 0 []) in
  s_nall st = Z.of_nat (List.length (present entries)) /\
  s_ngood st = Z.of_nat (List.length (present_good entries)) /\
  s_nall st + s_nmissing st = Z.of_nat (List.length entries) /\
  s_file st
  = map (fun p => (le_text (fst p), if IS_GOOD (snd p) then 1 else 0))
      (present entries) /\
  is_min_max (present entries) (s_all_min st) (s_all_max st) /\
  is_min_max (present_good entries) (s_good_min st) (s_good_max st).
Proof.
  induction entries as [|[raw mask] entries IH] using rev_ind.
  - cbn. repeat split; try reflexivity; try contradiction;
      intros p [].
  - rewrite fold_left_app. cbn [fold_left fst snd].
    set (st := fold_left _ entries _) in *. cbn zeta in IH.
    destruct IH as (Hall & Hgood & Hsum & Hfile & Hmm & Hgmm).
    unfold present_good in *. rewrite present_app, length_app.
    cbn [List.length]. rewrite filter_app, map_app.
    destruct raw as [x|]; cbn [stats_step present flat_map fst snd app].
    + cbn [s_nall s_ngood s_nmissing s_file s_all_min s_all_max s_good_min
           s_good_max List.length filter map fst snd].
      rewrite !length_app. cbn [List.length].
      split; [lia|]. split.
      { destruct (IS_GOOD mask); cbn [List.length]; rewrite ?length_app;
          cbn [List.length]; lia. }
      split; [lia|]. split; [now rewrite Hfile|]. split.
      * pose proof (min_update (s_nall st =? 0) x (s_all_min st)) as Hmin.
        pose proof (max_update (s_nall st =? 0) x (s_all_max st)) as Hmax.
        cbn zeta in Hmin, Hmax.
        destruct Hmin as (M1 & M2 & M3). destruct Hmax as (N1 & N2 & N3).
        assert (Hne : present entries <> [] -> (s_nall st =? 0) = false).
        { intros Hne. rewrite Hall. destruct (present entries);
            [contradiction|]. cbn [List.length]. apply Z.eqb_neq. lia. }
        assert (Hnn : (s_nall st =? 0) = false -> present entries <> []).
        { intros Hf Hnil. rewrite Hall, Hnil in Hf. discriminate. }
        apply (is_min_max_snoc _ (s_all_min st) (s_all_max st)).
        -- exact Hmm.
        -- split; assumption.
        -- intros H. split; auto.
        -- destruct M3 as [M3|[M3 M4]]; [now left | right; auto].
        -- destruct N3 as [N3|[N3 N4]]; [now left | right; auto].
      * destruct (IS_GOOD mask) eqn:Eg; cbn [andb app];
          [|rewrite app_nil_r; exact Hgmm].
        pose proof (min_update (s_ngood st =? 0) x (s_good_min st)) as Hmin.
        pose proof (max_update (s_ngood st =? 0) x (s_good_max st)) as Hmax.
        cbn zeta in Hmin, Hmax.
        destruct Hmin as (M1 & M2 & M3). destruct Hmax as (N1 & N2 & N3).
        set (pg := filter (fun p => IS_GOOD (snd p)) (present entries)) in *.
        assert (Hne : pg <> [] -> (s_ngood st =? 0) = false).
        { intros Hne. rewrite Hgood. destruct pg;
            [contradiction|]. cbn [List.length]. apply Z.eqb_neq. lia. }
        assert (Hnn : (s_ngood st =? 0) = false -> pg <> []).
        { intros Hf Hnil. rewrite Hgood, Hnil in Hf. discriminate. }
        apply (is_min_max_snoc _ (s_good_min st) (s_good_max st)).
        -- exact Hgmm.
        -- split; assumption.
        -- intros H. split; auto.
        -- destruct M3 as [M3|[M3 M4]]; [now left | right; auto].
        -- destruct N3 as [N3|[N3 N4]]; [now left | right; auto].
    + cbn [s_nall s_ngood s_nmissing s_file s_all_min s_all_max s_good_min
           s_good_max List.length filter map].
      rewrite !app_nil_r, ?Nat.add_0_r, ?length_app. cbn [List.length].
      split; [lia|]. split; [lia|]. split; [lia|]. split; [exact Hfile|].
      split; [exact Hmm | exact Hgmm].
Qed.

Lemma pct_monotone nall k k' :
  0 < nall -> k <= k' -> (pct nall k <= pct nall k')%Q.
Proof.
  intros Hn Hk. unfold pct, of_int, Qdiv.
  assert (Hc : (0 < / inject_Z nall)%Q).
  { apply Qinv_lt_0_compat. change 0%Q with (inject_Z 0).
    rewrite <- Zlt_Qlt. exact Hn. }
  assert (Hab : (inject_Z k <= inject_Z k')%Q) by (now rewrite <- Zle_Qle).
  nra.
Qed.

(** On values that do not decrease, the scan of [create_dists] gives two
    values of the column, the lower one first. *)
Lemma percentiles_ordered lo hi nall val0 vs :
  vs <> [] -> 0 < nall -> (lo <= hi)%Q -> ascending vs ->
  exists a b,
    percentiles lo hi nall val0 vs = (Fin a, Fin b) /\
    (a <= b)%Q /\ In a vs /\ In b vs.
Proof.
  intros Hne Hn Hlohi Hasc.
  destruct (exists_last Hne) as (l & x & ->).
  unfold percentiles.
  destruct (pctl_scan_invariant lo hi nall val0 l x) as (_ & Hv & Hmin & Hmax).
  set (st := fold_left _ _ _) in *.
  destruct Hmin as (k & Hk & Hs & Hlo & _).
  assert (Hin : forall j, 1 <= j <= Z.of_nat (List.length (l ++ [x])) ->
            In (rd 0%Q (l ++ [x]) (j - 1)) (l ++ [x])).
  { intros j Hj. unfold rd. apply nth_In. lia. }
  destruct Hmax as [[Hh _]|(k' & Hk' & Hs' & Hhi & _)].
  - rewrite Hs, Hh, Hv. cbn [is_huge].
    exists (rd 0%Q (l ++ [x]) (k - 1)), x.
    split; [reflexivity|]. split; [|split; [now apply Hin|]].
    + rewrite <- (rd_app_last 0%Q l x) at 2.
      rewrite length_app in Hk. cbn [List.length] in Hk.
      apply Hasc; rewrite ?length_app; cbn [List.length]; lia.
    + apply in_app_iff. right. now left.
  - rewrite Hs, Hs'. cbn [is_huge].
    exists (rd 0%Q (l ++ [x]) (k - 1)), (rd 0%Q (l ++ [x]) (k' - 1)).
    split; [reflexivity|]. split; [|split; now apply Hin].
    apply Hasc; try lia.
    destruct Hlo as [->|Hlo]; [lia|].
    apply Qltb_lt in Hlo, Hhi.
    destruct (Z.le_gt_cases k k') as [Hle|Hgt]; [lia|].
    pose proof (pct_monotone nall k' k Hn ltac:(lia)). lra.
Qed.

Section ColumnStatistics.

Variable sort_k1g : list (Q * Z) -> list (Q * Z).
Variable le_text : Q -> Q.

(** X26 ([create_dists]). The first pass of [create_dists] counts and
    bounds what the reader returned for an annotation, as the [.n] file
    says: [nall] is the number of the rows with a value that is not
    missing, [ngood] the number of those in the good set, [nall +
    nmissing] the number of rows; [all_min] and [all_max] are the least
    and the greatest of the raw values, [good_min] and [good_max] those of
    the values of the good rows, whatever the sort does. The scratch file
    holds one line for each value that is not missing, in the order of the
    table, with the flag of its row; its number is the value as the text
    written with ["%le"] reads back, not the value itself. *)
Theorem create_dists_column_stats lo hi val0 entries :
  let st := fst (create_dists_column sort_k1g le_text lo hi val0 entries) in
  s_nall st = Z.of_nat (List.length (present entries)) /\
  s_ngood st = Z.of_nat (List.length (present_good entries)) /\
  s_nall st + s_nmissing st = Z.of_nat (List.length entries) /\
  s_file st
  = map (fun p => (le_text (fst p), if IS_GOOD (snd p) then 1 else 0))
      (present entries) /\
  is_min_max (present entries) (s_all_min st) (s_all_max st) /\
  is_min_max (present_good entries) (s_good_min st) (s_good_max st).
Proof.
  unfold create_dists_column. cbn [fst]. apply stats_fold_spec.
Qed.

(** X27 ([create_dists]). The scaling bounds are taken from the text of
    the scratch file, the extremes from the values in memory. For an
    annotation with at least one value, when writing and reading with
    ["%le"] keeps the order of numbers, the sort returns the lines of the
    scratch file in an order in which the numbers do not decrease, and
    [lo_pctl <= hi_pctl], the two bounds are numbers of the scratch file
    and lie in order between the extremes as the text renders them:
    [le_text all_min <= scale_min <= scale_max <= le_text all_max]. They
    need not lie between the extremes themselves. *)
Theorem create_dists_column_scale_ordered lo hi val0 entries :
  let r := create_dists_column sort_k1g le_text lo hi val0 entries in
  (forall x y, (x <= y)%Q -> (le_text x <= le_text y)%Q) ->
  Permutation (sort_k1g (s_file (fst r))) (s_file (fst r)) ->
  ascending (map fst (sort_k1g (s_file (fst r)))) ->
  present entries <> [] ->
  (lo <= hi)%Q ->
  exists a b,
    snd r = (Fin a, Fin b) /\
    In a (map le_text (map fst (present entries))) /\
    In b (map le_text (map fst (present entries))) /\
    (le_text (s_all_min (fst r)) <= a)%Q /\ (a <= b)%Q /\
    (b <= le_text (s_all_max (fst r)))%Q.
Proof.
  intros r. subst r. unfold create_dists_column. cbn [fst snd].
  destruct (stats_fold_spec le_text entries)
    as (Hall & _ & _ & Hfile & Hmm & _).
  set (st := fold_left _ entries _) in *.
  intros Hmono Hperm Hasc Hne Hlohi.
  assert (Hvals : forall v, In v (map fst (sort_k1g (s_file st))) ->
            In v (map le_text (map fst (present entries)))).
  { intros v Hv. apply (Permutation_in _ (Permutation_map fst Hperm)) in Hv.
    rewrite Hfile, !map_map in Hv. rewrite map_map. exact Hv. }
  destruct (percentiles_ordered lo hi (s_nall st) val0
              (map fst (sort_k1g (s_file st)))) as (a & b & Hp & Hab & Ha & Hb).
  - intros Hnil. apply (f_equal (@List.length Q)) in Hnil.
    rewrite length_map, (Permutation_length Hperm), Hfile, length_map in Hnil.
    destruct (present entries); [contradiction | discriminate].
  - rewrite Hall. destruct (present entries); [contradiction|].
    cbn [List.length]. lia.
  - exact Hlohi.
  - exact Hasc.
  - exists a, b. split; [exact Hp|].
    apply Hvals in Ha, Hb. split; [exact Ha|]. split; [exact Hb|].
    rewrite map_map in Ha, Hb. apply in_map_iff in Ha, Hb.
    destruct Ha as (pa & <- & Ha). destruct Hb as (pb & <- & Hb).
    destruct Hmm as (Hbound & _).
    destruct (Hbound pa Ha) as [A1 A2]. destruct (Hbound pb Hb) as [B1 B2].
    split; [now apply Hmono|]. split; [exact Hab | now apply Hmono].
Qed.

End ColumnStatistics.

Lemma create_dists_column_scale_ordered_witness :
  exists a b,
    snd (create_dists_column (fun l => l) (fun x => x) (1 # 10) (999 # 10) 0
           column_three)
    = (Fin a, Fin b) /\ (a <= b)%Q.
Proof.
  destruct (create_dists_column_scale_ordered (fun l => l) (fun x => x)
              (1 # 10) (999 # 10) 0 column_three)
    as (a & b & H1 & _ & _ & _ & H2 & _).
  - intros x y H. exact H.
  - apply Permutation_refl.
  - intros i j Hi Hij Hj.
    match type of Hj with
    | _ < ?n => let v := eval vm_compute in n in change n with v in Hj
    end.
    assert (Hc : (i = 0 /\ j = 0) \/ (i = 0 /\ j = 1) \/ (i = 1 /\ j = 1))
      by lia.
    destruct Hc as [[-> ->]|[[-> ->]|[-> ->]]]; vm_compute; intros F;
      discriminate F.
  - discriminate.
  - vm_compute. intros F. discriminate F.
  - exists a, b. split; assumption.
Defined.

(* ------------------------------------------------------------------ *)
(** ** The training budget *)

Lemma to_int_floor x :
  (0 <= x)%Q -> 0 <= to_int x /\ (inject_Z (to_int x) <= x)%Q.
Proof.
  intros Hx. unfold to_int. destruct x as [n d]. cbn [Qnum Qden].
  assert (Hn : 0 <= n).
  { unfold Qle in Hx. cbn in Hx. lia. }
  rewrite Z.quot_div_nonneg by lia. split.
  - apply Z.div_pos; lia.
  - unfold Qle. cbn [Qnum Qden inject_Z]. rewrite Z.mul_1_r, Z.mul_comm.
    apply Z.mul_div_le. lia.
Qed.

Lemma capacities_within_budget n f :
  0 <= n -> (0 <= f <= 1)%Q ->
  0 <= to_int (of_int n * (1 - f)) /\
  0 <= to_int (of_int n * f) /\
  to_int (of_int n * (1 - f)) + to_int (of_int n * f) <= n.
Proof.
  intros Hn Hf.
  assert (Hq : (0 <= of_int n)%Q).
  { unfold of_int. change 0%Q with (inject_Z 0). now rewrite <- Zle_Qle. }
  set (A := (of_int n * (1 - f))%Q). set (B := (of_int n * f)%Q).
  assert (HA : (0 <= A)%Q) by (subst A; nra).
  assert (HB : (0 <= B)%Q) by (subst B; nra).
  assert (HAB : (A + B == of_int n)%Q) by (subst A B; ring).
  destruct (to_int_floor A HA) as (A1 & A2).
  destruct (to_int_floor B HB) as (B1 & B2).
  split; [exact A1|]. split; [exact B1|].
  rewrite Zle_Qle, inject_Z_plus. unfold of_int in HAB. lra.
Qed.

Lemma sum_Z_wr_nat l : forall n v,
  (n < List.length l)%nat ->
  sum_Z (wr_nat l n v) = sum_Z l - nth n l 0 + v.
Proof.
  induction l as [|x l IH]; intros [|n] v Hn; cbn [List.length] in Hn;
    try lia; cbn [wr_nat sum_Z fold_right nth].
  - lia.
  - fold (sum_Z (wr_nat l n v)). fold (sum_Z l). rewrite IH by lia. lia.
Qed.

Lemma sum_Z_wr l j v :
  0 <= j < Z.of_nat (List.length l) ->
  sum_Z (wr l j v) = sum_Z l - rd 0 l j + v.
Proof.
  intros Hj. unfold wr, rd. destruct (j <? 0) eqn:E; [lia|].
  apply sum_Z_wr_nat. lia.
Qed.

Lemma sum_Z_repeat_0 n : sum_Z (repeat 0 n) = 0.
Proof. induction n as [|n IH]; cbn; [reflexivity|]. exact IH. Qed.

Section TrainingBudget.

Variable exp : Q -> Q.
Variable random_seq : Z -> nat -> Z.

Hypothesis random_range : forall seed k, 0 <= random_seq seed k <= RAND_MAX.

Lemma select_map_nonneg som g :
  1 <= nsom som -> 0 <= fst (select_map random_seq som g).
Proof.
  intros Hs. unfold select_map. destruct (nsom som =? 1); [cbn; lia|].
  unfold random. cbn [fst]. rewrite to_int_scaled.
  assert (HM : 0 < RAND_MAX) by reflexivity.
  pose proof (random_range (rng_seed g) (rng_calls g)).
  rewrite Z.quot_div_nonneg by nia. apply Z.div_pos; nia.
Qed.

(** A training step advances the clocks of the maps by one in all. *)
Lemma som_train_clock som vec g som' g' :
  1 <= nsom som ->
  Z.of_nat (List.length (t som)) = nsom som ->
  som_train exp random_seq som vec g = Ok (som', g') ->
  sum_Z (t som') = sum_Z (t som) + 1 /\ nt som' = nt som /\
  nsom som' = nsom som /\ List.length (t som') = List.length (t som).
Proof.
  intros Hs Hlen H. unfold som_train in H.
  pose proof (select_map_nonneg som g Hs) as Hj.
  destruct (select_map random_seq som g) as [jsom g1]. cbn [fst] in Hj.
  destruct (jsom <? nsom som) eqn:E; [|discriminate].
  apply Z.ltb_lt in E. injection H as <- _.
  unfold som_train_map. cbn [t nt nsom set_som_wc].
  rewrite sum_Z_wr, wr_length by lia. repeat split; try reflexivity. lia.
Qed.

Lemma train_all_clock nann_som' buf : forall n i som g som' g',
  1 <= nsom som ->
  Z.of_nat (List.length (t som)) = nsom som ->
  train_all exp random_seq n i nann_som' buf som g = Ok (som', g') ->
  sum_Z (t som') = sum_Z (t som) + Z.of_nat n /\ nt som' = nt som /\
  nsom som' = nsom som /\ List.length (t som') = List.length (t som).
Proof.
  induction n as [|n IH]; intros i som g som' g' Hs Hlen H;
    cbn [train_all] in H.
  - injection H as <- _. repeat split; try reflexivity. lia.
  - destruct (som_train exp random_seq som _ g) as [[s1 g1]|e] eqn:E;
      cbn [bind fst snd] in H; [|discriminate].
    apply som_train_clock in E; [|exact Hs | exact Hlen].
    destruct E as (E1 & E2 & E3 & E4).
    apply IH in H; [|lia | congruence].
    destruct H as (H1 & H2 & H3 & H4). repeat split; try congruence. lia.
Qed.

Lemma sample_rows_counts fixed_max learn_max : forall rows st st',
  0 <= r_nfixed st <= fixed_max ->
  0 <= r_nlearn st <= learn_max ->
  sample_rows random_seq fixed_max learn_max rows st = Ok st' ->
  0 <= r_nfixed st' <= fixed_max /\ 0 <= r_nlearn st' <= learn_max.
Proof.
  induction rows as [|ln rest IH]; intros st st' Hf Hl Hrun;
    cbn [sample_rows] in Hrun.
  - injection Hrun as <-. split; assumption.
  - destruct (annots_reader_next (r_args st) ln) as [args|e];
      cbn [bind] in Hrun; [|discriminate].
    destruct (sample_row_within random_seq fixed_max learn_max
                (List.length (r_fixed st)) (List.length (r_learn st))
                (set_res_args st args))
      as ((Hf1 & Hl1 & _) & _).
    { unfold within_capacity. cbn. repeat split; auto; lia. }
    exact (IH _ _ Hf1 Hl1 Hrun).
Qed.

Lemma som_init_rand_shape som seed g :
  let som' := fst (som_init_rand random_seq som seed g) in
  nsom som' = nsom som /\ t som' = t som /\ nt som' = nt som.
Proof.
  unfold som_init_rand. destruct (for_ _ _ _) as [w' g']. cbn. auto.
Qed.

(** X28 ([som_init], [som_init1], [som_train]). With at least one map, a
    learning fraction between 0 and 1 and values of [random()] between 0
    and [RAND_MAX], a run of [som_init] that ends without a failed
    assertion leaves the budget [nt] equal to the number of training
    steps it made: the two reservoirs together never hold more vectors
    than the clamped budget, [nt] is lowered to their number, every
    vector is trained on once, and the clocks of the maps add up to [nt]
    exactly. With a single map its clock ends at [nt]. *)
Theorem som_init_budget_spent args rows g0 args' som' g' :
  1 <= nsom (som args) ->
  0 <= nt (som args) ->
  0 <= a_ngood args ->
  (0 <= nt_learn_frac args <= 1)%Q ->
  som_init exp random_seq args rows g0 = Ok (args', som', g') ->
  sum_Z (t som') = nt som' /\
  0 <= nt som' <= nt (som_init1 args (nann_som args) (som args)) /\
  Z.of_nat (List.length (t som')) = nsom (som args).
Proof.
  intros Hs Hnt Hgood Hfrac H. unfold som_init in H.
  pose proof (som_init_rand_shape
                (som_init1 args (nann_som args) (som args))
                (rand_seed args) g0) as Hshape.
  destruct (som_init_rand random_seq _ (rand_seed args) g0) as [s0 g1].
  cbn [fst] in Hshape. destruct Hshape as (S1 & S2 & S3).
  set (n0 := nt (som_init1 args (nann_som args) (som args))) in *.
  assert (Hn0 : 0 <= n0).
  { subst n0. unfold som_init1. cbn [nt]. destruct (_ || _); lia. }
  unfold ngood_fixed_max, ngood_learn_max in H. rewrite S3 in H.
  destruct (capacities_within_budget n0 (nt_learn_frac args) Hn0 Hfrac)
    as (C1 & C2 & C3).
  set (fixed_max := to_int (of_int n0 * (1 - nt_learn_frac args))) in *.
  set (learn_max := to_int (of_int n0 * nt_learn_frac args)) in *.
  destruct (sample_rows random_seq fixed_max learn_max rows _)
    as [st|e] eqn:Hrows; cbn [bind] in H; [|discriminate].
  apply sample_rows_counts in Hrows; cbn [r_nfixed r_nlearn]; try lia.
  destruct Hrows as (Hf & Hl).
  set (s1 := if r_nlearn st + r_nfixed st <? n0 then _ else s0) in H.
  assert (Hs1 : nt s1 = r_nfixed st + r_nlearn st /\ t s1 = t s0
                /\ nsom s1 = nsom s0).
  { subst s1. destruct (r_nlearn st + r_nfixed st <? n0) eqn:E.
    - cbn. repeat split. lia.
    - apply Z.ltb_ge in E. repeat split. lia. }
  destruct Hs1 as (T1 & T2 & T3).
  assert (Ht0 : t s0 = repeat 0 (Z.to_nat (nsom (som args))))
    by (rewrite S2; reflexivity).
  assert (Hn1 : nsom s0 = nsom (som args)) by (rewrite S1; reflexivity).
  destruct (train_all exp random_seq (Z.to_nat (r_nfixed st)) 0 _ _ s1 _)
    as [[s2 g2]|e] eqn:Htrain1; cbn [bind fst snd] in H; [|discriminate].
  apply train_all_clock in Htrain1;
    [|lia | rewrite T2, T3, Ht0, repeat_length; lia].
  destruct Htrain1 as (A1 & A2 & A3 & A4).
  destruct (train_all exp random_seq (Z.to_nat (r_nlearn st)) 0 _ _ s2 _)
    as [[s3 g3]|e] eqn:Htrain2; cbn [bind fst snd] in H; [|discriminate].
  apply train_all_clock in Htrain2;
    [|lia | rewrite A4, A3, T2, T3, Ht0, repeat_length; lia].
  destruct Htrain2 as (B1 & B2 & B3 & B4).
  injection H as _ <- _. unfold som_norm. cbn [t nt set_som_wc].
  rewrite B1, A1, T2, Ht0, sum_Z_repeat_0, B2, A2, T1.
  split; [lia|]. split; [lia|].
  rewrite B4, A4, T2, Ht0, repeat_length. lia.
Qed.

End TrainingBudget.

Lemma som_init_budget_spent_witness :
  exists a s g,
    som_init exp_stub (random_const 12345) args_budget rows_budget (srandom 1)
    = Ok (a, s, g) /\
    sum_Z (t s) = nt s.
Proof.
  destruct (som_init exp_stub (random_const 12345) args_budget rows_budget
              (srandom 1)) as [[[a s] g]|e] eqn:E;
    [|vm_compute in E; discriminate E].
  exists a, s, g. split; [reflexivity|].
  refine (proj1 (som_init_budget_spent exp_stub (random_const 12345) _
                   args_budget rows_budget (srandom 1) a s g _ _ _ _ E)).
  - intros seed k. unfold random_const. split; intros F; discriminate F.
  - intros F; discriminate F.
  - intros F; discriminate F.
  - intros F; discriminate F.
  - split; intros F; discriminate F.
Defined.

(* ------------------------------------------------------------------ *)
(** ** The table of the evaluation *)

Lemma last_cons_default {A} : forall (l : list A) c a,
  last (c :: l) a = last l c.
Proof.
  induction l as [|x l IH]; intros c a; [reflexivity|].
  change (last (c :: x :: l) a) with (last (x :: l) a).
  now rewrite !IH.
Qed.

Lemma last_in_cons {A} : forall (l : list A) d, In (last l d) (d :: l).
Proof.
  induction l as [|x l IH]; intros d; [now left|].
  rewrite last_cons_default. right. apply IH.
Qed.

Lemma adjacent_snoc {A} (R : A -> A -> Prop) b : forall l,
  adjacent R l ->
  match l with [] => True | a :: rest => R (last rest a) b end ->
  adjacent R (l ++ [b]).
Proof.
  induction l as [|a l IH]; intros H Hlast; cbn [app adjacent]; [exact I|].
  destruct l as [|c l']; cbn [app].
  - split; [exact Hlast | exact I].
  - cbn [adjacent] in H. destruct H as [Hac Hrest]. split; [exact Hac|].
    apply IH; [exact Hrest|]. now rewrite <- (last_cons_default l' c a).
Qed.

Lemma ratio_set a b : 0 <= a -> 0 <= b -> is_unset (ratio a b) = false.
Proof.
  intros Ha Hb. unfold ratio.
  destruct (b =? 0) eqn:E; [destruct (a =? 0); reflexivity|].
  apply Z.eqb_neq in E. cbn [is_unset].
  destruct (Qeq_bool (of_int a / of_int b) (-1)) eqn:Q; [|reflexivity].
  apply Qeq_bool_iff in Q.
  assert (0 <= of_int a / of_int b)%Q; [|lra].
  unfold of_int. apply Qle_shift_div_l.
  - change 0%Q with (inject_Z 0). rewrite <- Zlt_Qlt. lia.
  - rewrite Qmult_0_l. change 0%Q with (inject_Z 0). rewrite <- Zle_Qle.
    exact Ha.
Qed.

Lemma class_metric_set ft nclass :
  (forall i, 0 <= rd 0 nclass i) -> is_unset (class_metric ft nclass) = false.
Proof.
  intros H. pose proof (H 0). pose proof (H 1).
  destruct ft; cbn [class_metric]; apply ratio_set; lia.
Qed.

Lemma counts_nonneg l j : (forall i, 0 <= rd 0 l i) ->
  forall i, 0 <= rd 0 (wr l j (rd 0 l j + 1)) i.
Proof.
  intros H i. unfold rd, wr. destruct (j <? 0); [apply H|].
  destruct (Nat.eq_dec (Z.to_nat j) (Z.to_nat i)) as [E|E].
  - destruct (Nat.lt_ge_cases (Z.to_nat j) (List.length l)) as [Hlt|Hge].
    + rewrite <- E, nth_wr_nat_same by exact Hlt.
      pose proof (H j). unfold rd in *. lia.
    + rewrite nth_overflow by (rewrite wr_nat_length; lia). lia.
  - rewrite nth_wr_nat_other by exact E. apply H.
Qed.

Lemma below_tenth_false n nall :
  0 < nall -> below_tenth n nall = false -> nall <= 10 * n.
Proof.
  intros Hn H. unfold below_tenth in H.
  replace (nall =? 0) with false in H by (symmetry; apply Z.eqb_neq; lia).
  apply Qltb_ge in H. unfold of_int in H.
  assert (Hpos : (0 < inject_Z nall)%Q).
  { change 0%Q with (inject_Z 0). rewrite <- Zlt_Qlt. exact Hn. }
  assert (H2 : ((1 # 10) * inject_Z nall <= inject_Z n)%Q).
  { apply (Qmult_le_compat_r _ _ (inject_Z nall)) in H; [|lra].
    rewrite (Qmult_comm (inject_Z n / inject_Z nall)) in H.
    rewrite Qmult_div_r in H by lra. exact H. }
  rewrite Zle_Qle, inject_Z_mult. change (inject_Z 10) with 10%Q. lra.
Qed.

Section EvaluationTable.

Variable differs : metric_t -> metric_t -> bool.

Lemma eval_step_invariant ft ngood nall first st ln :
  eval_invariant differs nall st ->
  let st' := eval_step differs ft ngood nall first st ln in
  eval_invariant differs nall st' /\
  ev_nall_read st'
  = ev_nall_read st + (if negb first && sl_hash ln then 0 else 1) /\
  (List.length (ev_out st') <= List.length (ev_out st)
     + (if negb first && sl_hash ln then 0 else 1))%nat.
Proof.
  intros (Hn & Hc & Hrows & Hinc & Hmov & Hprev). cbn zeta.
  unfold eval_step.
  destruct (negb first && sl_hash ln);
    [split; [repeat split; assumption | split; lia]|].
  set (dist := if first then Fin 0 else sl_dist ln).
  set (nclass := wr (ev_nclass st) _ _).
  assert (Hc' : forall i, 0 <= rd 0 nclass i) by now apply counts_nonneg.
  assert (Hrows' : Forall (fun r => 1 <= o_nall r <= ev_nall_read st + 1 /\
                      below_tenth (o_nall r) nall = false) (ev_out st)).
  { eapply Forall_impl; [|exact Hrows]. cbn beta. intros r [H1 H2].
    split; [lia | exact H2]. }
  destruct (below_tenth (ev_nall_read st + 1) nall) eqn:Hgate.
  - split; [|cbn [ev_nall_read ev_out]; split; lia].
    unfold eval_invariant. cbn [ev_nall_read ev_nclass ev_out ev_prev].
    split; [lia|]. split; [exact Hc'|]. split; [exact Hrows'|].
    split; [exact Hinc|]. split; [exact Hmov|].
    destruct (ev_out st) as [|r rest]; [|exact Hprev].
    split; [apply Hprev | right; exact Hgate].
  - destruct (is_unset (ev_prev st) || differs (ev_prev st)
                (class_metric ft nclass)) eqn:Hprint.
    + split; [|cbn [ev_nall_read ev_out]; rewrite length_app;
               cbn [List.length]; split; lia].
      unfold eval_invariant. cbn [ev_nall_read ev_nclass ev_out ev_prev].
      split; [lia|]. split; [exact Hc'|]. split.
      { apply Forall_app. split; [exact Hrows'|]. constructor; [|constructor].
        cbn [o_nall]. split; [lia | exact Hgate]. }
      split.
      { apply adjacent_snoc; [exact Hinc|].
        destruct (ev_out st) as [|r rest] eqn:Eout; [exact I|].
        cbn [o_nall].
        pose proof (last_in_cons rest r) as Hin.
        rewrite Forall_forall in Hrows. specialize (Hrows _ Hin). lia. }
      split.
      { apply adjacent_snoc; [exact Hmov|].
        destruct (ev_out st) as [|r rest] eqn:Eout; [exact I|].
        destruct Hprev as [Hp Hset]. rewrite Hset in Hprint.
        cbn [orb o_metric] in *. rewrite <- Hp. exact Hprint. }
      destruct (ev_out st) as [|r rest]; cbn [app].
      * cbn [last o_metric]. split; [reflexivity|].
        now apply class_metric_set.
      * rewrite last_last. cbn [o_metric]. split; [reflexivity|].
        now apply class_metric_set.
    + split; [|cbn [ev_nall_read ev_out]; split; lia].
      unfold eval_invariant. cbn [ev_nall_read ev_nclass ev_out ev_prev].
      split; [lia|]. split; [exact Hc'|]. split; [exact Hrows'|].
      split; [exact Hinc|]. split; [exact Hmov|].
      destruct (ev_out st) as [|r rest]; [|exact Hprev].
      destruct Hprev as [Hp _]. rewrite Hp in Hprint. discriminate Hprint.
Qed.

Lemma eval_fold_invariant ft ngood nall : forall lines st,
  eval_invariant differs nall st ->
  let st' := fold_left (eval_step differs ft ngood nall false) lines st in
  eval_invariant differs nall st' /\
  ev_nall_read st'
  = ev_nall_read st
    + Z.of_nat (List.length (filter (fun l => negb (sl_hash l)) lines)) /\
  (List.length (ev_out st')
   <= List.length (ev_out st)
      + List.length (filter (fun l => negb (sl_hash l)) lines))%nat.
Proof.
  induction lines as [|ln lines IH]; intros st Hst; cbn [fold_left filter].
  - cbn. split; [exact Hst|]. split; lia.
  - destruct (eval_step_invariant ft ngood nall false st ln Hst)
      as (H1 & H2 & H3).
    destruct (IH _ H1) as (G1 & G2 & G3). cbn zeta. cbn [negb andb] in *.
    split; [exact G1|].
    destruct (sl_hash ln); cbn [negb List.length]; split; lia.
Qed.

Lemma eval_invariant_start nall :
  eval_invariant differs nall
    (mk_eval 0 0 [0; 0; 0] [0; 0; 0] (M_fin (-1)) []).
Proof.
  unfold eval_invariant. cbn [ev_nall_read ev_nclass ev_out ev_prev adjacent].
  split; [lia|]. split.
  { intros i. unfold rd. destruct (Z.to_nat i) as [|[|[|[|n]]]]; cbn; lia. }
  split; [constructor|]. split; [exact I|]. split; [exact I|].
  split; [reflexivity | now left].
Qed.

Lemma eval_rows_invariant ft ngood nall lines :
  let st := eval_rows differs ft ngood nall lines in
  eval_invariant differs nall st /\
  ev_nall_read st = Z.of_nat (List.length (counted_lines lines)) /\
  (List.length (ev_out st) <= List.length (counted_lines lines))%nat.
Proof.
  unfold eval_rows. destruct lines as [|ln rest]; cbn zeta.
  - split; [apply eval_invariant_start|]. cbn. split; lia.
  - destruct (eval_step_invariant ft ngood nall true _ ln
                (eval_invariant_start nall)) as (H1 & H2 & H3).
    destruct (eval_fold_invariant ft ngood nall rest _ H1) as (G1 & G2 & G3).
    cbn zeta in *. cbn [negb andb ev_nall_read ev_out List.length] in *.
    split; [exact G1|]. cbn [counted_lines List.length]. split; lia.
Qed.

(** X29 ([eval_filters]). The evaluation loop counts the first line that
    it reads, whatever it is, and every later line that does not start
    with [#]: the command of the pipe is still in [args->str] when the
    first line is appended, so the header of the sites, which the sort
    puts first, is not skipped but counted as a site (of class 0, not in
    the good set, with the score 0). The loop writes at most one row for
    a counted line; the numbers of lines read ([nAll]) grow strictly from
    row to row, each lies between 1 and the number of counted lines, and
    no row is written before a tenth of the [nall] scored sites is
    read. *)
Theorem eval_rows_table ft ngood nall lines :
  let st := eval_rows differs ft ngood nall lines in
  ev_nall_read st = Z.of_nat (List.length (counted_lines lines)) /\
  (List.length (ev_out st) <= List.length (counted_lines lines))%nat /\
  adjacent (fun a b => o_nall a < o_nall b) (ev_out st) /\
  Forall (fun r => 1 <= o_nall r <= ev_nall_read st /\
                   (0 < nall -> nall <= 10 * o_nall r)) (ev_out st).
Proof.
  intros st. subst st.
  destruct (eval_rows_invariant ft ngood nall lines) as (Hinv & Hn & Hlen).
  destruct Hinv as (_ & _ & Hrows & Hinc & _).
  split; [exact Hn|]. split; [exact Hlen|]. split; [exact Hinc|].
  eapply Forall_impl; [|exact Hrows]. cbn beta. intros r [H1 H2].
  split; [exact H1|]. intros Hpos. now apply below_tenth_false.
Qed.

(** X30 ([eval_filters]). After its first row the loop writes a row only
    when the metric has moved: for every row of the table but the first,
    the test [fabs(prev_metric - metric) > metric_th] held, as the doubles
    decide it, between the metric of the row before it and its own. The
    value -1 that [prev_metric] starts with plays no part after the first
    row, since no metric is -1. And the first row is not held back: the
    table is empty only if no line was read or the lines counted stay
    below a tenth of the [nall] scored sites. *)
Theorem eval_rows_metric_moved ft ngood nall lines :
  let st := eval_rows differs ft ngood nall lines in
  adjacent (fun a b => differs (o_metric a) (o_metric b) = true)
    (ev_out st) /\
  (ev_out st <> [] \/ lines = [] \/
   below_tenth (Z.of_nat (List.length (counted_lines lines))) nall = true).
Proof.
  intros st. subst st.
  destruct (eval_rows_invariant ft ngood nall lines) as (Hinv & Hn & _).
  destruct Hinv as (_ & _ & _ & _ & Hmov & Hprev). split; [exact Hmov|].
  destruct (ev_out (eval_rows differs ft ngood nall lines)) as [|r rest];
    [|left; discriminate].
  right. destruct Hprev as [_ [H0|Hb]].
  - left. rewrite H0 in Hn. destruct lines; [reflexivity|].
    cbn [counted_lines List.length] in Hn. lia.
  - right. rewrite <- Hn. exact Hb.
Qed.

End EvaluationTable.

(** The header is counted: five lines read for four sites, and the first
    row is written for the header, before any site is read. *)
Example eval_rows_counts_header :
  let st := eval_rows differs_exact VCF_SNP 3 4 sites_four in
  ev_nall_read st = 5 /\ map o_nall (ev_out st) = [1; 2; 3; 4; 5].
Proof.
  vm_compute. split; reflexivity.
Qed.
